(** * BuildCasa Get Offer flow: flow-state machine and view-model orchestration

    A shallow embedding of [index.js] (the Alpine stores of the Get Offer
    flow) and of the modal helper of the home script, with the properties
    the specification states about them.

    Conventions of the embedding.
    - The global [$store] is the record [Store]; a handler is a computation
      in the monad [M], which threads the store and a chronological trace of
      the observable effects (tracking records, network requests, DOM
      effects) and can throw.
    - An [await] on a network call asks an oracle [Network] for the
      response; a handler is run from its call to its completion without
      another handler interleaving at the [await].  The only place where two
      asynchronous activities of one handler overlap, the [Promise.all] of
      [submitContact], is modelled by a step relation (section
      [ContactSubmission]).
    - Strings are [string]; a JavaScript number is a rational [Q] (the
      finite doubles, with their order); an optional field that may be
      [undefined] is an [option]. *)

From Stdlib Require Import String Ascii List ZArith QArith Lia Bool.
From Stdlib Require Import Sorting.Sorted Sorting.Permutation.
From stdpp Require Import base gmap strings.
Import ListNotations.

Local Open Scope string_scope.
Local Open Scope list_scope.

(** ** JavaScript values that reach the tracking records *)

Inductive JsVal :=
| JUndefined
| JNull
| JString (s : string)
| JNumber (q : Q).

Definition js_opt (o : option string) : JsVal :=
  match o with Some s => JString s | None => JUndefined end.

Definition js_num (o : option Q) : JsVal :=
  match o with Some q => JNumber q | None => JNull end.

(** [x + ", "]: string concatenation prints a missing operand as the
    text [undefined]. *)
Definition js_to_string (o : option string) : string :=
  match o with Some s => s | None => "undefined" end.

(** Truthiness of an optional string: [undefined], [null] and the empty
    string are falsy. *)
Definition truthy (o : option string) : bool :=
  match o with
  | Some s => negb (String.eqb s "")
  | None => false
  end.

(** Truthiness of a number or [null]: [null] and zero are falsy. *)
Definition truthy_num (o : option Q) : bool :=
  match o with
  | Some q => negb (Qeq_bool q 0)
  | None => false
  end.

(** ** Data model *)

(** One entry of the Regrid typeahead response. *)
Record Match := {
  ll_uuid : option string;
  address : option string;
  context : option string;
  score : Q;
}.

(** The object returned by [filterParcelDetails]. *)
Record ParcelDetails := {
  apn : option string;
  jurisdiction : option string;
  parcel_address : option string;
  city : option string;
  state : option string;
  zip : option string;
}.

Record ButtonText := {
  normal : JsVal;
  processing : JsVal;
}.

(** [selectedMatch] and [parcelDetails] are [{}] ([None]) or a filled
    object. *)
Record AddressViewModel := {
  inputValue : string;
  matches : list Match;
  keyboardNavIndex : Z;
  selectedMatch : option Match;
  parcelDetails : option ParcelDetails;
  address_submitButtonText : ButtonText;
  address_errorMessage : string;
}.

Record ContactViewModel := {
  firstName : string;
  lastName : string;
  email : string;
  phone : string;
  desiredTimeline : string;
  contact_submitButtonText : ButtonText;
  contact_errorMessage : string;
  isSubmitted : bool;
  lotAnalysisStep : string;
}.

Record EstimateViewModel := {
  jurisdiction_status : string;
  estimate_low : option Q;
  estimate_high : option Q;
}.

(** The global [$store]: the three view-models and [flowState.value]. *)
Record Store := {
  addressViewModel : AddressViewModel;
  contactViewModel : ContactViewModel;
  estimateViewModel : EstimateViewModel;
  flowState : string;
}.

(** Field updates. *)
Definition set_address (f : AddressViewModel -> AddressViewModel) (s : Store) : Store :=
  {| addressViewModel := f (addressViewModel s);
     contactViewModel := contactViewModel s;
     estimateViewModel := estimateViewModel s;
     flowState := flowState s |}.

Definition set_contact (f : ContactViewModel -> ContactViewModel) (s : Store) : Store :=
  {| addressViewModel := addressViewModel s;
     contactViewModel := f (contactViewModel s);
     estimateViewModel := estimateViewModel s;
     flowState := flowState s |}.

Definition set_estimate (f : EstimateViewModel -> EstimateViewModel) (s : Store) : Store :=
  {| addressViewModel := addressViewModel s;
     contactViewModel := contactViewModel s;
     estimateViewModel := f (estimateViewModel s);
     flowState := flowState s |}.

Definition set_flowState (v : string) (s : Store) : Store :=
  {| addressViewModel := addressViewModel s;
     contactViewModel := contactViewModel s;
     estimateViewModel := estimateViewModel s;
     flowState := v |}.

Definition with_inputValue (v : string) (a : AddressViewModel) : AddressViewModel :=
  {| inputValue := v; matches := matches a; keyboardNavIndex := keyboardNavIndex a;
     selectedMatch := selectedMatch a; parcelDetails := parcelDetails a;
     address_submitButtonText := address_submitButtonText a;
     address_errorMessage := address_errorMessage a |}.

Definition with_matches (v : list Match) (a : AddressViewModel) : AddressViewModel :=
  {| inputValue := inputValue a; matches := v; keyboardNavIndex := keyboardNavIndex a;
     selectedMatch := selectedMatch a; parcelDetails := parcelDetails a;
     address_submitButtonText := address_submitButtonText a;
     address_errorMessage := address_errorMessage a |}.

Definition with_keyboardNavIndex (v : Z) (a : AddressViewModel) : AddressViewModel :=
  {| inputValue := inputValue a; matches := matches a; keyboardNavIndex := v;
     selectedMatch := selectedMatch a; parcelDetails := parcelDetails a;
     address_submitButtonText := address_submitButtonText a;
     address_errorMessage := address_errorMessage a |}.

Definition with_selectedMatch (v : option Match) (a : AddressViewModel) : AddressViewModel :=
  {| inputValue := inputValue a; matches := matches a; keyboardNavIndex := keyboardNavIndex a;
     selectedMatch := v; parcelDetails := parcelDetails a;
     address_submitButtonText := address_submitButtonText a;
     address_errorMessage := address_errorMessage a |}.

Definition with_parcelDetails (v : option ParcelDetails) (a : AddressViewModel) : AddressViewModel :=
  {| inputValue := inputValue a; matches := matches a; keyboardNavIndex := keyboardNavIndex a;
     selectedMatch := selectedMatch a; parcelDetails := v;
     address_submitButtonText := address_submitButtonText a;
     address_errorMessage := address_errorMessage a |}.

Definition with_address_errorMessage (v : string) (a : AddressViewModel) : AddressViewModel :=
  {| inputValue := inputValue a; matches := matches a; keyboardNavIndex := keyboardNavIndex a;
     selectedMatch := selectedMatch a; parcelDetails := parcelDetails a;
     address_submitButtonText := address_submitButtonText a;
     address_errorMessage := v |}.

Definition with_contact_errorMessage (v : string) (c : ContactViewModel) : ContactViewModel :=
  {| firstName := firstName c; lastName := lastName c; email := email c; phone := phone c;
     desiredTimeline := desiredTimeline c;
     contact_submitButtonText := contact_submitButtonText c;
     contact_errorMessage := v; isSubmitted := isSubmitted c;
     lotAnalysisStep := lotAnalysisStep c |}.

Definition with_isSubmitted (v : bool) (c : ContactViewModel) : ContactViewModel :=
  {| firstName := firstName c; lastName := lastName c; email := email c; phone := phone c;
     desiredTimeline := desiredTimeline c;
     contact_submitButtonText := contact_submitButtonText c;
     contact_errorMessage := contact_errorMessage c; isSubmitted := v;
     lotAnalysisStep := lotAnalysisStep c |}.

Definition with_lotAnalysisStep (v : string) (c : ContactViewModel) : ContactViewModel :=
  {| firstName := firstName c; lastName := lastName c; email := email c; phone := phone c;
     desiredTimeline := desiredTimeline c;
     contact_submitButtonText := contact_submitButtonText c;
     contact_errorMessage := contact_errorMessage c; isSubmitted := isSubmitted c;
     lotAnalysisStep := v |}.

(** ** Getters of the view-models *)

(** [Object.keys(this.selectedMatch).length != 0 && !!this.selectedMatch.ll_uuid] *)
Definition isSelected (a : AddressViewModel) : bool :=
  match selectedMatch a with
  | None => false
  | Some m => truthy (ll_uuid m)
  end.

(** [Object.keys(this.parcelDetails).length != 0 && !!jurisdiction && !!apn] *)
Definition hasParcelDetails (a : AddressViewModel) : bool :=
  match parcelDetails a with
  | None => false
  | Some p => truthy (jurisdiction p) && truthy (apn p)
  end.

(** [!!this.jurisdiction.status] *)
Definition hasResults (e : EstimateViewModel) : bool :=
  negb (String.eqb (jurisdiction_status e) "").

(** [this.jurisdiction.status == "active"] *)
Definition hasActiveJurisdiction (e : EstimateViewModel) : bool :=
  String.eqb (jurisdiction_status e) "active".

(** [!!this.estimate.low && !!this.estimate.high] *)
Definition hasEstimate (e : EstimateViewModel) : bool :=
  truthy_num (estimate_low e) && truthy_num (estimate_high e).

(** [estimateViewModel.init()] *)
Definition estimate_init (e : EstimateViewModel) : EstimateViewModel :=
  {| jurisdiction_status := ""; estimate_low := None; estimate_high := None |}.

(** ** Events of the flow-state machine *)

(** The event names the program fires: every call of [transition] passes
    one of these string literals. *)
Inductive Event :=
| SUBMIT_ADDRESS
| START_MODAL_FLOW
| SUCCESS
| SKIP_CONTACT
| ERROR
| EXIT
| SUBMIT_CONTACT
| SCHEDULE
| REQUEST_COMMUNITY.

Definition event_name (e : Event) : string :=
  match e with
  | SUBMIT_ADDRESS => "SUBMIT_ADDRESS"
  | START_MODAL_FLOW => "START_MODAL_FLOW"
  | SUCCESS => "SUCCESS"
  | SKIP_CONTACT => "SKIP_CONTACT"
  | ERROR => "ERROR"
  | EXIT => "EXIT"
  | SUBMIT_CONTACT => "SUBMIT_CONTACT"
  | SCHEDULE => "SCHEDULE"
  | REQUEST_COMMUNITY => "REQUEST_COMMUNITY"
  end.

(** ** Observable effects *)

(** The [options] object a caller spreads into a request payload. *)
Definition Options := list (string * JsVal).

(** [fetchEstimatePayload] of [submitAddress]. *)
Record EstimatePayload := {
  estimate_options : Options;
  payload_parcel_apn : option string;
  payload_parcel_jurisdiction : option string;
  payload_address : option string;
  payload_city : option string;
  payload_state : option string;
  payload_zip : option string;
}.

(** [createLeadPayload] of [submitContact]: the trimmed contact fields and
    the spread [parcelDetails]. *)
Record LeadPayload := {
  lead_options : Options;
  lead_firstName : string;
  lead_lastName : string;
  lead_email : string;
  lead_phone : string;
  lead_desiredTimeline : string;
  lead_parcelDetails : option ParcelDetails;
}.

Inductive Effect :=
| Tracked (eventName : string) (eventProperties : list (string * JsVal))
    (* a call [trackEvent(eventName, eventProperties)] *)
| Fired (currentState : string) (event : Event)
    (* a call [flowStateMachine.transition(currentState, event)] *)
| RequestedAddressMatches (query : string)
| RequestedParcelDetails (id : option string)
| RequestedEstimateResults (payload : EstimatePayload)
| RequestedLead (payload : LeadPayload)
| Blurred
    (* [document.activeElement?.blur()] *)
| Intercepted
    (* [event.preventDefault(); event.stopPropagation()] *)
| AskedConfirmation (message : string)
    (* [confirm(message)] *)
| AppendedScript (src : string).

Definition Trace := list Effect.

(** ** The handler monad: store, trace and exceptions *)

Record World := {
  store : Store;
  trace : Trace;
}.

(** A handler returns, or throws with the store as it was at the throw.
    [Faults] is a [TypeError] raised after [undefined] was stored where the
    data model has an object: the store is then no longer described by
    [Store], so only the trace is kept. *)
Inductive Outcome (A : Type) :=
| Returns (a : A) (w : World)
| Throws (error : string) (w : World)
| Faults (error : string) (tr : Trace).

Arguments Returns {A} a w.
Arguments Throws {A} error w.
Arguments Faults {A} error tr.

Definition M (A : Type) := World -> Outcome A.

Definition ret {A} (a : A) : M A := fun w => Returns a w.

Definition bind {A B} (c : M A) (k : A -> M B) : M B :=
  fun w =>
    match c w with
    | Returns a w' => k a w'
    | Throws e w' => Throws e w'
    | Faults e tr => Faults e tr
    end.

Notation "'do' x <- c ; k" := (bind c (fun x => k))
  (at level 10, x name, c at level 100, k at level 200).

Definition throw {A} (error : string) : M A := fun w => Throws error w.

Definition get : M Store := fun w => Returns (store w) w.

Definition modify (f : Store -> Store) : M unit :=
  fun w => Returns tt {| store := f (store w); trace := trace w |}.

Definition emit (e : Effect) : M unit :=
  fun w => Returns tt {| store := store w; trace := trace w ++ [e] |}.

(** [try { body } catch (error) { handler }] *)
Definition try_catch (body handler : M unit) : M unit :=
  fun w =>
    match body w with
    | Returns a w' => Returns a w'
    | Throws _ w' => handler w'
    | Faults e tr => Faults e tr
    end.

(** [trackEvent(eventName, eventProperties)]: hands the record to the
    tracking service when it is loaded, and swallows every error. *)
Definition trackEvent (eventName : string) (eventProperties : list (string * JsVal)) : M unit :=
  emit (Tracked eventName eventProperties).

(** ** The flow-state machine (createFlowStateMachine) *)

Record Transition := {
  target : string;
}.

Record StateDefinition := {
  transitions : gmap string Transition;
}.

Record FlowStateMachine := {
  defaultState : string;
  states : gmap string StateDefinition;
}.

(** [{ ...earlier, ...later }]: a key of both takes the later value. *)
Definition spread {A} (earlier later : gmap string A) : gmap string A :=
  later ∪ earlier.

Definition createFlowStateMachine : FlowStateMachine :=
  (* transition definition objects for the shared transition events *)
  let submitAddressTransition : gmap string Transition :=
    {[ "SUBMIT_ADDRESS" := {| target := "addressFormProcessing" |} ]} in
  let modalSubmitAddressTransition : gmap string Transition :=
    {[ "SUBMIT_ADDRESS" := {| target := "modalAddressFormProcessing" |} ]} in
  let submitContactTransition : gmap string Transition :=
    {[ "SUBMIT_CONTACT" := {| target := "contactFormProcessing" |} ]} in
  let exitTransition : gmap string Transition :=
    {[ "EXIT" := {| target := "default" |} ]} in
  {| defaultState := "default";
     states := list_to_map [
       ("default",
        {| transitions :=
             <[ "START_MODAL_FLOW" := {| target := "modalAddressForm" |} ]>
               submitAddressTransition |});
       ("addressFormProcessing",
        {| transitions := list_to_map [
             ("SUCCESS", {| target := "contactForm" |});
             ("SKIP_CONTACT", {| target := "estimateResults" |});
             ("ERROR", {| target := "addressFormError" |}) ] |});
       ("addressFormError",
        {| transitions := submitAddressTransition |});
       ("modalAddressForm",
        {| transitions := spread modalSubmitAddressTransition exitTransition |});
       ("modalAddressFormProcessing",
        {| transitions :=
             spread (list_to_map [
               ("SUCCESS", {| target := "contactForm" |});
               ("SKIP_CONTACT", {| target := "estimateResults" |});
               ("ERROR", {| target := "modalAddressFormError" |}) ])
               exitTransition |});
       ("modalAddressFormError",
        {| transitions := spread modalSubmitAddressTransition exitTransition |});
       ("contactForm",
        {| transitions := spread submitContactTransition exitTransition |});
       ("contactFormProcessing",
        {| transitions :=
             spread (list_to_map [
               ("SUCCESS", {| target := "estimateResults" |});
               ("ERROR", {| target := "contactFormError" |}) ])
               exitTransition |});
       ("contactFormError",
        {| transitions := spread submitContactTransition exitTransition |});
       ("estimateResults",
        {| transitions :=
             spread (list_to_map [
               ("SCHEDULE", {| target := "scheduleConsultation" |});
               ("REQUEST_COMMUNITY", {| target := "requestedCommunity" |}) ])
               exitTransition |});
       ("scheduleConsultation",
        {| transitions := exitTransition |});
       ("requestedCommunity",
        {| transitions := exitTransition |}) ] |}.

(** [$store.flowStateMachine] *)
Definition flowStateMachine : FlowStateMachine := createFlowStateMachine.

(** [transition(currentState, event)].  When [currentState] is no key of
    [states], [currentStateDefinition] is [undefined] and reading its
    [transitions] throws a [TypeError]. *)
Definition transition (m : FlowStateMachine) (currentState : string) (event : Event)
  : M string :=
  match states m !! currentState with
  | None => throw "TypeError"
  | Some currentStateDefinition =>
      match transitions currentStateDefinition !! event_name event with
      | None =>
          do _ <- trackEvent "Invalid State Transition Triggered"
                    [("current_state_str", JString currentState);
                     ("event_str", JString (event_name event))];
          ret currentState
      | Some destinationTransition =>
          ret (target destinationTransition)
      end
  end.

(** *** [transition] on an arbitrary event name

    [transitions[event]] reads a property of an object literal: for a name
    that is no key of the literal it finds what every object inherits from
    [Object.prototype], if the name is one of those, and [undefined]
    otherwise. *)

Definition objectPrototypeKeys : list string :=
  ["constructor"; "__defineGetter__"; "__defineSetter__"; "hasOwnProperty";
   "__lookupGetter__"; "__lookupSetter__"; "isPrototypeOf"; "propertyIsEnumerable";
   "toString"; "valueOf"; "__proto__"; "toLocaleString"].

(** [Array.prototype.includes] on strings. *)
Definition includes (l : list string) (s : string) : bool :=
  existsb (String.eqb s) l.

Module AnyEvent.

(** [transition(currentState, event)] for every string [event]; the result
    [None] is [undefined].  An inherited member is truthy and has no
    [target]: the call returns [undefined] and tracks nothing.  When
    [currentState] is no key of [states], [this.states[currentState]] is
    [undefined] or an inherited member, its [transitions] is [undefined]
    either way, and reading [transitions[event]] throws a [TypeError]. *)
Definition transition (m : FlowStateMachine) (currentState : string) (event : string)
  : M (option string) :=
  match states m !! currentState with
  | None => throw "TypeError"
  | Some currentStateDefinition =>
      match transitions currentStateDefinition !! event with
      | Some destinationTransition =>
          ret (Some (target destinationTransition))
      | None =>
          if includes objectPrototypeKeys event
          then ret None
          else
            do _ <- trackEvent "Invalid State Transition Triggered"
                      [("current_state_str", JString currentState);
                       ("event_str", JString event)];
            ret (Some currentState)
      end
  end.

End AnyEvent.

(** [$store.flowState.value = $store.flowStateMachine.transition($store.flowState.value, event)] *)
Definition fire (event : Event) : M unit :=
  do s <- get;
  do _ <- emit (Fired (flowState s) event);
  do destinationState <- transition flowStateMachine (flowState s) event;
  modify (set_flowState destinationState).

(** [createFlowState]: [value] is the empty string until [init] runs. *)
Definition createFlowState : string := "".

Definition flowState_init (s : Store) : Store :=
  set_flowState (defaultState flowStateMachine) s.

(** The target the table holds for a state and an event key, if any. *)
Definition defined_transition (m : FlowStateMachine) (s k : string) : option string :=
  match states m !! s with
  | None => None
  | Some def =>
      match transitions def !! k with
      | None => None
      | Some t => Some (target t)
      end
  end.

(** The state graph as the specification draws it. *)
Definition reference_graph : list (string * Event * string) := [
  ("default", SUBMIT_ADDRESS, "addressFormProcessing");
  ("default", START_MODAL_FLOW, "modalAddressForm");
  ("addressFormProcessing", SUCCESS, "contactForm");
  ("addressFormProcessing", SKIP_CONTACT, "estimateResults");
  ("addressFormProcessing", ERROR, "addressFormError");
  ("addressFormError", SUBMIT_ADDRESS, "addressFormProcessing");
  ("modalAddressForm", SUBMIT_ADDRESS, "modalAddressFormProcessing");
  ("modalAddressForm", EXIT, "default");
  ("modalAddressFormProcessing", SUCCESS, "contactForm");
  ("modalAddressFormProcessing", SKIP_CONTACT, "estimateResults");
  ("modalAddressFormProcessing", ERROR, "modalAddressFormError");
  ("modalAddressFormProcessing", EXIT, "default");
  ("modalAddressFormError", SUBMIT_ADDRESS, "modalAddressFormProcessing");
  ("modalAddressFormError", EXIT, "default");
  ("contactForm", SUBMIT_CONTACT, "contactFormProcessing");
  ("contactForm", EXIT, "default");
  ("contactFormProcessing", SUCCESS, "estimateResults");
  ("contactFormProcessing", ERROR, "contactFormError");
  ("contactFormProcessing", EXIT, "default");
  ("contactFormError", SUBMIT_CONTACT, "contactFormProcessing");
  ("contactFormError", EXIT, "default");
  ("estimateResults", SCHEDULE, "scheduleConsultation");
  ("estimateResults", REQUEST_COMMUNITY, "requestedCommunity");
  ("estimateResults", EXIT, "default");
  ("scheduleConsultation", EXIT, "default");
  ("requestedCommunity", EXIT, "default") ].

(** ** Ranking of the typeahead matches *)

Definition is_digit (c : ascii) : bool :=
  (48 <=? nat_of_ascii c)%nat && (nat_of_ascii c <=? 57)%nat.

(** The characters [.] does not match: line feed and carriage return. *)
Definition is_line_terminator (c : ascii) : bool :=
  (nat_of_ascii c =? 10)%nat || (nat_of_ascii c =? 13)%nat.

(** [.*[^0-9]$]: every character but the last is matched by [.], the last
    one is no digit. *)
Fixpoint any_then_no_digit (s : string) : bool :=
  match s with
  | EmptyString => false
  | String c EmptyString => negb (is_digit c)
  | String c rest => negb (is_line_terminator c) && any_then_no_digit rest
  end.

(** [address.match(/^[0-9].*[^0-9]$/)] is not [null]. *)
Definition address_pattern (s : string) : bool :=
  match s with
  | EmptyString => false
  | String c rest => is_digit c && any_then_no_digit rest
  end.

(** The callback of [filter]:
    [match.ll_uuid && match.address && match.address.match(/^[0-9].*[^0-9]$/)] *)
Definition keeps_match (m : Match) : bool :=
  truthy (ll_uuid m)
  && truthy (address m)
  && match address m with
     | Some a => address_pattern a
     | None => false
     end.

(** [a > b] and [a < b] on numbers. *)
Definition js_gt (a b : Q) : bool :=
  match Qcompare a b with Gt => true | _ => false end.

Definition js_lt (a b : Q) : bool :=
  match Qcompare a b with Lt => true | _ => false end.

Definition compareMatchesScores (a b : Match) : Z :=
  if js_gt (score a) (score b) then (-1)%Z
  else if js_lt (score a) (score b) then 1%Z
  else 0%Z.

(** [Array.prototype.sort(comparefn)] is a stable sort: for a consistent
    comparator its result is the one of the stable insertion sort. *)
Fixpoint js_insert {A} (comparefn : A -> A -> Z) (x : A) (l : list A) : list A :=
  match l with
  | [] => [x]
  | y :: l' =>
      if (comparefn x y <=? 0)%Z then x :: y :: l'
      else y :: js_insert comparefn x l'
  end.

Fixpoint js_sort {A} (comparefn : A -> A -> Z) (l : list A) : list A :=
  match l with
  | [] => []
  | x :: l' => js_insert comparefn x (js_sort comparefn l')
  end.

Definition filterSortAndSliceAddressMatches (regridTypeaheadResponseData : list Match)
  : list Match :=
  let filteredAndSortedMatches :=
    js_sort (fun a b => compareMatchesScores a b)
            (List.filter keeps_match regridTypeaheadResponseData) in
  let slicedMatches := firstn 10 filteredAndSortedMatches in
  slicedMatches.

(** ** The network *)

(** [results[0].properties.fields] of a Regrid parcel response. *)
Record RegridFields := {
  parcelnumb : option string;
  county : option string;
  fields_address : option string;
  scity : option string;
  state2 : option string;
  szip : option string;
}.

(** The body of the estimate endpoint's response. *)
Record EstimateResults := {
  results_jurisdiction_status : string;
  results_estimate_low : option Q;
  results_estimate_high : option Q;
}.

(** The answers of the four endpoints.  [None] (and [false] for the lead
    endpoint) is a failed request: [fetch] rejects or the response is not
    [ok].  The parcel endpoint answers with the [fields] of its [results]. *)
Record Network := {
  typeahead_response : string -> option (list Match);
  parcel_response : option string -> option (list RegridFields);
  estimate_response : EstimatePayload -> option EstimateResults;
  lead_response : LeadPayload -> bool;
}.

Definition fetchAddressMatches (net : Network) (query : string) : M (list Match) :=
  do _ <- emit (RequestedAddressMatches query);
  match typeahead_response net query with
  | None => throw "Network response was not OK"
  | Some responseData => ret (filterSortAndSliceAddressMatches responseData)
  end.

(** [regridParcelResponseData.results[0].properties.fields] throws a
    [TypeError] when [results] is empty. *)
Definition filterParcelDetails (regridParcelResponseData : list RegridFields)
  : M ParcelDetails :=
  match regridParcelResponseData with
  | [] => throw "TypeError"
  | regridResultFields :: _ =>
      ret {| apn := parcelnumb regridResultFields;
             jurisdiction := county regridResultFields;
             parcel_address := fields_address regridResultFields;
             city := scity regridResultFields;
             state := state2 regridResultFields;
             zip := szip regridResultFields |}
  end.

Definition fetchParcelDetails (net : Network) (id : option string) : M ParcelDetails :=
  do _ <- emit (RequestedParcelDetails id);
  match parcel_response net id with
  | None => throw "Network response was not OK"
  | Some responseData => filterParcelDetails responseData
  end.

Definition fetchEstimateResults (net : Network) (payload : EstimatePayload)
  : M EstimateResults :=
  do _ <- emit (RequestedEstimateResults payload);
  match estimate_response net payload with
  | None => throw "Network response was not OK"
  | Some responseData => ret responseData
  end.

(** ** The address view-model *)

Definition when (b : bool) (c : M unit) : M unit :=
  if b then c else ret tt.

(** [selectedMatch.f]: [undefined] on [{}]. *)
Definition selected_field (f : Match -> option string) (a : AddressViewModel)
  : option string :=
  match selectedMatch a with
  | Some m => f m
  | None => None
  end.

(** [parcelDetails.f]: [undefined] on [{}]. *)
Definition parcel_field (f : ParcelDetails -> option string) (a : AddressViewModel)
  : option string :=
  match parcelDetails a with
  | Some p => f p
  | None => None
  end.

(** [this.matches[this.keyboardNavIndex]]: [undefined] out of range. *)
Definition matches_at (l : list Match) (i : Z) : option Match :=
  if (i <? 0)%Z then None else nth_error l (Z.to_nat i).

(** [handleMatchSelection(match)].  Called with [undefined] it stores
    [undefined] as [selectedMatch] and throws on [match.address]. *)
Definition handleMatchSelection (m : option Match) : M unit :=
  match m with
  | None => fun w => Faults "TypeError" (trace w)
  | Some m =>
      do _ <- modify (set_address (with_selectedMatch (Some m)));
      do _ <- modify (set_address (with_inputValue
                (String.append (js_to_string (address m))
                   (String.append ", " (js_to_string (context m))))));
      do _ <- modify (set_address (with_matches []));
      do _ <- modify (set_address (with_keyboardNavIndex (-1)));
      trackEvent "Address Selected"
        [("address_str", js_opt (address m));
         ("context_str", js_opt (context m));
         ("regrid_ll_uuid_str", js_opt (ll_uuid m))]
  end.

Definition handleInput (net : Network) : M unit :=
  (* clear any previously selected address, parcel details, estimate, submission *)
  do s <- get;
  do _ <- when (isSelected (addressViewModel s))
            (modify (set_address (with_selectedMatch None)));
  do s <- get;
  do _ <- when (hasParcelDetails (addressViewModel s))
            (modify (set_address (with_parcelDetails None)));
  do s <- get;
  do _ <- when (hasResults (estimateViewModel s))
            (modify (set_estimate estimate_init));
  do s <- get;
  do _ <- when (isSubmitted (contactViewModel s))
            (modify (set_contact (with_isSubmitted false)));
  (* fetch and update the address matches, or handle the error *)
  try_catch
    (do s <- get;
     do fetched <- fetchAddressMatches net (inputValue (addressViewModel s));
     modify (set_address (with_matches fetched)))
    (do _ <- modify (set_address (with_address_errorMessage
          "There was an error finding your address. Please try again, or contact us for help."));
     fire ERROR).

Definition handleKeydown (key : string) : M unit :=
  if negb (String.eqb key "Enter")
     && negb (String.eqb key "ArrowUp")
     && negb (String.eqb key "ArrowDown")
  then ret tt
  else
    do s <- get;
    let this := addressViewModel s in
    if isSelected this || (length (matches this) =? 0)%nat
    then ret tt
    else
      do _ <- emit Intercepted;
      if String.eqb key "Enter" && negb (keyboardNavIndex this =? -1)%Z then
        handleMatchSelection (matches_at (matches this) (keyboardNavIndex this))
      else if String.eqb key "ArrowUp" then
        modify (set_address (with_keyboardNavIndex
          (if (keyboardNavIndex this <=? -1)%Z
           then (Z.of_nat (length (matches this)) - 1)%Z
           else (keyboardNavIndex this - 1)%Z)))
      else if String.eqb key "ArrowDown" then
        modify (set_address (with_keyboardNavIndex
          (if (keyboardNavIndex this >=? Z.of_nat (length (matches this)) - 1)%Z
           then (-1)%Z
           else (keyboardNavIndex this + 1)%Z)))
      else ret tt.

Definition fetchEstimatePayload (options : Options) (a : AddressViewModel)
  : EstimatePayload :=
  {| estimate_options := options;
     payload_parcel_apn := parcel_field apn a;
     payload_parcel_jurisdiction := parcel_field jurisdiction a;
     payload_address := parcel_field parcel_address a;
     payload_city := parcel_field city a;
     payload_state := parcel_field state a;
     payload_zip := parcel_field zip a |}.

Definition submitAddress (net : Network) (options : Options) : M unit :=
  do s <- get;
  (* debounce the submission if the form is already processing *)
  if String.eqb (flowState s) "addressFormProcessing"
     || String.eqb (flowState s) "modalAddressFormProcessing"
  then ret tt
  else
    do _ <- emit Blurred;
    do _ <- modify (set_address (with_address_errorMessage ""));
    do _ <- fire SUBMIT_ADDRESS;
    do s <- get;
    do _ <- trackEvent "Address Submitted"
              [("address_str", js_opt (selected_field address (addressViewModel s)));
               ("context_str", js_opt (selected_field context (addressViewModel s)));
               ("regrid_ll_uuid_str", js_opt (selected_field ll_uuid (addressViewModel s)))];
    try_catch
      (do s <- get;
       if hasParcelDetails (addressViewModel s)
          && hasResults (estimateViewModel s)
          && isSubmitted (contactViewModel s)
       then fire SKIP_CONTACT
       else
         do _ <- when (negb (hasParcelDetails (addressViewModel s)))
                   (do fetched <- fetchParcelDetails net
                                    (selected_field ll_uuid (addressViewModel s));
                    modify (set_address (with_parcelDetails (Some fetched))));
         do s <- get;
         do _ <- when (negb (hasResults (estimateViewModel s)))
                   (do estimateResults <- fetchEstimateResults net
                         (fetchEstimatePayload options (addressViewModel s));
                    modify (set_estimate (fun _ =>
                      {| jurisdiction_status := results_jurisdiction_status estimateResults;
                         estimate_low := results_estimate_low estimateResults;
                         estimate_high := results_estimate_high estimateResults |})));
         do _ <- fire SUCCESS;
         do s <- get;
         trackEvent "Address Submission Succeeded"
           [("address_str", js_opt (parcel_field parcel_address (addressViewModel s)));
            ("address_city_str", js_opt (parcel_field city (addressViewModel s)));
            ("address_state_str", js_opt (parcel_field state (addressViewModel s)));
            ("address_zip_str", js_opt (parcel_field zip (addressViewModel s)));
            ("parcel_apn_str", js_opt (parcel_field apn (addressViewModel s)));
            ("parcel_jurisdiction_str", js_opt (parcel_field jurisdiction (addressViewModel s)));
            ("jurisdiction_status_str", JString (jurisdiction_status (estimateViewModel s)));
            ("estimate_low_real", js_num (estimate_low (estimateViewModel s)));
            ("estimate_high_real", js_num (estimate_high (estimateViewModel s)))])
      (do _ <- modify (set_address (with_address_errorMessage
            "There was an error processing your address. Please try again, or contact us for help."));
       do _ <- fire ERROR;
       do s <- get;
       trackEvent "Address Submission Failed"
         [("error_str", JString (address_errorMessage (addressViewModel s)))]).

(** [handleSubmit(event, options)] of the address form. *)
Definition address_handleSubmit (net : Network) (options : Options) : M unit :=
  do _ <- emit Intercepted;
  submitAddress net options.

(** ** The estimate view-model *)

(** The properties the contact and estimate handlers attach to their
    tracking records. *)
Definition flowProperties (s : Store) : list (string * JsVal) :=
  [("address_str", js_opt (parcel_field parcel_address (addressViewModel s)));
   ("address_city_str", js_opt (parcel_field city (addressViewModel s)));
   ("address_state_str", js_opt (parcel_field state (addressViewModel s)));
   ("address_zip_str", js_opt (parcel_field zip (addressViewModel s)));
   ("apn_str", js_opt (parcel_field apn (addressViewModel s)));
   ("jurisdiction_str", js_opt (parcel_field jurisdiction (addressViewModel s)));
   ("jurisdiction_status_str", JString (jurisdiction_status (estimateViewModel s)));
   ("estimate_low_real", js_num (estimate_low (estimateViewModel s)));
   ("estimate_high_real", js_num (estimate_high (estimateViewModel s)));
   ("contact_first_name_str", JString (firstName (contactViewModel s)));
   ("contact_last_name_str", JString (lastName (contactViewModel s)));
   ("contact_email_str", JString (email (contactViewModel s)));
   ("contact_phone_str", JString (phone (contactViewModel s)));
   ("contact_desired_timeline_str", JString (desiredTimeline (contactViewModel s)))].

Definition handleScheduleConsultationClick : M unit :=
  do _ <- emit Intercepted;
  do _ <- fire SCHEDULE;
  do s <- get;
  trackEvent "Schedule Consultation Clicked" (flowProperties s).

Definition handleRequestCommunityClick : M unit :=
  do _ <- emit Intercepted;
  do _ <- fire REQUEST_COMMUNITY;
  do s <- get;
  trackEvent "Community Requested" (flowProperties s).

(** ** The contact view-model *)

(** White space of [String.prototype.trim] among the one-byte characters. *)
Definition is_white_space (c : ascii) : bool :=
  let n := nat_of_ascii c in
  ((9 <=? n)%nat && (n <=? 13)%nat) || (n =? 32)%nat || (n =? 160)%nat.

Fixpoint trim_start (s : string) : string :=
  match s with
  | EmptyString => EmptyString
  | String c rest => if is_white_space c then trim_start rest else s
  end.

Definition reverse (s : string) : string :=
  string_of_list_ascii (List.rev (list_ascii_of_string s)).

Definition trim (s : string) : string :=
  reverse (trim_start (reverse (trim_start s))).

Definition createLeadPayload (options : Options) (s : Store) : LeadPayload :=
  {| lead_options := options;
     lead_firstName := trim (firstName (contactViewModel s));
     lead_lastName := trim (lastName (contactViewModel s));
     lead_email := trim (email (contactViewModel s));
     lead_phone := trim (phone (contactViewModel s));
     lead_desiredTimeline := trim (desiredTimeline (contactViewModel s));
     lead_parcelDetails := parcelDetails (addressViewModel s) |}.

(** The steps [sequenceLotAnalysisSteps] displays, one every 1500 ms. *)
Definition analysisSteps : list string :=
  ["Checking flood zones...";
   "Checking fire hazard zones...";
   "Checking zoning district...";
   "Checking lot shape & size..."].

Definition analysisStepDelay : nat := 1500.

(** [submitContact] up to its [try]: [None] when the call is debounced,
    else the payload of the lead request. *)
Definition submitContact_prologue (options : Options) : M (option LeadPayload) :=
  do s <- get;
  if String.eqb (flowState s) "contactFormProcessing"
  then ret None
  else
    do _ <- emit Blurred;
    do _ <- modify (set_contact (with_contact_errorMessage ""));
    do _ <- fire SUBMIT_CONTACT;
    do s <- get;
    do _ <- trackEvent "Contact Submitted" (flowProperties s);
    do s <- get;
    ret (Some (createLeadPayload options s)).

(** The rest of the [try] block, after [await Promise.all([...])]. *)
Definition submitContact_fulfilled : M unit :=
  do _ <- modify (set_contact (with_isSubmitted true));
  do _ <- fire SUCCESS;
  do s <- get;
  do _ <- when (hasActiveJurisdiction (estimateViewModel s) && hasEstimate (estimateViewModel s))
            (emit (AppendedScript "https://assets.calendly.com/assets/external/widget.js"));
  do s <- get;
  trackEvent "Contact Submission Succeeded" (flowProperties s).

(** The [catch] block. *)
Definition submitContact_rejected : M unit :=
  do _ <- modify (set_contact (with_contact_errorMessage
        "There was an error processing your info. Please try again, or contact us for help."));
  do _ <- fire ERROR;
  do s <- get;
  trackEvent "Contact Submission Failed"
    [("error_str", JString (contact_errorMessage (contactViewModel s)))].

(** *** The two activities of a contact submission

    [await Promise.all([sequenceLotAnalysisSteps(this), createLead(payload)])]
    starts the step sequence and the lead request one after the other and
    suspends [submitContact].  The sequence displays a step and sleeps on a
    1500 ms timer, four times, and then fulfils its promise (it never
    rejects); the lead request settles whenever the network answers.
    [Promise.all] fulfils once both promises are fulfilled and rejects as
    soon as one is rejected; [submitContact] resumes then, in its [try]
    block or in its [catch] block. *)

Inductive Promise :=
| Pending
| Fulfilled
| Rejected.

Record Submission := {
  world : World;
  now : nat;                 (* ms elapsed since [submitContact] was called *)
  steps_left : list string;  (* steps the loop has not displayed yet *)
  timer_due : option nat;    (* the loop's timer: the time before which it cannot fire *)
  sequence : Promise;        (* [sequenceLotAnalysisSteps(this)] *)
  lead : Promise;            (* [createLead(createLeadPayload)] *)
  resumed : bool;            (* [submitContact] has resumed after the [await] *)
}.

Definition display (step : string) (w : World) : World :=
  {| store := set_contact (with_lotAnalysisStep step) (store w); trace := trace w |}.

(** One turn of the loop of [sequenceLotAnalysisSteps]: display the next
    step and sleep, or [resolve()] when no step is left. *)
Definition sequence_turn (t : Submission) : Submission :=
  match steps_left t with
  | step :: rest =>
      {| world := display step (world t); now := now t;
         steps_left := rest; timer_due := Some (now t + analysisStepDelay);
         sequence := sequence t; lead := lead t; resumed := resumed t |}
  | [] =>
      {| world := world t; now := now t;
         steps_left := []; timer_due := None;
         sequence := Fulfilled; lead := lead t; resumed := resumed t |}
  end.

(** The world a computation leaves behind. *)
Definition world_after (o : Outcome unit) (before : World) : World :=
  match o with
  | Returns _ w => w
  | Throws _ w => w
  | Faults _ tr => {| store := store before; trace := tr |}
  end.

Definition resume (c : M unit) (t : Submission) : Submission :=
  {| world := world_after (c (world t)) (world t); now := now t;
     steps_left := steps_left t; timer_due := timer_due t;
     sequence := sequence t; lead := lead t; resumed := true |}.

Definition settle_lead (p : Promise) (t : Submission) : Submission :=
  {| world := world t; now := now t;
     steps_left := steps_left t; timer_due := timer_due t;
     sequence := sequence t; lead := p; resumed := resumed t |}.

Definition elapse (d : nat) (t : Submission) : Submission :=
  {| world := world t; now := now t + d;
     steps_left := steps_left t; timer_due := timer_due t;
     sequence := sequence t; lead := lead t; resumed := resumed t |}.

(** What a call of [submitContact] leaves behind when it returns to the
    event loop. *)
Inductive Call :=
| Debounced (w : World)               (* returned at the guard *)
| Suspended (payload : LeadPayload) (t : Submission)   (* waiting at the [await] *)
| Failed (error : string) (w : World) (* threw before the [await] *).

(** [submitContact(options)] up to its [await]: the first step is on
    display with its timer running, and the lead request is under way. *)
Definition submitContact (options : Options) (w : World) : Call :=
  match submitContact_prologue options w with
  | Returns None w' => Debounced w'
  | Returns (Some payload) w' =>
      let started :=
        sequence_turn
          {| world := w'; now := 0; steps_left := analysisSteps; timer_due := None;
             sequence := Pending; lead := Pending; resumed := false |} in
      Suspended payload
        {| world := {| store := store (world started);
                       trace := trace (world started) ++ [RequestedLead payload] |};
           now := now started; steps_left := steps_left started;
           timer_due := timer_due started; sequence := sequence started;
           lead := lead started; resumed := resumed started |}
  | Throws e w' => Failed e w'
  | Faults e tr => Failed e {| store := store w; trace := tr |}
  end.

(** The events of the event loop while a submission is suspended. *)
Inductive step (net : Network) (payload : LeadPayload) : Submission -> Submission -> Prop :=
| step_elapse t d :
    step net payload t (elapse d t)
| step_timer t due :
    timer_due t = Some due ->
    due <= now t ->
    step net payload t (sequence_turn t)
| step_lead_fulfilled t :
    lead t = Pending ->
    lead_response net payload = true ->
    step net payload t (settle_lead Fulfilled t)
| step_lead_rejected t :
    lead t = Pending ->
    lead_response net payload = false ->
    step net payload t (settle_lead Rejected t)
| step_resume_fulfilled t :
    resumed t = false ->
    sequence t = Fulfilled ->
    lead t = Fulfilled ->
    step net payload t (resume (try_catch submitContact_fulfilled submitContact_rejected) t)
| step_resume_rejected t :
    resumed t = false ->
    lead t = Rejected ->
    step net payload t (resume submitContact_rejected t).

Inductive steps (net : Network) (payload : LeadPayload) : Submission -> Submission -> Prop :=
| steps_refl t : steps net payload t t
| steps_step t1 t2 t3 :
    steps net payload t1 t2 -> step net payload t2 t3 -> steps net payload t1 t3.

(** ** The modal helpers of [index.js] *)

Definition isOpen (s : Store) : bool :=
  String.eqb (flowState s) "modalAddressForm"
  || String.eqb (flowState s) "modalAddressFormProcessing"
  || String.eqb (flowState s) "modalAddressFormError"
  || String.eqb (flowState s) "contactForm"
  || String.eqb (flowState s) "contactFormProcessing"
  || String.eqb (flowState s) "contactFormError"
  || String.eqb (flowState s) "estimateResults"
  || String.eqb (flowState s) "scheduleConsultation"
  || String.eqb (flowState s) "requestedCommunity".

Definition handleModalFlowStart : M unit :=
  do _ <- fire START_MODAL_FLOW;
  trackEvent "Modal Get Offer Flow Opened" [].

Definition handleModalClose : M unit :=
  do _ <- fire EXIT;
  trackEvent "Get Offer Modal Closed" [].

(** ** The modal helpers of the home script *)

Module Home.

(** Modelled from the spec: the tracking module the home script imports is
    not among the sources; it is the analytics sink
    [record(eventName, properties)], fire-and-forget, which never throws
    into its caller. *)
Definition trackEvent (eventName : string) (eventProperties : list (string * JsVal))
  : M unit :=
  emit (Tracked eventName eventProperties).

Definition handleModalFlowStart (cta : option string) : M unit :=
  do _ <- fire START_MODAL_FLOW;
  let eventProperties :=
    if truthy cta then [("cta_str", js_opt cta)] else [] in
  trackEvent "Modal Get Offer Flow Opened" eventProperties.

Definition exitConfirmation : string :=
  "Are you sure you want to stop before you've seen how much your extra lot space could be worth?".

(** [handleModalClose()].  [hasAnyContactDetails] is the getter of the
    contact view-model the home script imports, and [confirm] is the
    user's answer to the dialog. *)
Definition handleModalClose (hasAnyContactDetails : ContactViewModel -> bool)
    (confirm : string -> bool) : M unit :=
  do s <- get;
  do proceedWithExit <-
    (if String.eqb (flowState s) "contactForm"
        && hasAnyContactDetails (contactViewModel s)
     then
       do _ <- emit (AskedConfirmation exitConfirmation);
       ret (confirm exitConfirmation)
     else ret true);
  do s <- get;
  let proceedWithExit :=
    if String.eqb (flowState s) "contactFormProcessing" then false
    else proceedWithExit in
  if proceedWithExit
  then
    do _ <- fire EXIT;
    trackEvent "Get Offer Modal Closed" []
  else ret tt.

(** Modelled from the spec: [hasAnyContactDetails] is declared in the
    contact view-model module of the home script, which is not among the
    sources; the specification reads it as "any contact field populated". *)
Definition anyContactFieldPopulated (c : ContactViewModel) : bool :=
  negb (String.eqb (firstName c) "")
  || negb (String.eqb (lastName c) "")
  || negb (String.eqb (email c) "")
  || negb (String.eqb (phone c) "")
  || negb (String.eqb (desiredTimeline c) "").

End Home.

(** ** Auxiliary definitions of the statements *)

(** The edges of a machine's table, read off its finite maps. *)
Definition table_edges (m : FlowStateMachine) : list (string * string * string) :=
  flat_map
    (fun sd => List.map (fun kt => (fst sd, fst kt, target (snd kt)))
                 (map_to_list (transitions (snd sd))))
    (map_to_list (states m)).

Definition edge_eqb (a b : string * string * string) : bool :=
  String.eqb (fst (fst a)) (fst (fst b))
  && String.eqb (snd (fst a)) (snd (fst b))
  && String.eqb (snd a) (snd b).

Definition included (l1 l2 : list (string * string * string)) : bool :=
  forallb (fun x => existsb (edge_eqb x) l2) l1.

(** The reference graph with its events by name. *)
Definition reference_edges : list (string * string * string) :=
  List.map (fun e => (fst (fst e), event_name (snd (fst e)), snd e)) reference_graph.

(** The record [transition] hands to [trackEvent] on an invalid transition. *)
Definition invalidTransitionRecord (currentState : string) (event : Event) : Effect :=
  Tracked "Invalid State Transition Triggered"
    [("current_state_str", JString currentState);
     ("event_str", JString (event_name event))].

Definition record_effect (e : Effect) (w : World) : World :=
  {| store := store w; trace := trace w ++ [e] |}.



Definition emptyButtonText : ButtonText :=
  {| normal := JString ""; processing := JString "" |}.

(** The stores as [createAddressViewModel], [createContactViewModel],
    [createEstimateViewModel] and [createFlowState] declare them. *)
Definition initialStore : Store :=
  {| addressViewModel :=
       {| inputValue := ""; matches := []; keyboardNavIndex := -1;
          selectedMatch := None; parcelDetails := None;
          address_submitButtonText := emptyButtonText;
          address_errorMessage := "" |};
     contactViewModel :=
       {| firstName := ""; lastName := ""; email := ""; phone := "";
          desiredTimeline := ""; contact_submitButtonText := emptyButtonText;
          contact_errorMessage := ""; isSubmitted := false; lotAnalysisStep := "" |};
     estimateViewModel :=
       {| jurisdiction_status := ""; estimate_low := None; estimate_high := None |};
     flowState := createFlowState |}.

Definition initialWorld : World :=
  {| store := flowState_init initialStore; trace := [] |}.


(** The states an address can be submitted from: those with a
    [SUBMIT_ADDRESS] transition. *)
Definition submittable (s : string) : Prop :=
  s = "default" \/ s = "addressFormError"
  \/ s = "modalAddressForm" \/ s = "modalAddressFormError".

(** The three things [submitAddress] looks for before it skips the
    contact form. *)
Definition allPresent (s : Store) : bool :=
  hasParcelDetails (addressViewModel s)
  && hasResults (estimateViewModel s)
  && isSubmitted (contactViewModel s).

(** A network whose parcel and estimate endpoints answer every request. *)
Definition answers (net : Network) : Prop :=
  (forall id, exists fields rest, parcel_response net id = Some (fields :: rest))
  /\ (forall payload, exists results, estimate_response net payload = Some results).

(** The parcel request for [id] fails, or its answer has no result. *)
Definition parcel_fetch_throws (net : Network) (id : option string) : Prop :=
  parcel_response net id = None \/ parcel_response net id = Some [].

(** The transitions fired and the parcel and estimate requests made. *)
Definition flow_effect (e : Effect) : bool :=
  match e with
  | Fired _ _ => true
  | RequestedParcelDetails _ => true
  | RequestedEstimateResults _ => true
  | RequestedAddressMatches _ => true
  | RequestedLead _ => true
  | _ => false
  end.

Definition addressErrorMessage : string :=
  "There was an error processing your address. Please try again, or contact us for help.".

(** What [fire] does, by the table's entry for the current state. *)
Definition fired (event : Event) (w : World) : Outcome unit :=
  let w' := record_effect (Fired (flowState (store w)) event) w in
  match defined_transition flowStateMachine (flowState (store w)) (event_name event) with
  | Some t => Returns tt {| store := set_flowState t (store w'); trace := trace w' |}
  | None =>
      match states flowStateMachine !! flowState (store w) with
      | Some _ =>
          Returns tt {| store := set_flowState (flowState (store w)) (store w');
                        trace := trace w' ++ [invalidTransitionRecord (flowState (store w)) event] |}
      | None => Throws "TypeError" w'
      end
  end.

(** *** Sample data *)

Definition sampleMatch (uuid street : string) (s : Q) : Match :=
  {| ll_uuid := Some uuid; address := Some street;
     context := Some "Sacramento, CA"; score := s |}.

Definition sampleFields : RegridFields :=
  {| parcelnumb := Some "001-0010-001"; county := Some "sacramento";
     fields_address := Some "123 MAIN ST"; scity := Some "SACRAMENTO";
     state2 := Some "CA"; szip := Some "95814" |}.

Definition sampleResults : EstimateResults :=
  {| results_jurisdiction_status := "active";
     results_estimate_low := Some (100000 # 1);
     results_estimate_high := Some (150000 # 1) |}.

(** A network that answers every request, with [found] for the typeahead. *)
Definition answeringNetwork (found : list Match) : Network :=
  {| typeahead_response := fun _ => Some found;
     parcel_response := fun _ => Some [sampleFields];
     estimate_response := fun _ => Some sampleResults;
     lead_response := fun _ => true |}.

(** A network on which every request fails. *)
Definition failingNetwork : Network :=
  {| typeahead_response := fun _ => None;
     parcel_response := fun _ => None;
     estimate_response := fun _ => None;
     lead_response := fun _ => false |}.

(** The store once an address went through the whole flow: parcel,
    estimate and contact submission are all there. *)
Definition completedStore : Store :=
  {| addressViewModel :=
       {| inputValue := "123 Main St, Sacramento, CA"; matches := [];
          keyboardNavIndex := -1;
          selectedMatch := Some (sampleMatch "uuid-1" "123 Main St" (9 # 1));
          parcelDetails :=
            Some {| apn := Some "001-0010-001"; jurisdiction := Some "sacramento";
                    parcel_address := Some "123 MAIN ST"; city := Some "SACRAMENTO";
                    state := Some "CA"; zip := Some "95814" |};
          address_submitButtonText := emptyButtonText;
          address_errorMessage := "" |};
     contactViewModel :=
       {| firstName := "Ada"; lastName := "Lovelace"; email := "ada@example.com";
          phone := "555-0100"; desiredTimeline := "asap";
          contact_submitButtonText := emptyButtonText;
          contact_errorMessage := ""; isSubmitted := true;
          lotAnalysisStep := "Checking lot shape & size..." |};
     estimateViewModel :=
       {| jurisdiction_status := "active";
          estimate_low := Some (100000 # 1); estimate_high := Some (150000 # 1) |};
     flowState := "default" |}.

(** The run of [submitAddress] that skips the contact form: only the two
    transitions happen, no request is made. *)
Definition skips_contact (net : Network) (options : Options) (w : World) : Prop :=
  exists w' processing delta,
    submitAddress net options w = Returns tt w'
    /\ defined_transition flowStateMachine (flowState (store w)) (event_name SUBMIT_ADDRESS)
       = Some processing
    /\ trace w' = trace w ++ delta
    /\ List.filter flow_effect delta
       = [Fired (flowState (store w)) SUBMIT_ADDRESS; Fired processing SKIP_CONTACT]
    /\ flowState (store w') = "estimateResults".

(** The run of [submitAddress] that fetches what is missing, the parcel
    details before the estimate, and then fires [SUCCESS]. *)
Definition fetches_then_succeeds (net : Network) (options : Options) (w : World) : Prop :=
  exists w' processing delta,
    submitAddress net options w = Returns tt w'
    /\ defined_transition flowStateMachine (flowState (store w)) (event_name SUBMIT_ADDRESS)
       = Some processing
    /\ trace w' = trace w ++ delta
    /\ List.filter flow_effect delta
       = [Fired (flowState (store w)) SUBMIT_ADDRESS]
         ++ (if hasParcelDetails (addressViewModel (store w)) then []
             else [RequestedParcelDetails
                     (selected_field ll_uuid (addressViewModel (store w)))])
         ++ (if hasResults (estimateViewModel (store w)) then []
             else [RequestedEstimateResults
                     (fetchEstimatePayload options (addressViewModel (store w')))])
         ++ [Fired processing SUCCESS]
    /\ flowState (store w') = "contactForm".

(** The run of [submitAddress] in which the parcel request is the last
    request: the error message is set and [ERROR] fired. *)
Definition fails_on_parcel (net : Network) (options : Options) (w : World) : Prop :=
  exists w' processing delta,
    submitAddress net options w = Returns tt w'
    /\ defined_transition flowStateMachine (flowState (store w)) (event_name SUBMIT_ADDRESS)
       = Some processing
    /\ trace w' = trace w ++ delta
    /\ List.filter flow_effect delta
       = [Fired (flowState (store w)) SUBMIT_ADDRESS;
          RequestedParcelDetails (selected_field ll_uuid (addressViewModel (store w)));
          Fired processing ERROR]
    /\ address_errorMessage (addressViewModel (store w')) = addressErrorMessage
    /\ defined_transition flowStateMachine processing (event_name ERROR)
       = Some (flowState (store w'))
    /\ (processing = "addressFormProcessing" -> flowState (store w') = "addressFormError").

(** [handleMatchSelection(match)] followed by [handleInput()]. *)
Definition select_then_input (net : Network) (m : Match) : M unit :=
  do _ <- handleMatchSelection (Some m);
  handleInput net.

(** Nothing of an earlier address is left in the store. *)
Definition invalidated (s : Store) : Prop :=
  isSelected (addressViewModel s) = false
  /\ hasParcelDetails (addressViewModel s) = false
  /\ hasResults (estimateViewModel s) = false
  /\ isSubmitted (contactViewModel s) = false.

(** The store a computation ends with satisfies [P], whether it returns or
    throws. *)
Definition ends_in (P : Store -> Prop) (r : Outcome unit) : Prop :=
  match r with
  | Returns _ w' => P (store w')
  | Throws _ w' => P (store w')
  | Faults _ _ => False
  end.

(** *** Keyboard navigation *)

(** The world after an intercepted key moved the keyboard index to [i]. *)
Definition navigated (i : Z) (w : World) : World :=
  {| store := set_address (with_keyboardNavIndex i) (store w);
     trace := trace w ++ [Intercepted] |}.

(** The world after an intercepted [Enter] selected [m]. *)
Definition selected_by_keyboard (m : Match) (w : World) : Outcome unit :=
  handleMatchSelection (Some m) (record_effect Intercepted w).

Definition fiveMatches : list Match :=
  [sampleMatch "uuid-1" "1 Elm St" (9 # 1);
   sampleMatch "uuid-2" "12 Elm St" (8 # 1);
   sampleMatch "uuid-3" "123 Elm St" (7 # 1);
   sampleMatch "uuid-4" "124 Elm St" (6 # 1);
   sampleMatch "uuid-5" "125 Elm St" (5 # 1)].

Definition twoMatches : list Match :=
  [sampleMatch "uuid-3" "123 Elm St" (7 # 1);
   sampleMatch "uuid-6" "123 Elm Street" (6 # 1)].

(** The user types and gets five matches, presses [ArrowUp], and goes on
    typing, which leaves two matches. *)
Definition typeUpType : M unit :=
  do _ <- handleInput (answeringNetwork fiveMatches);
  do _ <- handleKeydown "ArrowUp";
  handleInput (answeringNetwork twoMatches).

Definition staleIndexWorld : World :=
  world_after (typeUpType initialWorld) initialWorld.

(** [ArrowDown] as the specification words it: from index [n - 1] to
    [-1], and otherwise one further. *)
Definition arrowDown_as_specified : Prop :=
  forall w : World,
    let this := addressViewModel (store w) in
    isSelected this = false ->
    matches this <> [] ->
    exists w',
      handleKeydown "ArrowDown" w = Returns tt w'
      /\ keyboardNavIndex (addressViewModel (store w'))
         = (if (keyboardNavIndex this =? Z.of_nat (length (matches this)) - 1)%Z
            then -1 else keyboardNavIndex this + 1)%Z.

(** Three matches on display, none highlighted. *)
Definition threeShownWorld : World :=
  {| store := set_address (with_matches (firstn 3 fiveMatches)) (store initialWorld);
     trace := [] |}.

(** *** Closing the modal *)

(** The world after [EXIT] took the flow back to [default] and the close
    was tracked. *)
Definition exited (w : World) : World :=
  {| store := set_flowState "default" (store w);
     trace := trace w ++ [Fired (flowState (store w)) EXIT;
                          Tracked "Get Offer Modal Closed" []] |}.

Definition asked (w : World) : World :=
  record_effect (AskedConfirmation Home.exitConfirmation) w.

(** A contact form with a name typed in. *)
Definition typingContactWorld : World :=
  {| store :=
       set_flowState "contactForm"
         (set_contact (fun c =>
            {| firstName := "Ada"; lastName := lastName c; email := email c;
               phone := phone c; desiredTimeline := desiredTimeline c;
               contact_submitButtonText := contact_submitButtonText c;
               contact_errorMessage := contact_errorMessage c;
               isSubmitted := isSubmitted c; lotAnalysisStep := lotAnalysisStep c |})
            (store initialWorld));
     trace := [] |}.

(** *** Ranked matches *)

Definition starts_with_digit (s : string) : Prop :=
  exists c rest, s = String c rest /\ is_digit c = true.

Definition ends_with_digit (s : string) : Prop :=
  exists init c, s = String.append init (String c EmptyString) /\ is_digit c = true.

(** What the filter leaves of a typeahead entry. *)
Definition well_formed_match (m : Match) : Prop :=
  exists uuid street,
    ll_uuid m = Some uuid /\ uuid <> ""
    /\ address m = Some street
    /\ starts_with_digit street /\ ~ ends_with_digit street.

(** [a] does not rank below [b]. *)
Definition ranks_before (a b : Match) : Prop := (score b <= score a)%Q.

(** *** Schedules of a contact submission *)

(** The events of the event loop, as a schedule one can run. *)
Inductive Action :=
| Elapse (d : nat)
| TimerFires
| LeadSettles
| Resumes.

(** One event of a schedule; [None] when the event cannot happen. *)
Definition act (net : Network) (payload : LeadPayload) (a : Action) (t : Submission)
  : option Submission :=
  match a with
  | Elapse d => Some (elapse d t)
  | TimerFires =>
      match timer_due t with
      | Some due => if (due <=? now t)%nat then Some (sequence_turn t) else None
      | None => None
      end
  | LeadSettles =>
      match lead t with
      | Pending =>
          Some (settle_lead (if lead_response net payload then Fulfilled else Rejected) t)
      | _ => None
      end
  | Resumes =>
      if resumed t then None
      else
        match lead t, sequence t with
        | Rejected, _ => Some (resume submitContact_rejected t)
        | Fulfilled, Fulfilled =>
            Some (resume (try_catch submitContact_fulfilled submitContact_rejected) t)
        | _, _ => None
        end
  end.

Fixpoint schedule (net : Network) (payload : LeadPayload) (l : list Action)
    (t : Submission) : option Submission :=
  match l with
  | [] => Some t
  | a :: l' =>
      match act net payload a t with
      | Some t' => schedule net payload l' t'
      | None => None
      end
  end.

(** [SUCCESS] is among the transitions fired in [tr]. *)
Definition fired_success (tr : Trace) : Prop :=
  exists s, In (Fired s SUCCESS) tr.

(** Both activities of the submission are complete: the four steps were
    displayed, 1500 ms apart, and the lead request succeeded. *)
Definition joined (net : Network) (payload : LeadPayload) (t : Submission) : Prop :=
  sequence t = Fulfilled
  /\ lead t = Fulfilled
  /\ lead_response net payload = true
  /\ steps_left t = []
  /\ length analysisSteps * analysisStepDelay <= now t
  /\ resumed t = true.

(** [submitContact] has started both activities and is waiting for them. *)
Definition started_both (payload : LeadPayload) (t : Submission) : Prop :=
  sequence t = Pending
  /\ lead t = Pending
  /\ resumed t = false
  /\ now t = 0
  /\ timer_due t = Some analysisStepDelay
  /\ lotAnalysisStep (contactViewModel (store (world t))) = "Checking flood zones..."
  /\ exists tr, trace (world t) = tr ++ [RequestedLead payload].

(** The schedule in which the lead request succeeds after 2 s, well
    before the step sequence is through. *)
Definition leadThenSequence : list Action :=
  [Elapse 1500; TimerFires; Elapse 500; LeadSettles; Elapse 1000; TimerFires;
   Elapse 1500; TimerFires; Elapse 1503; TimerFires; Resumes].

(** What holds of a submission at every moment after [submitContact]
    suspended in [t0]: the flag is up, or [SUCCESS] was fired, only once
    both promises are fulfilled and [submitContact] has resumed; and the
    step sequence cannot be through before four delays have elapsed. *)
Definition submission_invariant (net : Network) (payload : LeadPayload)
    (t0 t : Submission) : Prop :=
  (exists delta,
      trace (world t) = trace (world t0) ++ delta
      /\ (isSubmitted (contactViewModel (store (world t))) = true \/ fired_success delta ->
          sequence t = Fulfilled /\ lead t = Fulfilled /\ resumed t = true))
  /\ (lead t = Fulfilled -> lead_response net payload = true)
  /\ match sequence t with
     | Fulfilled =>
         timer_due t = None /\ steps_left t = []
         /\ length analysisSteps * analysisStepDelay <= now t
     | Pending =>
         exists due,
           timer_due t = Some due
           /\ length analysisSteps * analysisStepDelay
              <= due + length (steps_left t) * analysisStepDelay
     | Rejected => False
     end.

(** * Further definitions *)

(** ** The states of the table *)

(** The keys of [states], in the order of the source. *)
Definition table_states : list string :=
  ["default"; "addressFormProcessing"; "addressFormError";
   "modalAddressForm"; "modalAddressFormProcessing"; "modalAddressFormError";
   "contactForm"; "contactFormProcessing"; "contactFormError";
   "estimateResults"; "scheduleConsultation"; "requestedCommunity"].

Definition in_table (s : string) : Prop := In s table_states.

(** The keys a machine's table really has. *)
Definition table_keys (m : FlowStateMachine) : list string :=
  List.map fst (map_to_list (states m)).

Definition string_in (s : string) (l : list string) : bool :=
  existsb (String.eqb s) l.

(** Firing a sequence of events, one [fire] after the other. *)
Fixpoint fire_all (events : list Event) : M unit :=
  match events with
  | [] => ret tt
  | event :: rest => do _ <- fire event; fire_all rest
  end.

(** The state a sequence of events leads to along the table's entries;
    [None] when one of them has no entry. *)
Fixpoint follow (s : string) (events : list Event) : option string :=
  match events with
  | [] => Some s
  | event :: rest =>
      match defined_transition flowStateMachine s (event_name event) with
      | Some t => follow t rest
      | None => None
      end
  end.

(** The [Fired] entries of a run along [events] from [s]. *)
Fixpoint firings (s : string) (events : list Event) : Trace :=
  match events with
  | [] => []
  | event :: rest =>
      Fired s event ::
      match defined_transition flowStateMachine s (event_name event) with
      | Some t => firings t rest
      | None => []
      end
  end.

(** Two stores differ in the flow state at most. *)
Definition same_models (s s' : Store) : Prop :=
  addressViewModel s' = addressViewModel s
  /\ contactViewModel s' = contactViewModel s
  /\ estimateViewModel s' = estimateViewModel s.

(** The world after an event that has no transition in the current state
    was fired and [trackEvent] was called with [record]. *)
Definition refused (event : Event) (record : Effect) (w : World) : World :=
  {| store := store w;
     trace := trace w ++ [Fired (flowState (store w)) event;
                          invalidTransitionRecord (flowState (store w)) event;
                          record] |}.

(** The world after [event] took the flow to [t] and [trackEvent] was
    called with [record]. *)
Definition moved (event : Event) (t : string) (record : Effect) (w : World) : World :=
  {| store := set_flowState t (store w);
     trace := trace w ++ [Fired (flowState (store w)) event; record] |}.

(** [handleModalFlowStart()] followed by [handleModalClose()]. *)
Definition open_then_close : M unit :=
  do _ <- handleModalFlowStart;
  handleModalClose.

(** ** Changing the address input *)

(** The store once [handleInput] has cleared what an earlier address left. *)
Definition cleared (s : Store) : Store :=
  let s1 := if isSelected (addressViewModel s)
            then set_address (with_selectedMatch None) s else s in
  let s2 := if hasParcelDetails (addressViewModel s1)
            then set_address (with_parcelDetails None) s1 else s1 in
  let s3 := if hasResults (estimateViewModel s2)
            then set_estimate estimate_init s2 else s2 in
  if isSubmitted (contactViewModel s3)
  then set_contact (with_isSubmitted false) s3 else s3.

Definition inputErrorMessage : string :=
  "There was an error finding your address. Please try again, or contact us for help.".

(** The states that have an [ERROR] transition. *)
Definition processing_states : list string :=
  ["addressFormProcessing"; "modalAddressFormProcessing"; "contactFormProcessing"].

(** Where [ERROR] leads from [s]: nowhere, unless [s] is processing. *)
Definition error_target (s : string) : string :=
  match defined_transition flowStateMachine s (event_name ERROR) with
  | Some t => t
  | None => s
  end.

(** ** Keys and selection *)

(** The typeahead list is on display: no match selected, some to show. *)
Definition showing (s : Store) : Prop :=
  isSelected (addressViewModel s) = false /\ matches (addressViewModel s) <> [].

(** Where the arrow keys take the keyboard index [i] of a list of [n]
    matches. *)
Definition index_up (n i : Z) : Z :=
  if (i <=? -1)%Z then (n - 1)%Z else (i - 1)%Z.

Definition index_down (n i : Z) : Z :=
  if (i >=? n - 1)%Z then (-1)%Z else (i + 1)%Z.

(** The index is [-1] or a position of the list. *)
Definition index_in_range (s : Store) : Prop :=
  (-1 <= keyboardNavIndex (addressViewModel s)
   < Z.of_nat (length (matches (addressViewModel s))))%Z.

(** Two keys, one after the other. *)
Definition press2 (key1 key2 : string) : M unit :=
  do _ <- handleKeydown key1;
  handleKeydown key2.

(** The store after [handleMatchSelection(m)]. *)
Definition selecting (m : Match) (s : Store) : Store :=
  set_address (fun a =>
    {| inputValue := String.append (js_to_string (address m))
                       (String.append ", " (js_to_string (context m)));
       matches := [];
       keyboardNavIndex := -1;
       selectedMatch := Some m;
       parcelDetails := parcelDetails a;
       address_submitButtonText := address_submitButtonText a;
       address_errorMessage := address_errorMessage a |}) s.

Definition selectionRecord (m : Match) : Effect :=
  Tracked "Address Selected"
    [("address_str", js_opt (address m));
     ("context_str", js_opt (context m));
     ("regrid_ll_uuid_str", js_opt (ll_uuid m))].

(** ** Handlers and the table *)

(** Run in a state of the table, [c] returns or throws, in a state of the
    table. *)
Definition keeps_table {A} (c : M A) : Prop :=
  forall w,
    in_table (flowState (store w)) ->
    match c w with
    | Returns _ w' => in_table (flowState (store w'))
    | Throws _ w' => in_table (flowState (store w'))
    | Faults _ _ => False
    end.

(** Run in a state of the table, [c] returns, in a state of the table. *)
Definition returns_in_table {A} (c : M A) : Prop :=
  forall w,
    in_table (flowState (store w)) ->
    exists a w', c w = Returns a w' /\ in_table (flowState (store w')).

(** ** Calls of the address form, one after the other *)

Inductive AddressCall :=
| HandleInput
| HandleKeydown (key : string)
| HandleMatchSelection (m : Match)
| HandleSubmit (options : Options)
| SubmitAddress (options : Options).

(** One call, with the network as it answers during that call. *)
Definition call (c : Network * AddressCall) : M unit :=
  match snd c with
  | HandleInput => handleInput (fst c)
  | HandleKeydown key => handleKeydown key
  | HandleMatchSelection m => handleMatchSelection (Some m)
  | HandleSubmit options => address_handleSubmit (fst c) options
  | SubmitAddress options => submitAddress (fst c) options
  end.

(** A later call is made only if the earlier ones returned. *)
Fixpoint calls (l : list (Network * AddressCall)) : M unit :=
  match l with
  | [] => ret tt
  | c :: l' => do _ <- call c; calls l'
  end.

(** The list is on display and the keyboard index, which is not [-1], is
    no position of it: [this.matches[this.keyboardNavIndex]] is
    [undefined]. *)
Definition enter_misses (s : Store) : Prop :=
  showing s
  /\ keyboardNavIndex (addressViewModel s) <> (-1)%Z
  /\ matches_at (matches (addressViewModel s)) (keyboardNavIndex (addressViewModel s))
     = None.

(** The call threw after it had stored [undefined] as [selectedMatch]. *)
Definition faults {A} (o : Outcome A) : Prop :=
  match o with
  | Faults _ _ => True
  | _ => False
  end.

(** ** What the ranking leaves out *)

(** The entries of a response the filter keeps. *)
Definition usable (data : list Match) : list Match :=
  List.filter keeps_match data.

(** The entries of [l] whose score is [q], in the order of [l]. *)
Definition scored (q : Q) (l : list Match) : list Match :=
  List.filter (fun m => Qeq_bool (score m) q) l.

(** ** Retrying an address submission *)

(** The parcel details [filterParcelDetails] takes from the fields of the
    first result. *)
Definition detailsOf (regridResultFields : RegridFields) : ParcelDetails :=
  {| apn := parcelnumb regridResultFields;
     jurisdiction := county regridResultFields;
     parcel_address := fields_address regridResultFields;
     city := scity regridResultFields;
     state := state2 regridResultFields;
     zip := szip regridResultFields |}.

(** The payload of the estimate request once [fields] have been fetched. *)
Definition payloadOf (options : Options) (fields : RegridFields) (w : World)
  : EstimatePayload :=
  fetchEstimatePayload options
    (with_parcelDetails (Some (detailsOf fields)) (addressViewModel (store w))).

(** The run of [submitAddress] in which the parcel request is answered
    with [fields] and the estimate request fails: the parcel details are
    kept, the error message is set and the form can be submitted again. *)
Definition fails_on_estimate (net : Network) (options : Options) (fields : RegridFields)
    (w : World) : Prop :=
  exists w' processing delta,
    submitAddress net options w = Returns tt w'
    /\ defined_transition flowStateMachine (flowState (store w)) (event_name SUBMIT_ADDRESS)
       = Some processing
    /\ trace w' = trace w ++ delta
    /\ List.filter flow_effect delta
       = [Fired (flowState (store w)) SUBMIT_ADDRESS;
          RequestedParcelDetails (selected_field ll_uuid (addressViewModel (store w)));
          RequestedEstimateResults (payloadOf options fields w);
          Fired processing ERROR]
    /\ parcelDetails (addressViewModel (store w')) = Some (detailsOf fields)
    /\ address_errorMessage (addressViewModel (store w')) = addressErrorMessage
    /\ estimateViewModel (store w') = estimateViewModel (store w)
    /\ submittable (flowState (store w')).

(** No effect of [delta] is a parcel request. *)
Definition no_parcel_request (delta : Trace) : Prop :=
  forall id, ~ In (RequestedParcelDetails id) delta.

(** A network whose parcel endpoint answers with [fields] and whose
    estimate endpoint always fails. *)
Definition estimateFailingNetwork (fields : RegridFields) : Network :=
  {| typeahead_response := fun _ => None;
     parcel_response := fun _ => Some [fields];
     estimate_response := fun _ => None;
     lead_response := fun _ => false |}.

(** ** How a contact submission ends *)

Definition contactErrorMessage : string :=
  "There was an error processing your info. Please try again, or contact us for help.".

(** The states in which [SUBMIT_CONTACT] has a transition. *)
Definition contact_submittable (s : string) : Prop :=
  s = "contactForm" \/ s = "contactFormError".

(** [submitContact], called in [w], is still at its [await] in [t]. *)
Definition waiting (w : World) (t : Submission) : Prop :=
  flowState (store (world t)) = "contactFormProcessing"
  /\ isSubmitted (contactViewModel (store (world t)))
     = isSubmitted (contactViewModel (store w))
  /\ contact_errorMessage (contactViewModel (store (world t))) = "".

(** [submitContact], called in [w], is through in [t]: with the results
    on display when the lead request succeeded, with the error message
    and the form to submit again when it failed. *)
Definition completed (net : Network) (payload : LeadPayload) (w : World) (t : Submission)
  : Prop :=
  if lead_response net payload
  then flowState (store (world t)) = "estimateResults"
       /\ isSubmitted (contactViewModel (store (world t))) = true
       /\ contact_errorMessage (contactViewModel (store (world t))) = ""
  else flowState (store (world t)) = "contactFormError"
       /\ isSubmitted (contactViewModel (store (world t)))
          = isSubmitted (contactViewModel (store w))
       /\ contact_errorMessage (contactViewModel (store (world t))) = contactErrorMessage.

(** What holds of a submission at every moment after [submitContact] was
    called in [w]. *)
Definition submission_outcome (net : Network) (payload : LeadPayload) (w : World)
    (t : Submission) : Prop :=
  addressViewModel (store (world t)) = addressViewModel (store w)
  /\ estimateViewModel (store (world t)) = estimateViewModel (store w)
  /\ (lead t = Fulfilled -> lead_response net payload = true)
  /\ (lead t = Rejected -> lead_response net payload = false)
  /\ if resumed t then completed net payload w t else waiting w t.

(** The schedule in which the lead request fails after 2 s and
    [submitContact] resumes at once. *)
Definition leadFails : list Action :=
  [Elapse 1500; TimerFires; Elapse 500; LeadSettles; Resumes; Elapse 1000; TimerFires].

(** ** The steps of the lot analysis *)

(** The steps displayed so far are the first ones of [analysisSteps], the
    last of them is on display, and none was displayed before the ones
    before it had their 1500 ms. *)
Definition displayed_in_order (t : Submission) : Prop :=
  exists shown,
    analysisSteps = shown ++ steps_left t
    /\ shown <> []
    /\ lotAnalysisStep (contactViewModel (store (world t))) = List.last shown ""
    /\ length shown * analysisStepDelay <= now t + analysisStepDelay.

(** [displayed_in_order] with what the timer and the promise of the
    sequence have to be for it to last. *)
Definition sequencing (t : Submission) : Prop :=
  exists shown,
    (analysisSteps = shown ++ steps_left t
     /\ shown <> []
     /\ lotAnalysisStep (contactViewModel (store (world t))) = List.last shown ""
     /\ length shown * analysisStepDelay <= now t + analysisStepDelay)
    /\ match sequence t with
       | Pending =>
           exists due, timer_due t = Some due /\ length shown * analysisStepDelay <= due
       | Fulfilled => timer_due t = None /\ steps_left t = []
       | Rejected => False
       end.

(** ** Step sequences of earlier submissions

    A submission whose lead request is rejected resumes in its [catch]
    block at once; the loop of its [sequenceLotAnalysisSteps] goes on, timer
    after timer, and writes its steps into the same view-model while the
    form is submitted again. *)

Record Loop := {
  loop_left : list string;   (* steps the loop has not displayed yet *)
  loop_due : nat;            (* its timer: the time before which it cannot fire *)
}.

(** A submission with the loops of earlier submissions that still run. *)
Record Resubmission := {
  current : Submission;
  earlier : list Loop;
}.

(** A loop of an earlier submission displays [step]. *)
Definition shown_by_earlier (step : string) (t : Submission) : Submission :=
  {| world := display step (world t); now := now t;
     steps_left := steps_left t; timer_due := timer_due t;
     sequence := sequence t; lead := lead t; resumed := resumed t |}.

(** The events of the event loop: those of the submission, and the timers
    of the earlier loops. *)
Inductive step_all (net : Network) (payload : LeadPayload)
  : Resubmission -> Resubmission -> Prop :=
| step_current t t' ls :
    step net payload t t' ->
    step_all net payload {| current := t; earlier := ls |}
                         {| current := t'; earlier := ls |}
| step_earlier_timer t before l after next rest :
    loop_left l = next :: rest ->
    loop_due l <= now t ->
    step_all net payload
      {| current := t; earlier := before ++ l :: after |}
      {| current := shown_by_earlier next t;
         earlier := before
                    ++ {| loop_left := rest; loop_due := now t + analysisStepDelay |}
                    :: after |}
| step_earlier_end t before l after :
    loop_left l = [] ->
    loop_due l <= now t ->
    step_all net payload
      {| current := t; earlier := before ++ l :: after |}
      {| current := t; earlier := before ++ after |}.

Inductive steps_all (net : Network) (payload : LeadPayload)
  : Resubmission -> Resubmission -> Prop :=
| steps_all_refl r : steps_all net payload r r
| steps_all_step r1 r2 r3 :
    steps_all net payload r1 r2 -> step_all net payload r2 r3 ->
    steps_all net payload r1 r3.

(** The contact form after a failed submission. *)
Definition retryWorld : World :=
  {| store := set_flowState "contactFormError" (store typingContactWorld); trace := [] |}.

(** The loop of a submission that failed 1000 ms before the form is
    submitted again: two steps displayed, the next timer 500 ms away. *)
Definition leftoverLoop : Loop :=
  {| loop_left := ["Checking zoning district..."; "Checking lot shape & size..."];
     loop_due := 500 |}.

(** ** The personalization view-model *)

(** [String.prototype.toLowerCase] among the one-byte characters: the
    letters [A]-[Z] and the capital letters of Latin-1 have a lower case. *)
Definition to_lower_char (c : ascii) : ascii :=
  let n := nat_of_ascii c in
  if ((65 <=? n)%nat && (n <=? 90)%nat)
     || ((192 <=? n)%nat && (n <=? 222)%nat && negb (n =? 215)%nat)
  then ascii_of_nat (n + 32)
  else c.

Fixpoint toLowerCase (s : string) : string :=
  match s with
  | EmptyString => EmptyString
  | String c rest => String (to_lower_char c) (toLowerCase rest)
  end.

(** What reading a property of an object literal gives: a property of its
    own, one inherited from [Object.prototype], or [undefined]. *)
Inductive Property :=
| Own (value : string)
| Inherited (key : string)
| Absent.

Definition sacramentoCities : list string :=
  ["auburn"; "cedar flat"; "granite bay"; "lincoln"; "loomis"; "meadow vista";
   "newcastle"; "north auburn"; "penryn"; "rocklin"; "roseville"; "sheridan";
   "tahoma"; "antelope"; "arden-arcade"; "carmichael"; "citrus heights"; "clay";
   "elk grove"; "elverta"; "fair oaks"; "florin"; "folsom"; "foothill farms";
   "franklin"; "freeport"; "fruitridge pocket"; "galt"; "gold river"; "herald";
   "la riviera"; "lemon hill"; "mather"; "mcclellan park"; "north highlands";
   "orangevale"; "parkway"; "rancho cordova"; "rancho murieta"; "rio linda";
   "rosemont"; "sacramento"; "vineyard"; "walnut grove"; "wilton"; "davis";
   "dunnigan"; "el macero"; "esparto"; "guinda"; "monument hills"; "rumsey";
   "tancred"; "west sacramento"; "winters"; "woodland"].

(** [getMarketForCity(city)]: [None] is [null]. *)
Definition getMarketForCity (city : JsVal) : option string :=
  match city with
  | JString city =>
      if String.eqb city "" then None
      else
        let normalizedCity := trim (toLowerCase city) in
        if includes sacramentoCities normalizedCity then Some "sacramento" else None
  | _ => None
  end.

(** [marketPhoneNumbers[key]] *)
Definition marketPhoneNumbers (key : string) : Property :=
  if String.eqb key "sacramento" then Own "(916) 619-1442"
  else if includes objectPrototypeKeys key then Inherited key
  else Absent.

(** [getBcPhoneNumberForMarket(market)]: [Absent] is [null]. *)
Definition getBcPhoneNumberForMarket (market : JsVal) : Property :=
  match market with
  | JString market =>
      if String.eqb market "" then Absent
      else
        let normalizedMarket := trim (toLowerCase market) in
        marketPhoneNumbers normalizedMarket
  | _ => Absent
  end.

(** A string or [null]. *)
Definition js_null (o : option string) : JsVal :=
  match o with Some s => JString s | None => JNull end.

Definition defaultPhoneNumber : string := "(415) 941-5861".

(** [getBcPhoneNumberForCity(city)] *)
Definition getBcPhoneNumberForCity (city : JsVal) : Property :=
  match city with
  | JString city =>
      if String.eqb city "" then Own defaultPhoneNumber
      else
        let normalizedCity := trim (toLowerCase city) in
        let market := getMarketForCity (JString normalizedCity) in
        let marketSpecificPhoneNumber := getBcPhoneNumberForMarket (js_null market) in
        match marketSpecificPhoneNumber with
        | Absent => Own defaultPhoneNumber
        | found => found
        end
  | _ => Own defaultPhoneNumber
  end.

(** The getters of the view-model, [userGeo.city] given. *)
Definition market (city : JsVal) : option string := getMarketForCity city.

Definition bcPhoneNumber (city : JsVal) : Property := getBcPhoneNumberForCity city.

(** [replace(/\D/g, "")] *)
Fixpoint digits_of (s : string) : string :=
  match s with
  | EmptyString => EmptyString
  | String c rest => if is_digit c then String c (digits_of rest) else digits_of rest
  end.

(** [bcPhoneNumberHref]: [None] when [bcPhoneNumber] has no [replace]
    method to call. *)
Definition bcPhoneNumberHref (city : JsVal) : option string :=
  match bcPhoneNumber city with
  | Own number => Some (String.append "tel:+1" (digits_of number))
  | _ => None
  end.

(** The market has a phone number of its own. *)
Definition local_number (city : JsVal) : string :=
  match getMarketForCity city with
  | Some _ => "(916) 619-1442"
  | None => defaultPhoneNumber
  end.

Fixpoint all_digits (s : string) : bool :=
  match s with
  | EmptyString => true
  | String c rest => is_digit c && all_digits rest
  end.

(** No white space at the start. *)
Definition clean_start (s : string) : Prop :=
  match s with
  | EmptyString => True
  | String c _ => is_white_space c = false
  end.

(** * Properties *)

(** ** The transition table *)

Lemma table_edges_spec m s k t :
  In (s, k, t) (table_edges m) <-> defined_transition m s k = Some t.
Proof.
  unfold table_edges, defined_transition. rewrite in_flat_map. split.
  - intros [[s' def] [Hs Hk]]. apply list_elem_of_In, elem_of_map_to_list in Hs.
    apply in_map_iff in Hk as [[k' tr] [Heq Hk]]. cbn in Heq.
    apply list_elem_of_In, elem_of_map_to_list in Hk.
    cbn in Hs, Hk. inversion Heq; subst. rewrite Hs, Hk. reflexivity.
  - destruct (states m !! s) as [def|] eqn:Hs; [|discriminate].
    destruct (transitions def !! k) as [tr|] eqn:Hk; [|discriminate].
    intros [= <-]. exists (s, def). split.
    + apply list_elem_of_In, elem_of_map_to_list. exact Hs.
    + apply in_map_iff. exists (k, tr). split; [reflexivity|].
      apply list_elem_of_In, elem_of_map_to_list. exact Hk.
Qed.

Lemma edge_eqb_eq a b : edge_eqb a b = true -> a = b.
Proof.
  destruct a as [[a1 a2] a3], b as [[b1 b2] b3]. unfold edge_eqb. cbn.
  rewrite !andb_true_iff, !String.eqb_eq. intros [[-> ->] ->]. reflexivity.
Qed.

Lemma included_incl l1 l2 : included l1 l2 = true -> incl l1 l2.
Proof.
  unfold included. rewrite forallb_forall. intros H x Hx.
  apply H in Hx. apply existsb_exists in Hx as [y [Hy Heq]].
  apply edge_eqb_eq in Heq. subst. exact Hy.
Qed.

Lemma table_is_reference_graph s k t :
  defined_transition flowStateMachine s k = Some t <-> In (s, k, t) reference_edges.
Proof.
  assert (Hsub : included (table_edges flowStateMachine) reference_edges = true)
    by (vm_compute; reflexivity).
  assert (Hsup : included reference_edges (table_edges flowStateMachine) = true)
    by (vm_compute; reflexivity).
  rewrite <- table_edges_spec. split; intros Hin.
  - exact (included_incl _ _ Hsub _ Hin).
  - exact (included_incl _ _ Hsup _ Hin).
Qed.

Lemma reference_edges_graph s k t :
  In (s, k, t) reference_edges <->
  exists e, k = event_name e /\ In (s, e, t) reference_graph.
Proof.
  unfold reference_edges. rewrite in_map_iff. split.
  - intros [[[s' e] t'] [Heq Hin]]. cbn in Heq. inversion Heq; subst. eauto.
  - intros [e [-> Hin]]. exists (s, e, t). split; [reflexivity | exact Hin].
Qed.

Lemma transition_defined m s e t w :
  defined_transition m s (event_name e) = Some t ->
  transition m s e w = Returns t w.
Proof.
  unfold defined_transition, transition.
  destruct (states m !! s) as [def|]; [|discriminate].
  destruct (transitions def !! event_name e) as [tr|]; [|discriminate].
  intros [= <-]. reflexivity.
Qed.

(** [transition] on the nine events the program fires: for a state of the
    table and an event the state has no transition for, it returns the
    state it was given, hands exactly one record with the state and the
    event to [trackEvent], and does not throw; for a state that is no key
    of the table the call throws. *)
Theorem transition_invalid_event_unknown_state :
  forall (currentState : string) (event : Event) (w : World),
    (forall def,
        states flowStateMachine !! currentState = Some def ->
        transitions def !! event_name event = None ->
        transition flowStateMachine currentState event w
        = Returns currentState (record_effect (invalidTransitionRecord currentState event) w))
    /\ (states flowStateMachine !! currentState = None ->
        exists error, transition flowStateMachine currentState event w = Throws error w).
Proof.
  intros currentState event w. split.
  - intros def Hs He. unfold transition. rewrite Hs, He. reflexivity.
  - intros Hs. unfold transition. rewrite Hs. exists "TypeError". reflexivity.
Qed.

Lemma transition_invalid_event_unknown_state_witness :
  transition flowStateMachine "default" EXIT initialWorld
  = Returns "default" (record_effect (invalidTransitionRecord "default" EXIT) initialWorld)
  /\ exists error,
      transition flowStateMachine "" EXIT initialWorld = Throws error initialWorld.
Proof.
  destruct (transition_invalid_event_unknown_state "default" EXIT initialWorld) as [Hinvalid _].
  destruct (transition_invalid_event_unknown_state "" EXIT initialWorld) as [_ Hunknown].
  split.
  - destruct (states flowStateMachine !! "default") as [def|] eqn:Hs.
    + apply (Hinvalid def); [reflexivity|].
      vm_compute in Hs. injection Hs as <-. vm_compute. reflexivity.
    + vm_compute in Hs. discriminate Hs.
  - apply Hunknown. vm_compute. reflexivity.
Defined.

(** On the name of an event, [AnyEvent.transition] is [transition]. *)
Lemma transition_of_event (m : FlowStateMachine) (currentState : string) (event : Event) :
  AnyEvent.transition m currentState (event_name event)
  = do destinationState <- transition m currentState event;
    ret (Some destinationState).
Proof.
  unfold AnyEvent.transition, transition.
  destruct (states m !! currentState) as [def|]; [|reflexivity].
  destruct (transitions def !! event_name event) as [t|]; [reflexivity|].
  destruct event; reflexivity.
Qed.




(** C2. The table is the reference graph: [transition] takes every listed
    edge to its target, the table defines no other transition, the initial
    state is [default], every [EXIT] the table defines leads to [default],
    and [default] has no [EXIT]. *)
Theorem table_realizes_reference_graph :
  (forall s e t w,
      In (s, e, t) reference_graph ->
      transition flowStateMachine s e w = Returns t w)
  /\ (forall s k t,
         defined_transition flowStateMachine s k = Some t <->
         exists e, k = event_name e /\ In (s, e, t) reference_graph)
  /\ defaultState flowStateMachine = "default"
  /\ flowState (store initialWorld) = "default"
  /\ (forall s t,
         defined_transition flowStateMachine s (event_name EXIT) = Some t ->
         t = "default")
  /\ defined_transition flowStateMachine "default" (event_name EXIT) = None.
Proof.
  assert (Hgraph : forall s k t,
             defined_transition flowStateMachine s k = Some t <->
             exists e, k = event_name e /\ In (s, e, t) reference_graph).
  { intros s k t. rewrite table_is_reference_graph. apply reference_edges_graph. }
  split; [|split; [exact Hgraph | split; [reflexivity | split; [reflexivity | split]]]].
  - intros s e t w Hin. apply transition_defined. apply Hgraph. eauto.
  - intros s t Hexit. apply Hgraph in Hexit as [e [Hname Hin]].
    destruct e; try discriminate Hname.
    cbn in Hin. repeat (destruct Hin as [Hin | Hin]; [congruence|]). contradiction.
  - vm_compute. reflexivity.
Qed.

(** ** Running a handler step by step *)

Lemma bind_get {B} (k : Store -> M B) w : bind get k w = k (store w) w.
Proof. reflexivity. Qed.

Lemma bind_ret {A B} (a : A) (k : A -> M B) w : bind (ret a) k w = k a w.
Proof. reflexivity. Qed.

Lemma bind_emit {B} e (k : unit -> M B) w :
  bind (emit e) k w = k tt {| store := store w; trace := trace w ++ [e] |}.
Proof. reflexivity. Qed.

Lemma bind_trackEvent {B} n p (k : unit -> M B) w :
  bind (trackEvent n p) k w = k tt {| store := store w; trace := trace w ++ [Tracked n p] |}.
Proof. reflexivity. Qed.

Lemma bind_modify {B} f (k : unit -> M B) w :
  bind (modify f) k w = k tt {| store := f (store w); trace := trace w |}.
Proof. reflexivity. Qed.

Lemma bind_throw {A B} e (k : A -> M B) w : bind (throw e) k w = Throws e w.
Proof. reflexivity. Qed.

Lemma bind_assoc {A B C} (c : M A) (f : A -> M B) (k : B -> M C) w :
  bind (bind c f) k w = bind c (fun a => bind (f a) k) w.
Proof. unfold bind. destruct (c w); reflexivity. Qed.

Lemma fire_fired event w : fire event w = fired event w.
Proof.
  unfold fire, fired, defined_transition, transition, record_effect.
  rewrite bind_get, bind_emit. unfold bind. cbn [store trace].
  destruct (states flowStateMachine !! flowState (store w)) as [def|]; [|reflexivity].
  destruct (transitions def !! event_name event); reflexivity.
Qed.

Lemma bind_fire {B} event (k : unit -> M B) w :
  bind (fire event) k w =
  match fired event w with
  | Returns a w' => k a w'
  | Throws e w' => Throws e w'
  | Faults e tr => Faults e tr
  end.
Proof. unfold bind. rewrite fire_fired. reflexivity. Qed.

Ltac string_literal s :=
  lazymatch s with
  | EmptyString => idtac
  | String _ ?rest => string_literal rest
  end.

(** Look up the table at a state and an event that are both known. *)
Ltac eval_table :=
  repeat match goal with
  | |- context [defined_transition flowStateMachine ?s ?k] =>
      string_literal s;
      let v := eval vm_compute in (defined_transition flowStateMachine s k) in
      lazymatch v with
      | Some _ => idtac
      | None => idtac
      end;
      replace (defined_transition flowStateMachine s k) with v by (vm_compute; reflexivity)
  | |- context [states flowStateMachine !! ?s] =>
      string_literal s;
      let v := eval vm_compute in (states flowStateMachine !! s) in
      lazymatch v with
      | Some _ =>
          let d := fresh "def" in
          let E := fresh "Hdef" in
          destruct (states flowStateMachine !! s) as [d|] eqn:E;
          [ clear E | vm_compute in E; discriminate E ]
      | None =>
          replace (states flowStateMachine !! s) with v by (vm_compute; reflexivity)
      end
  end.

Ltac store_simpl :=
  cbn [store trace flowState addressViewModel contactViewModel estimateViewModel
       set_flowState set_address set_contact set_estimate record_effect
       inputValue matches keyboardNavIndex selectedMatch parcelDetails
       address_submitButtonText address_errorMessage
       with_inputValue with_matches with_keyboardNavIndex with_selectedMatch
       with_parcelDetails with_address_errorMessage
       firstName lastName email phone desiredTimeline contact_submitButtonText
       contact_errorMessage isSubmitted lotAnalysisStep
       with_contact_errorMessage with_isSubmitted with_lotAnalysisStep
       jurisdiction_status estimate_low estimate_high estimate_init].

Ltac store_simpl_in H :=
  cbn [store trace flowState addressViewModel contactViewModel estimateViewModel
       set_flowState set_address set_contact set_estimate record_effect
       inputValue matches keyboardNavIndex selectedMatch parcelDetails
       address_submitButtonText address_errorMessage
       with_inputValue with_matches with_keyboardNavIndex with_selectedMatch
       with_parcelDetails with_address_errorMessage
       firstName lastName email phone desiredTimeline contact_submitButtonText
       contact_errorMessage isSubmitted lotAnalysisStep
       with_contact_errorMessage with_isSubmitted with_lotAnalysisStep
       jurisdiction_status estimate_low estimate_high estimate_init] in H.

Ltac mstep :=
  first
    [ rewrite bind_get | rewrite bind_ret | rewrite bind_emit | rewrite bind_trackEvent
    | rewrite bind_modify | rewrite bind_throw | rewrite bind_assoc
    | rewrite bind_fire; unfold fired; store_simpl; eval_table; cbv iota beta
    | rewrite fire_fired; unfold fired; store_simpl; eval_table; cbv iota beta ];
  store_simpl.

Ltac msteps := repeat mstep.

(** ** Submitting an address *)

Lemma submittable_processing s :
  submittable s ->
  (defined_transition flowStateMachine s "SUBMIT_ADDRESS" = Some "addressFormProcessing"
   /\ (s = "default" \/ s = "addressFormError"))
  \/ (defined_transition flowStateMachine s "SUBMIT_ADDRESS" = Some "modalAddressFormProcessing"
      /\ (s = "modalAddressForm" \/ s = "modalAddressFormError")).
Proof.
  intros [-> | [-> | [-> | ->]]];
    [left | left | right | right]; (split; [vm_compute; reflexivity | auto]).
Qed.

(** C6. While the flow is in an address-processing state [submitAddress]
    returns at once, and while it is in [contactFormProcessing]
    [submitContact] does: the store and the trace are as they were (no
    transition, no request, no field changed), and no submission is left
    waiting. *)
Theorem submissions_debounced_while_processing :
  forall (net : Network) (options : Options) (w : World),
    (flowState (store w) = "addressFormProcessing"
     \/ flowState (store w) = "modalAddressFormProcessing" ->
     submitAddress net options w = Returns tt w)
    /\ (flowState (store w) = "contactFormProcessing" ->
        submitContact options w = Debounced w).
Proof.
  intros net options w. split.
  - intros [H | H]; unfold submitAddress; rewrite bind_get, H; reflexivity.
  - intros H. unfold submitContact, submitContact_prologue.
    rewrite bind_get, H. reflexivity.
Qed.

Lemma submissions_debounced_while_processing_witness :
  submitAddress failingNetwork []
    {| store := set_flowState "modalAddressFormProcessing" completedStore; trace := [] |}
  = Returns tt {| store := set_flowState "modalAddressFormProcessing" completedStore;
                  trace := [] |}
  /\ submitContact []
       {| store := set_flowState "contactFormProcessing" completedStore; trace := [] |}
     = Debounced {| store := set_flowState "contactFormProcessing" completedStore;
                    trace := [] |}.
Proof.
  split.
  - apply (submissions_debounced_while_processing failingNetwork []). right. reflexivity.
  - apply (submissions_debounced_while_processing failingNetwork []). reflexivity.
Defined.

Lemma trace_delta (tr : Trace) d1 d2 : (tr ++ d1) ++ d2 = tr ++ (d1 ++ d2).
Proof. symmetry. apply app_assoc. Qed.

Ltac enter_submitAddress :=
  unfold submitAddress; mstep; cbn [String.eqb Ascii.eqb Bool.eqb orb];
  do 5 mstep; unfold try_catch; mstep.

Ltac fetch_parcel Hparcel :=
  rewrite bind_assoc; unfold fetchParcelDetails; rewrite bind_assoc; mstep;
  match goal with
  | |- context [parcel_response ?net ?id] =>
      let fields := fresh "fields" in
      let rest := fresh "rest" in
      let Hfields := fresh "Hfields" in
      destruct (Hparcel id) as [fields [rest Hfields]]; rewrite Hfields
  end;
  unfold filterParcelDetails; msteps.

Ltac fetch_estimate Hestimate :=
  rewrite bind_assoc; unfold fetchEstimateResults; rewrite bind_assoc; mstep;
  match goal with
  | |- context [estimate_response ?net ?p] =>
      let results := fresh "results" in
      let Hresults := fresh "Hresults" in
      destruct (Hestimate p) as [results Hresults]; rewrite Hresults
  end;
  msteps.

Ltac finish_run :=
  unfold trackEvent, emit; store_simpl; rewrite ?trace_delta; cbn [app];
  do 3 eexists; repeat (split; [first [reflexivity | vm_compute; reflexivity]|]).

(** C3. Submitting an address from a state that has a [SUBMIT_ADDRESS]
    transition: when parcel details, estimate results and a contact
    submission are all present, [SKIP_CONTACT] is fired, the flow reaches
    [estimateResults] and no request is made; otherwise, on a network that
    answers, the parcel details are requested if absent, then the estimate
    if absent, then [SUCCESS] is fired and the flow reaches [contactForm]. *)
Theorem submitAddress_skips_or_fetches :
  forall (net : Network) (options : Options) (w : World),
    submittable (flowState (store w)) ->
    (allPresent (store w) = true -> skips_contact net options w)
    /\ (allPresent (store w) = false -> answers net ->
        fetches_then_succeeds net options w).
Proof.
  intros net options w Hsub. split.
  - intros Hall. unfold skips_contact.
    destruct w as [[a c e f] tr]. store_simpl_in Hsub.
    unfold allPresent in Hall. store_simpl_in Hall. store_simpl.
    destruct Hsub as [-> | [-> | [-> | ->]]];
      enter_submitAddress;
      change (hasParcelDetails (with_address_errorMessage "" a)) with (hasParcelDetails a);
      rewrite Hall; mstep; finish_run; reflexivity.
  - intros Hall [Hparcel Hestimate]. unfold fetches_then_succeeds.
    destruct w as [[a c e f] tr]. store_simpl_in Hsub.
    unfold allPresent in Hall. store_simpl_in Hall. store_simpl.
    destruct Hsub as [-> | [-> | [-> | ->]]];
      enter_submitAddress;
      change (hasParcelDetails (with_address_errorMessage "" a)) with (hasParcelDetails a);
      rewrite Hall;
      (destruct (hasParcelDetails a) eqn:Hp; cbn [negb when];
       [ | fetch_parcel Hparcel ]; msteps;
       (destruct (hasResults e) eqn:Hr; cbn [negb when];
        [ | fetch_estimate Hestimate ]; msteps; finish_run; reflexivity)).
Qed.

Lemma answeringNetwork_answers found : answers (answeringNetwork found).
Proof. split; intros; cbn; eauto. Qed.

Lemma submitAddress_skips_or_fetches_witness :
  skips_contact (answeringNetwork []) [] {| store := completedStore; trace := [] |}
  /\ fetches_then_succeeds (answeringNetwork []) [] initialWorld.
Proof.
  split.
  - apply (submitAddress_skips_or_fetches (answeringNetwork []) []
             {| store := completedStore; trace := [] |}).
    + left. reflexivity.
    + vm_compute. reflexivity.
  - apply (submitAddress_skips_or_fetches (answeringNetwork []) [] initialWorld).
    + left. reflexivity.
    + vm_compute. reflexivity.
    + apply answeringNetwork_answers.
Defined.

(** C9. When the parcel-details request of [submitAddress] throws, the
    user-facing error message is set, [ERROR] is fired (from
    [addressFormProcessing] the flow reaches [addressFormError]) and no
    estimate request is made. *)
Theorem submitAddress_parcel_failure :
  forall (net : Network) (options : Options) (w : World),
    submittable (flowState (store w)) ->
    hasParcelDetails (addressViewModel (store w)) = false ->
    parcel_fetch_throws net (selected_field ll_uuid (addressViewModel (store w))) ->
    fails_on_parcel net options w.
Proof.
  intros net options w Hsub Hp Hthrows. unfold fails_on_parcel.
  destruct w as [[a c e f] tr]. store_simpl_in Hsub. store_simpl_in Hp.
  store_simpl_in Hthrows. store_simpl.
  destruct Hsub as [-> | [-> | [-> | ->]]];
    enter_submitAddress;
    change (hasParcelDetails (with_address_errorMessage "" a)) with (hasParcelDetails a);
    rewrite Hp; cbn [andb negb when];
    rewrite bind_assoc; unfold fetchParcelDetails; rewrite bind_assoc; mstep;
    change (selected_field ll_uuid (with_address_errorMessage "" a))
      with (selected_field ll_uuid a);
    (destruct Hthrows as [Hnone | Hempty];
     [ rewrite Hnone | rewrite Hempty; unfold filterParcelDetails ];
     msteps; finish_run; first [reflexivity | discriminate]).
Qed.

Lemma submitAddress_parcel_failure_witness :
  fails_on_parcel failingNetwork [] initialWorld.
Proof.
  apply (submitAddress_parcel_failure failingNetwork [] initialWorld).
  - left. reflexivity.
  - reflexivity.
  - left. reflexivity.
Defined.

(** ** Changing the address input *)

Ltac split_when :=
  match goal with
  | |- context [when ?b _] =>
      lazymatch b with
      | true => fail
      | false => fail
      | _ => let E := fresh "Hcond" in destruct b eqn:E
      end
  end; cbn [when].

Ltac split_fired :=
  match goal with
  | |- context [match defined_transition flowStateMachine ?s ?k with _ => _ end] =>
      destruct (defined_transition flowStateMachine s k)
  | |- context [match states flowStateMachine !! ?s with _ => _ end] =>
      destruct (states flowStateMachine !! s)
  end; cbv iota beta.

(** C8. For every match, [handleMatchSelection(match)] followed by
    [handleInput()] ends with [isSelected] and [hasParcelDetails] false, and
    with the estimate results and the contact-submitted flag reset:
    [hasResults] and [isSubmitted] are false too, whatever they were. *)
Theorem selection_then_input_invalidates :
  forall (net : Network) (m : Match) (w : World),
    ends_in invalidated (select_then_input net m w).
Proof.
  intros net m w. destruct w as [[a c e f] tr].
  unfold select_then_input, handleMatchSelection, handleInput.
  msteps.
  repeat (split_when; msteps).
  all: unfold try_catch, fetchAddressMatches; msteps.
  all: destruct (typeahead_response net _).
  all: msteps.
  all: repeat split_fired.
  all: unfold modify, throw, ends_in, invalidated; store_simpl.
  all: unfold isSelected, hasParcelDetails, hasResults in *; store_simpl.
  all: repeat match goal with H : _ = _ |- _ => progress store_simpl_in H end.
  all: auto.
Qed.

(** The round trip on a store in which all four were set. *)
Example selection_then_input_on_completed_flow :
  let m := sampleMatch "uuid-2" "45 Oak Ave" (7 # 1) in
  let w := {| store := completedStore; trace := [] |} in
  allPresent (store w) = true
  /\ exists w',
      select_then_input (answeringNetwork [m]) m w = Returns tt w'
      /\ invalidated (store w')
      /\ matches (addressViewModel (store w')) = [m].
Proof.
  cbv zeta. split; [vm_compute; reflexivity|].
  eexists. split; [vm_compute; reflexivity|].
  split; [|vm_compute; reflexivity].
  repeat split; vm_compute; reflexivity.
Qed.

(** ** Keyboard navigation of the matches *)

Lemma handleKeydown_other_key key w :
  key <> "ArrowUp" -> key <> "ArrowDown" -> key <> "Enter" ->
  handleKeydown key w = Returns tt w.
Proof.
  intros Hup Hdown Henter. unfold handleKeydown.
  apply String.eqb_neq in Hup, Hdown, Henter. rewrite Hup, Hdown, Henter. reflexivity.
Qed.

Lemma handleKeydown_not_showing key w :
  isSelected (addressViewModel (store w)) = true
  \/ matches (addressViewModel (store w)) = [] ->
  handleKeydown key w = Returns tt w.
Proof.
  intros Hhidden. unfold handleKeydown.
  destruct (negb (String.eqb key "Enter") && negb (String.eqb key "ArrowUp")
            && negb (String.eqb key "ArrowDown")); [reflexivity|].
  rewrite bind_get. destruct Hhidden as [-> | ->]; [reflexivity|].
  rewrite orb_true_r. reflexivity.
Qed.

Lemma showing_intercepts w :
  isSelected (addressViewModel (store w)) = false ->
  matches (addressViewModel (store w)) <> [] ->
  isSelected (addressViewModel (store w))
  || (length (matches (addressViewModel (store w))) =? 0)%nat = false.
Proof.
  intros -> Hne. destruct (matches (addressViewModel (store w))); [contradiction|reflexivity].
Qed.

Lemma matches_at_in_range (l : list Match) i :
  (0 <= i < Z.of_nat (length l))%Z ->
  exists m, matches_at l i = Some m /\ nth_error l (Z.to_nat i) = Some m.
Proof.
  intros [Hlo Hhi]. unfold matches_at.
  destruct (i <? 0)%Z eqn:Hneg; [apply Z.ltb_lt in Hneg; lia|].
  destruct (nth_error l (Z.to_nat i)) as [m|] eqn:Hnth; [eauto|].
  apply nth_error_None in Hnth. lia.
Qed.

(** C7 (as amended). [handleKeydown] passes every key but [ArrowUp],
    [ArrowDown] and [Enter] through, and every key while a match is selected
    or the list is empty: the world is untouched.  While [n] unselected
    matches are on display, [ArrowUp] from an index at or below [-1] sets
    the index to [n - 1] and otherwise decrements it; [ArrowDown] from an
    index at or above [n - 1] sets it to [-1] and otherwise increments it;
    [Enter] at an index within the list selects the match at that index. *)
Theorem handleKeydown_navigation :
  forall (key : string) (w : World),
    let this := addressViewModel (store w) in
    let n := Z.of_nat (length (matches this)) in
    let i := keyboardNavIndex this in
    ((key <> "ArrowUp" /\ key <> "ArrowDown" /\ key <> "Enter")
     \/ isSelected this = true \/ matches this = [] ->
     handleKeydown key w = Returns tt w)
    /\ (isSelected this = false -> matches this <> [] ->
        ((i <= -1)%Z -> handleKeydown "ArrowUp" w = Returns tt (navigated (n - 1) w))
        /\ ((-1 < i)%Z -> handleKeydown "ArrowUp" w = Returns tt (navigated (i - 1) w))
        /\ ((n - 1 <= i)%Z -> handleKeydown "ArrowDown" w = Returns tt (navigated (-1) w))
        /\ ((i < n - 1)%Z -> handleKeydown "ArrowDown" w = Returns tt (navigated (i + 1) w))
        /\ ((0 <= i < n)%Z ->
            exists m, nth_error (matches this) (Z.to_nat i) = Some m
                      /\ handleKeydown "Enter" w = selected_by_keyboard m w)).
Proof.
  intros key w this n i. split.
  - intros [[Hup [Hdown Henter]] | Hhidden].
    + apply handleKeydown_other_key; assumption.
    + apply handleKeydown_not_showing; assumption.
  - intros Hsel Hne. pose proof (showing_intercepts w Hsel Hne) as Hshow.
    fold this in Hshow.
    assert (Hrun : forall key,
               key = "ArrowUp" \/ key = "ArrowDown" \/ key = "Enter" ->
               handleKeydown key w
               = (if String.eqb key "Enter" && negb (i =? -1)%Z then
                    handleMatchSelection (matches_at (matches this) i)
                  else if String.eqb key "ArrowUp" then
                    modify (set_address (with_keyboardNavIndex
                      (if (i <=? -1)%Z then (n - 1)%Z else (i - 1)%Z)))
                  else if String.eqb key "ArrowDown" then
                    modify (set_address (with_keyboardNavIndex
                      (if (i >=? n - 1)%Z then (-1)%Z else (i + 1)%Z)))
                  else ret tt) (record_effect Intercepted w)).
    { intros k [-> | [-> | ->]]; unfold handleKeydown;
        cbn [String.eqb Ascii.eqb Bool.eqb negb andb];
        rewrite bind_get; fold this; rewrite Hshow, bind_emit; reflexivity. }
    repeat split.
    + intros Hi. rewrite Hrun by auto. cbn [String.eqb Ascii.eqb Bool.eqb negb andb].
      apply Z.leb_le in Hi. rewrite Hi. reflexivity.
    + intros Hi. rewrite Hrun by auto. cbn [String.eqb Ascii.eqb Bool.eqb negb andb].
      apply Z.leb_gt in Hi. rewrite Hi. reflexivity.
    + intros Hi. rewrite Hrun by auto. cbn [String.eqb Ascii.eqb Bool.eqb negb andb].
      rewrite Z.geb_leb. apply Z.leb_le in Hi. rewrite Hi. reflexivity.
    + intros Hi. rewrite Hrun by auto. cbn [String.eqb Ascii.eqb Bool.eqb negb andb].
      rewrite Z.geb_leb. apply Z.leb_gt in Hi. rewrite Hi. reflexivity.
    + intros Hi. destruct (matches_at_in_range (matches this) i Hi) as [m [Hat Hnth]].
      exists m. split; [exact Hnth|].
      rewrite Hrun by auto. cbn [String.eqb Ascii.eqb Bool.eqb negb andb].
      replace (i =? -1)%Z with false by (symmetry; apply Z.eqb_neq; lia).
      cbn [negb]. rewrite Hat. reflexivity.
Qed.

Lemma staleIndexWorld_reached :
  exists w', typeUpType initialWorld = Returns tt w' /\ staleIndexWorld = w'.
Proof. eexists. split; vm_compute; reflexivity. Qed.

(** C7 as stated fails: after the list shrank under a highlighted entry,
    the index (4) is beyond the last position (1), and [ArrowDown] sets it
    to [-1] instead of incrementing it. *)
Lemma ArrowDown_from_stale_index :
  keyboardNavIndex (addressViewModel (store staleIndexWorld)) = 4%Z
  /\ length (matches (addressViewModel (store staleIndexWorld))) = 2%nat
  /\ isSelected (addressViewModel (store staleIndexWorld)) = false
  /\ handleKeydown "ArrowDown" staleIndexWorld
     = Returns tt (navigated (-1) staleIndexWorld)
  /\ ~ arrowDown_as_specified.
Proof.
  assert (Hrun : handleKeydown "ArrowDown" staleIndexWorld
                 = Returns tt (navigated (-1) staleIndexWorld))
    by (vm_compute; reflexivity).
  split; [vm_compute; reflexivity|].
  split; [vm_compute; reflexivity|].
  split; [vm_compute; reflexivity|].
  split; [exact Hrun|].
  intros Hspec. destruct (Hspec staleIndexWorld) as [w' [Hw' Hindex]].
  - vm_compute. reflexivity.
  - vm_compute. discriminate.
  - rewrite Hrun in Hw'. injection Hw' as <-. vm_compute in Hindex. discriminate Hindex.
Qed.

(** At that index [Enter] finds no match: [handleMatchSelection] is called
    with [undefined]. *)
Example Enter_at_stale_index :
  handleKeydown "Enter" staleIndexWorld
  = Faults "TypeError" (trace staleIndexWorld ++ [Intercepted]).
Proof. vm_compute. reflexivity. Qed.

Lemma handleKeydown_navigation_witness :
  handleKeydown "Tab" threeShownWorld = Returns tt threeShownWorld
  /\ handleKeydown "ArrowUp" threeShownWorld = Returns tt (navigated 2 threeShownWorld)
  /\ handleKeydown "ArrowDown" (navigated 2 threeShownWorld)
     = Returns tt (navigated (-1) (navigated 2 threeShownWorld))
  /\ exists m,
       nth_error (firstn 3 fiveMatches) 2 = Some m
       /\ handleKeydown "Enter" (navigated 2 threeShownWorld)
          = selected_by_keyboard m (navigated 2 threeShownWorld).
Proof.
  destruct (handleKeydown_navigation "Tab" threeShownWorld) as [Hpass Hshown].
  destruct (handleKeydown_navigation "Tab" (navigated 2 threeShownWorld)) as [_ Hlast].
  cbv zeta in Hpass, Hshown, Hlast.
  destruct Hshown as [Hup _]; [reflexivity | discriminate |].
  destruct Hlast as [_ [_ [Hdown [_ Henter]]]]; [reflexivity | discriminate |].
  split; [apply Hpass; left; repeat split; discriminate|].
  split; [apply Hup; vm_compute; discriminate|].
  split; [apply Hdown; vm_compute; discriminate|].
  apply Henter. vm_compute. split; [discriminate | reflexivity].
Defined.

(** ** Closing the modal *)

Lemma isOpen_states s :
  isOpen s = true ->
  flowState s = "modalAddressForm" \/ flowState s = "modalAddressFormProcessing"
  \/ flowState s = "modalAddressFormError" \/ flowState s = "contactForm"
  \/ flowState s = "contactFormProcessing" \/ flowState s = "contactFormError"
  \/ flowState s = "estimateResults" \/ flowState s = "scheduleConsultation"
  \/ flowState s = "requestedCommunity".
Proof.
  unfold isOpen. rewrite !orb_true_iff, !String.eqb_eq. tauto.
Qed.

(** In a state of the modal flow [EXIT] leads to [default]. *)
Lemma exit_fired_when_open w :
  isOpen (store w) = true ->
  (do _ <- fire EXIT; trackEvent "Get Offer Modal Closed" []) w = Returns tt (exited w).
Proof.
  intros Hopen. apply isOpen_states in Hopen.
  destruct w as [[a c e f] tr]. store_simpl_in Hopen. unfold exited. store_simpl.
  repeat (destruct Hopen as [-> | Hopen]); [.. | subst f];
    mstep; unfold trackEvent, emit; store_simpl; rewrite ?trace_delta; reflexivity.
Qed.

(** The modal helper of [index.js] has no exit policy: it always fires
    [EXIT]. *)
Lemma handleModalClose_always_exits w :
  isOpen (store w) = true -> handleModalClose w = Returns tt (exited w).
Proof. apply exit_fired_when_open. Qed.

(** C5. [handleModalClose] of the home script: on the contact form with
    contact details entered it asks for confirmation and fires [EXIT] only
    when the user confirms; while the contact submission is processing it
    does nothing, so the flow state stays; in every other state of the
    modal flow it fires [EXIT]. *)
Theorem handleModalClose_exit_policy :
  forall (hasAnyContactDetails : ContactViewModel -> bool)
         (confirm : string -> bool) (w : World),
    (flowState (store w) = "contactForm" ->
     hasAnyContactDetails (contactViewModel (store w)) = true ->
     Home.handleModalClose hasAnyContactDetails confirm w
     = if confirm Home.exitConfirmation
       then Returns tt (exited (asked w))
       else Returns tt (asked w))
    /\ (flowState (store w) = "contactFormProcessing" ->
        Home.handleModalClose hasAnyContactDetails confirm w = Returns tt w)
    /\ (isOpen (store w) = true ->
        flowState (store w) <> "contactFormProcessing" ->
        flowState (store w) <> "contactForm"
        \/ hasAnyContactDetails (contactViewModel (store w)) = false ->
        Home.handleModalClose hasAnyContactDetails confirm w = Returns tt (exited w)).
Proof.
  intros hasAny confirm w. split; [|split].
  - intros Hform Hany. unfold Home.handleModalClose.
    rewrite bind_get, Hform, Hany. cbn [String.eqb Ascii.eqb Bool.eqb andb].
    rewrite bind_assoc, bind_emit, bind_ret, bind_get. cbn [store].
    rewrite Hform. cbn [String.eqb Ascii.eqb Bool.eqb].
    destruct (confirm Home.exitConfirmation); [|reflexivity].
    apply (exit_fired_when_open (asked w)).
    unfold isOpen. cbn [asked record_effect store]. rewrite Hform. reflexivity.
  - intros Hprocessing. unfold Home.handleModalClose.
    rewrite bind_get, Hprocessing. cbn [String.eqb Ascii.eqb Bool.eqb andb].
    rewrite bind_ret, bind_get, Hprocessing. reflexivity.
  - intros Hopen Hnot Hother. unfold Home.handleModalClose.
    rewrite bind_get.
    replace (String.eqb (flowState (store w)) "contactForm"
             && hasAny (contactViewModel (store w))) with false.
    + rewrite bind_ret, bind_get.
      apply String.eqb_neq in Hnot. rewrite Hnot.
      apply exit_fired_when_open. exact Hopen.
    + symmetry. destruct Hother as [Hstate | Hany].
      * apply String.eqb_neq in Hstate. rewrite Hstate. reflexivity.
      * rewrite Hany. apply andb_false_r.
Qed.

Lemma handleModalClose_exit_policy_witness :
  Home.handleModalClose Home.anyContactFieldPopulated (fun _ => true) typingContactWorld
  = Returns tt (exited (asked typingContactWorld))
  /\ Home.handleModalClose Home.anyContactFieldPopulated (fun _ => false) typingContactWorld
     = Returns tt (asked typingContactWorld)
  /\ Home.handleModalClose Home.anyContactFieldPopulated (fun _ => true)
       {| store := set_flowState "contactFormProcessing" completedStore; trace := [] |}
     = Returns tt {| store := set_flowState "contactFormProcessing" completedStore;
                     trace := [] |}
  /\ Home.handleModalClose Home.anyContactFieldPopulated (fun _ => false)
       {| store := set_flowState "estimateResults" completedStore; trace := [] |}
     = Returns tt (exited {| store := set_flowState "estimateResults" completedStore;
                             trace := [] |}).
Proof.
  split; [|split; [|split]].
  - apply (handleModalClose_exit_policy Home.anyContactFieldPopulated (fun _ => true)
             typingContactWorld); reflexivity.
  - apply (handleModalClose_exit_policy Home.anyContactFieldPopulated (fun _ => false)
             typingContactWorld); reflexivity.
  - apply (handleModalClose_exit_policy Home.anyContactFieldPopulated (fun _ => true)).
    reflexivity.
  - apply (handleModalClose_exit_policy Home.anyContactFieldPopulated (fun _ => false)).
    + reflexivity.
    + discriminate.
    + left. discriminate.
Defined.

(** ** Ranking of the typeahead matches *)

Section Sorting.
Context {A : Type} (comparefn : A -> A -> Z).

Let before (x y : A) : Prop := (comparefn x y <= 0)%Z.

Hypothesis comparefn_total : forall x y, (0 < comparefn x y)%Z -> before y x.
Hypothesis comparefn_trans : forall x y z, before x y -> before y z -> before x z.

Lemma js_insert_perm x l : Permutation (x :: l) (js_insert comparefn x l).
Proof.
  induction l as [|y l IH]; cbn; [reflexivity|].
  destruct (comparefn x y <=? 0)%Z; [reflexivity|].
  rewrite perm_swap. apply perm_skip. exact IH.
Qed.

Lemma js_sort_perm l : Permutation l (js_sort comparefn l).
Proof.
  induction l as [|x l IH]; cbn; [reflexivity|].
  rewrite <- js_insert_perm. apply perm_skip. exact IH.
Qed.

Lemma js_insert_sorted x l :
  StronglySorted before l -> StronglySorted before (js_insert comparefn x l).
Proof using comparefn_total comparefn_trans.
  induction 1 as [|y l Hsorted IH Hall]; cbn.
  - constructor; constructor.
  - destruct (comparefn x y <=? 0)%Z eqn:Hcmp.
    + apply Z.leb_le in Hcmp. constructor; [constructor; assumption|].
      constructor; [exact Hcmp|].
      eapply List.Forall_impl; [|exact Hall]. intros z Hz.
      eapply comparefn_trans; eassumption.
    + apply Z.leb_gt in Hcmp. constructor; [exact IH|].
      eapply Permutation_Forall; [apply js_insert_perm|].
      constructor; [apply comparefn_total; exact Hcmp | exact Hall].
Qed.

Lemma js_sort_sorted l : StronglySorted before (js_sort comparefn l).
Proof using comparefn_total comparefn_trans.
  induction l as [|x l IH]; cbn; [constructor|].
  apply js_insert_sorted. exact IH.
Qed.
End Sorting.

Lemma StronglySorted_weaken {A} (R R' : A -> A -> Prop) l :
  (forall a b, R a b -> R' a b) -> StronglySorted R l -> StronglySorted R' l.
Proof.
  intros Himpl. induction 1 as [|x l Hsorted IH Hall]; constructor; [exact IH|].
  eapply List.Forall_impl; [|exact Hall]. intros y. apply Himpl.
Qed.

Lemma firstn_incl {A} n (l : list A) : incl (firstn n l) l.
Proof.
  revert n. induction l as [|x l IH]; intros [|n] y Hy; cbn in Hy; try contradiction.
  destruct Hy as [-> | Hy]; [left; reflexivity | right; exact (IH n y Hy)].
Qed.

Lemma firstn_sorted {A} (R : A -> A -> Prop) n l :
  StronglySorted R l -> StronglySorted R (firstn n l).
Proof.
  intros Hsorted. revert n. induction Hsorted as [|x l Hsorted IH Hall]; intros [|n]; cbn;
    try constructor.
  - apply IH.
  - apply List.Forall_forall. intros y Hy. rewrite List.Forall_forall in Hall.
    apply Hall. eapply firstn_incl; eassumption.
Qed.

Lemma any_then_no_digit_last s :
  any_then_no_digit s = true ->
  forall init c, s = String.append init (String c EmptyString) -> is_digit c = false.
Proof.
  induction s as [|c0 s IH]; [discriminate|].
  intros Hmatch init c Heq. destruct s as [|c1 s].
  - destruct init as [|i0 init]; cbn in Heq.
    + injection Heq as <-. cbn in Hmatch. apply negb_true_iff. exact Hmatch.
    + injection Heq as _ Heq. destruct init; discriminate Heq.
  - destruct init as [|i0 init]; cbn in Heq; [discriminate Heq|].
    injection Heq as _ Heq.
    cbn [any_then_no_digit] in Hmatch. apply andb_true_iff in Hmatch as [_ Hrest].
    exact (IH Hrest init c Heq).
Qed.

Lemma address_pattern_digits s :
  address_pattern s = true -> starts_with_digit s /\ ~ ends_with_digit s.
Proof.
  destruct s as [|c rest]; [discriminate|]. cbn [address_pattern].
  intros Hmatch. apply andb_true_iff in Hmatch as [Hfirst Hrest]. split.
  - exists c, rest. split; [reflexivity | exact Hfirst].
  - intros [init [d [Heq Hdigit]]].
    destruct init as [|i0 init]; cbn in Heq.
    + injection Heq as _ ->. discriminate Hrest.
    + injection Heq as _ Heq.
      rewrite (any_then_no_digit_last rest Hrest init d Heq) in Hdigit. discriminate Hdigit.
Qed.

Lemma keeps_match_well_formed m : keeps_match m = true -> well_formed_match m.
Proof.
  unfold keeps_match, well_formed_match, truthy.
  destruct (ll_uuid m) as [uuid|]; [|discriminate].
  destruct (address m) as [street|]; [|rewrite andb_false_r; discriminate].
  rewrite !andb_true_iff, !negb_true_iff. intros [[Huuid _] Hpattern].
  exists uuid, street. apply String.eqb_neq in Huuid.
  destruct (address_pattern_digits street Hpattern) as [Hstart Hend]. auto.
Qed.

Lemma compareMatchesScores_before a b :
  (compareMatchesScores a b <= 0)%Z <-> ranks_before a b.
Proof.
  unfold compareMatchesScores, ranks_before, js_gt, js_lt.
  destruct (Qcompare (score a) (score b)) eqn:Hcmp.
  - apply Qeq_alt in Hcmp. split; [intros _ | lia]. rewrite Hcmp. apply Qle_refl.
  - apply Qlt_alt in Hcmp. split; [lia|]. intros Hle.
    exfalso. exact (Qlt_not_le _ _ Hcmp Hle).
  - apply Qgt_alt in Hcmp. split; [intros _ | lia]. apply Qlt_le_weak. exact Hcmp.
Qed.

(** C10. The processed match list has at most 10 entries; every entry has
    a non-empty [ll_uuid] and an address that starts with a digit and does
    not end with one; and the entries are in non-increasing order of score. *)
Theorem filterSortAndSliceAddressMatches_ranked :
  forall regridTypeaheadResponseData : list Match,
    let shown := filterSortAndSliceAddressMatches regridTypeaheadResponseData in
    length shown <= 10
    /\ Forall well_formed_match shown
    /\ StronglySorted ranks_before shown.
Proof.
  intros data shown. subst shown. unfold filterSortAndSliceAddressMatches.
  split; [apply firstn_le_length | split].
  - apply List.Forall_forall. intros m Hm.
    apply firstn_incl in Hm.
    apply (Permutation_in m (Permutation_sym (js_sort_perm _ _))) in Hm.
    apply filter_In in Hm as [_ Hkept]. apply keeps_match_well_formed. exact Hkept.
  - apply firstn_sorted.
    apply (StronglySorted_weaken (fun a b => (compareMatchesScores a b <= 0)%Z)).
    + intros a b Hab. apply compareMatchesScores_before. exact Hab.
    + apply js_sort_sorted.
      * intros a b Hab. apply compareMatchesScores_before.
        unfold compareMatchesScores, js_gt, js_lt in Hab. unfold ranks_before.
        destruct (Qcompare (score a) (score b)) eqn:Hcmp; try lia.
        apply Qlt_alt in Hcmp. apply Qlt_le_weak. exact Hcmp.
      * intros a b c Hab Hbc. apply compareMatchesScores_before.
        apply compareMatchesScores_before in Hab, Hbc. unfold ranks_before in *.
        eapply Qle_trans; eassumption.
Qed.

(** Twelve entries, two of them unusable: the five best-ranked usable ones
    come first, ten are kept. *)
Example filterSortAndSliceAddressMatches_sample :
  let unusable := [ {| ll_uuid := None; address := Some "9 Oak St";
                       context := None; score := 99 # 1 |};
                    sampleMatch "uuid-0" "Elm St 77" (98 # 1) ] in
  let data := unusable ++ List.rev fiveMatches ++ twoMatches ++ fiveMatches in
  length data = 14
  /\ length (filterSortAndSliceAddressMatches data) = 10
  /\ firstn 2 (filterSortAndSliceAddressMatches data)
     = [sampleMatch "uuid-1" "1 Elm St" (9 # 1); sampleMatch "uuid-1" "1 Elm St" (9 # 1)].
Proof. cbv zeta. repeat split; vm_compute; reflexivity. Qed.

(** ** Submitting the contact form *)

Lemma act_step net payload a t t' :
  act net payload a t = Some t' -> step net payload t t'.
Proof.
  destruct a; cbn [act].
  - intros [= <-]. constructor.
  - destruct (timer_due t) as [due|] eqn:Hdue; [|discriminate].
    destruct (due <=? now t)%nat eqn:Hle; [|discriminate].
    intros [= <-]. apply Nat.leb_le in Hle. econstructor; eassumption.
  - destruct (lead t) eqn:Hlead; try discriminate.
    destruct (lead_response net payload) eqn:Hresponse; intros [= <-].
    + apply step_lead_fulfilled; assumption.
    + apply step_lead_rejected; assumption.
  - destruct (resumed t) eqn:Hresumed; [discriminate|].
    destruct (lead t) eqn:Hlead; [discriminate | | ].
    + destruct (sequence t) eqn:Hsequence; try discriminate.
      intros [= <-]. apply step_resume_fulfilled; assumption.
    + intros [= <-]. apply step_resume_rejected; assumption.
Qed.

Lemma schedule_steps net payload l t t' :
  schedule net payload l t = Some t' -> steps net payload t t'.
Proof.
  assert (Htrans : forall t1 t2 t3,
             step net payload t1 t2 -> steps net payload t2 t3 -> steps net payload t1 t3).
  { intros t1 t2 t3 Hstep Hsteps. induction Hsteps.
    - eapply steps_step; [apply steps_refl | exact Hstep].
    - eapply steps_step; [apply IHHsteps; exact Hstep | eassumption]. }
  revert t. induction l as [|a l IH]; intros t; cbn [schedule].
  - intros [= <-]. apply steps_refl.
  - destruct (act net payload a t) as [t1|] eqn:Hact; [|discriminate].
    intros Hrest. eapply Htrans; [eapply act_step; eassumption | apply IH; exact Hrest].
Qed.

(** [fire] changes nothing but the flow state. *)
Lemma fired_contact event w :
  match fired event w with
  | Returns _ w' | Throws _ w' =>
      contactViewModel (store w') = contactViewModel (store w)
      /\ exists d, trace w' = trace w ++ Fired (flowState (store w)) event :: d
                   /\ forall s e, In (Fired s e) d -> False
  | Faults _ _ => False
  end.
Proof.
  unfold fired.
  destruct (defined_transition flowStateMachine (flowState (store w)) (event_name event)).
  - cbn. split; [reflexivity|]. exists []. split; [reflexivity|]. intros s0 e0 [].
  - destruct (states flowStateMachine !! flowState (store w)).
    + cbn. split; [reflexivity|]. eexists. rewrite <- app_assoc. split; [reflexivity|].
      intros s0 e0 [Hin | []]. discriminate Hin.
    + cbn. split; [reflexivity|]. exists []. split; [reflexivity|]. intros s0 e0 [].
Qed.

Lemma submitContact_rejected_keeps w :
  match submitContact_rejected w with
  | Returns _ w' | Throws _ w' =>
      isSubmitted (contactViewModel (store w')) = isSubmitted (contactViewModel (store w))
      /\ exists d, trace w' = trace w ++ d /\ ~ fired_success d
  | Faults _ _ => False
  end.
Proof.
  unfold submitContact_rejected. rewrite bind_modify, bind_fire.
  match goal with |- context [fired ERROR ?w0] =>
    pose proof (fired_contact ERROR w0) as Hfired; destruct (fired ERROR w0) as [[] w1|err w1|]
  end; [| |contradiction].
  - destruct Hfired as [Hcontact [d [Htrace Hnone]]].
    rewrite bind_get. unfold trackEvent, emit. cbn [store trace] in *.
    rewrite Hcontact. split; [reflexivity|].
    rewrite Htrace. eexists. rewrite <- app_assoc. split; [reflexivity|].
    intros [s Hin]. cbn in Hin. destruct Hin as [Hin | Hin]; [discriminate Hin|].
    apply in_app_or in Hin as [Hin | [Hin | []]]; [exact (Hnone _ _ Hin) | discriminate Hin].
  - destruct Hfired as [Hcontact [d [Htrace Hnone]]]. cbn [store trace] in *.
    rewrite Hcontact. split; [reflexivity|].
    rewrite Htrace. eexists. split; [reflexivity|].
    intros [s Hin]. cbn in Hin. destruct Hin as [Hin | Hin]; [discriminate Hin|].
    exact (Hnone _ _ Hin).
Qed.

Lemma submitContact_suspended options w payload t0 :
  submitContact options w = Suspended payload t0 ->
  started_both payload t0
  /\ steps_left t0 = tl analysisSteps
  /\ isSubmitted (contactViewModel (store (world t0)))
     = isSubmitted (contactViewModel (store w)).
Proof.
  unfold submitContact, submitContact_prologue.
  rewrite bind_get.
  destruct (String.eqb (flowState (store w)) "contactFormProcessing"); [discriminate|].
  rewrite bind_emit, bind_modify, bind_fire.
  match goal with |- context [fired SUBMIT_CONTACT ?w0] =>
    pose proof (fired_contact SUBMIT_CONTACT w0) as Hfired;
    destruct (fired SUBMIT_CONTACT w0) as [[] w1|err w1|]
  end; [|discriminate|contradiction].
  destruct Hfired as [Hcontact _]. cbn [store trace] in Hcontact.
  rewrite bind_get, bind_trackEvent, bind_get. unfold ret.
  intros [= <- <-]. unfold started_both. cbn.
  rewrite Hcontact. cbn.
  repeat split; try reflexivity. eexists. reflexivity.
Qed.

Lemma submission_invariant_start net options w payload t0 :
  isSubmitted (contactViewModel (store w)) = false ->
  submitContact options w = Suspended payload t0 ->
  submission_invariant net payload t0 t0.
Proof.
  intros Hflag Hcall.
  destruct (submitContact_suspended _ _ _ _ Hcall)
    as [[Hseq [Hlead [Hresumed [Hnow [Hdue _]]]]] [Hleft Hsame]].
  unfold submission_invariant. split; [|split].
  - exists []. split; [symmetry; apply app_nil_r|].
    intros [Hup | [s []]]. rewrite Hsame, Hflag in Hup. discriminate Hup.
  - rewrite Hlead. discriminate.
  - rewrite Hseq. exists analysisStepDelay. split; [exact Hdue|].
    rewrite Hleft. cbn. lia.
Qed.

Lemma submitContact_resume_grows w :
  exists d,
    trace (world_after (try_catch submitContact_fulfilled submitContact_rejected w) w)
    = trace w ++ d.
Proof.
  unfold try_catch, submitContact_fulfilled. rewrite bind_modify, bind_fire.
  match goal with |- context [fired SUCCESS ?w0] =>
    pose proof (fired_contact SUCCESS w0) as Hfired;
    destruct (fired SUCCESS w0) as [[] w1|err w1|]
  end; [| |contradiction]; destruct Hfired as [_ [d [Htrace _]]]; cbn [store trace] in Htrace.
  - rewrite bind_get.
    destruct (hasActiveJurisdiction (estimateViewModel (store w1))
              && hasEstimate (estimateViewModel (store w1))); cbn [when].
    + rewrite bind_emit, bind_get. unfold trackEvent, emit. cbn [world_after store trace].
      rewrite Htrace, <- !app_assoc. eexists. reflexivity.
    + rewrite bind_ret, bind_get. unfold trackEvent, emit. cbn [world_after store trace].
      rewrite Htrace, <- !app_assoc. eexists. reflexivity.
  - pose proof (submitContact_rejected_keeps w1) as Hkeeps.
    destruct (submitContact_rejected w1) as [[] w2|err2 w2|]; [| |contradiction];
      destruct Hkeeps as [_ [d2 [Hd2 _]]]; cbn [world_after];
      rewrite Hd2, Htrace, <- !app_assoc; eexists; reflexivity.
Qed.

Lemma submission_invariant_step net payload t0 t t' :
  submission_invariant net payload t0 t ->
  step net payload t t' ->
  submission_invariant net payload t0 t'.
Proof.
  intros [[delta [Htrace Hjoin]] [Hresponse Htiming]] Hstep.
  destruct Hstep as [t d | t due Hdue Hle | t Hlead Hok | t Hlead Hfail
                    | t Hresumed Hseq Hlead | t Hresumed Hlead].
  - (* time passes *)
    split; [|split].
    + exists delta. split; assumption.
    + exact Hresponse.
    + cbn [elapse sequence timer_due steps_left now].
      destruct (sequence t); [| |contradiction].
      * destruct Htiming as [due [Hdue Hbound]]. exists due. split; assumption.
      * destruct Htiming as [Hnone [Hleft Hbound]]. repeat split; try assumption. lia.
  - (* the timer fires *)
    unfold sequence_turn.
    destruct (sequence t) eqn:Hseq; [| |contradiction].
    + destruct Htiming as [due' [Hdue' Hbound]]. rewrite Hdue in Hdue'. injection Hdue' as <-.
      destruct (steps_left t) as [|next rest] eqn:Hleft; cbn; (split; [|split]).
      * exists delta. split; [exact Htrace|]. intros Hup.
        destruct (Hjoin Hup) as [Hf _]. discriminate Hf.
      * exact Hresponse.
      * repeat split. cbn in Hbound. unfold analysisStepDelay in *. cbn in *. lia.
      * exists delta. split; [exact Htrace|]. intros Hup.
        destruct (Hjoin Hup) as [Hf _]. discriminate Hf.
      * exact Hresponse.
      * eexists. split; [reflexivity|].
        cbn in Hbound. unfold analysisStepDelay in *. cbn in *. lia.
    + destruct Htiming as [Hnone _]. rewrite Hnone in Hdue. discriminate Hdue.
  - (* the lead request succeeds *)
    split; [|split].
    + exists delta. split; [exact Htrace|]. intros Hup.
      destruct (Hjoin Hup) as [_ [Hf _]]. rewrite Hlead in Hf. discriminate Hf.
    + intros _. exact Hok.
    + exact Htiming.
  - (* the lead request fails *)
    split; [|split].
    + exists delta. split; [exact Htrace|]. intros Hup.
      destruct (Hjoin Hup) as [_ [Hf _]]. rewrite Hlead in Hf. discriminate Hf.
    + cbn. discriminate.
    + exact Htiming.
  - (* submitContact resumes in its try block *)
    split; [|split].
    + cbn [resume world sequence lead resumed].
      assert (Hgrows : exists d, trace (world_after
                 (try_catch submitContact_fulfilled submitContact_rejected (world t))
                 (world t)) = trace (world t) ++ d).
      { apply submitContact_resume_grows. }
      destruct Hgrows as [d Hd]. exists (delta ++ d). split.
      * rewrite Hd, Htrace. symmetry. apply app_assoc.
      * intros _. auto.
    + exact Hresponse.
    + exact Htiming.
  - (* submitContact resumes in its catch block *)
    pose proof (submitContact_rejected_keeps (world t)) as Hkeeps.
    split; [|split].
    + cbn [resume world sequence lead resumed].
      destruct (submitContact_rejected (world t)) as [[] w1|err w1|]; [| |contradiction];
        destruct Hkeeps as [Hflag [d [Hd Hnone]]]; cbn [world_after];
        exists (delta ++ d);
        (split; [rewrite Hd, Htrace; symmetry; apply app_assoc|]);
        intros [Hup | [s Hin]].
      * rewrite Hflag in Hup. destruct (Hjoin (or_introl Hup)) as [_ [Hf _]].
        rewrite Hlead in Hf. discriminate Hf.
      * apply in_app_or in Hin as [Hin | Hin].
        -- destruct (Hjoin (or_intror (ex_intro _ s Hin))) as [_ [Hf _]].
           rewrite Hlead in Hf. discriminate Hf.
        -- exfalso. apply Hnone. exists s. exact Hin.
      * rewrite Hflag in Hup. destruct (Hjoin (or_introl Hup)) as [_ [Hf _]].
        rewrite Hlead in Hf. discriminate Hf.
      * apply in_app_or in Hin as [Hin | Hin].
        -- destruct (Hjoin (or_intror (ex_intro _ s Hin))) as [_ [Hf _]].
           rewrite Hlead in Hf. discriminate Hf.
        -- exfalso. apply Hnone. exists s. exact Hin.
    + exact Hresponse.
    + exact Htiming.
Qed.

(** C4. From the moment [submitContact] is suspended with the step
    sequence and the lead request both under way, the contact view-model
    shows [isSubmitted] (and [SUCCESS] has been fired) only in states in
    which both have completed: the lead request succeeded, the four steps
    were displayed and four delays of 1500 ms have elapsed, and
    [submitContact] has resumed. *)
Theorem submitContact_joins_before_submitted :
  forall (net : Network) (options : Options) (w : World)
         (payload : LeadPayload) (t0 t : Submission),
    isSubmitted (contactViewModel (store w)) = false ->
    submitContact options w = Suspended payload t0 ->
    steps net payload t0 t ->
    started_both payload t0
    /\ exists delta,
         trace (world t) = trace (world t0) ++ delta
         /\ (isSubmitted (contactViewModel (store (world t))) = true
             \/ fired_success delta ->
             joined net payload t).
Proof.
  intros net options w payload t0 t Hflag Hcall Hsteps.
  split; [apply (submitContact_suspended _ _ _ _ Hcall)|].
  assert (Hinv : submission_invariant net payload t0 t).
  { induction Hsteps as [|t1 t2 t3 Hsteps IH Hstep].
    - eapply submission_invariant_start; eassumption.
    - eapply submission_invariant_step; [apply IH; assumption | exact Hstep]. }
  destruct Hinv as [[delta [Htrace Hjoin]] [Hresponse Htiming]].
  exists delta. split; [exact Htrace|].
  intros Hup. destruct (Hjoin Hup) as [Hseq [Hlead Hresumed]].
  rewrite Hseq in Htiming. destruct Htiming as [_ [Hleft Hnow]].
  unfold joined. auto 10.
Qed.


Lemma submitContact_joins_before_submitted_witness :
  exists payload t0 t,
    submitContact [] typingContactWorld = Suspended payload t0
    /\ schedule (answeringNetwork []) payload leadThenSequence t0 = Some t
    /\ isSubmitted (contactViewModel (store (world t))) = true
    /\ flowState (store (world t)) = "estimateResults"
    /\ now t = 4 * 1500 + 3
    /\ started_both payload t0
    /\ joined (answeringNetwork []) payload t.
Proof.
  do 3 eexists.
  split; [vm_compute; reflexivity|].
  split; [vm_compute; reflexivity|].
  split; [vm_compute; reflexivity|].
  split; [vm_compute; reflexivity|].
  split; [vm_compute; reflexivity|].
  match goal with
  | |- started_both ?payload ?t0 /\ joined ?net ?payload ?t =>
      destruct (submitContact_joins_before_submitted net [] typingContactWorld payload t0 t)
        as [Hstarted [delta [_ Hjoined]]];
      [ reflexivity
      | vm_compute; reflexivity
      | apply (schedule_steps net payload leadThenSequence); vm_compute; reflexivity
      | split; [exact Hstarted | apply Hjoined; left; vm_compute; reflexivity] ]
  end.
Defined.

(** When the lead request fails, [submitContact] resumes in its [catch]
    block at once, while the step sequence is still running. *)
Example submitContact_lead_failure :
  exists payload t0 t,
    submitContact [] typingContactWorld = Suspended payload t0
    /\ schedule failingNetwork payload [Elapse 200; LeadSettles; Resumes] t0 = Some t
    /\ isSubmitted (contactViewModel (store (world t))) = false
    /\ flowState (store (world t)) = "contactFormError"
    /\ sequence t = Pending
    /\ now t = 200.
Proof.
  do 3 eexists. repeat (split; [vm_compute; reflexivity|]). vm_compute. reflexivity.
Qed.

(** * Further properties *)

(** ** The table as a graph *)

Lemma table_keys_spec m s :
  In s (table_keys m) <-> exists def, states m !! s = Some def.
Proof.
  unfold table_keys. rewrite in_map_iff. split.
  - intros [[s' def] [Heq Hin]]. cbn in Heq. subst s'.
    apply list_elem_of_In, elem_of_map_to_list in Hin. eauto.
  - intros [def Hdef]. exists (s, def). split; [reflexivity|].
    apply list_elem_of_In, elem_of_map_to_list. exact Hdef.
Qed.

Lemma string_in_In s l : string_in s l = true <-> In s l.
Proof.
  unfold string_in. rewrite existsb_exists. split.
  - intros [x [Hin Heq]]. apply String.eqb_eq in Heq. subst. exact Hin.
  - intros Hin. exists s. split; [exact Hin | apply String.eqb_refl].
Qed.

Lemma forallb_string_in l1 l2 :
  forallb (fun s => string_in s l2) l1 = true -> incl l1 l2.
Proof.
  rewrite forallb_forall. intros H s Hs. apply string_in_In. auto.
Qed.

Lemma in_table_states s :
  in_table s <-> exists def, states flowStateMachine !! s = Some def.
Proof.
  assert (H1 : forallb (fun s => string_in s (table_keys flowStateMachine)) table_states = true)
    by (vm_compute; reflexivity).
  assert (H2 : forallb (fun s => string_in s table_states) (table_keys flowStateMachine) = true)
    by (vm_compute; reflexivity).
  rewrite <- table_keys_spec. unfold in_table. split; intros Hin.
  - exact (forallb_string_in _ _ H1 _ Hin).
  - exact (forallb_string_in _ _ H2 _ Hin).
Qed.

Lemma targets_in_table s k t :
  defined_transition flowStateMachine s k = Some t -> in_table t.
Proof.
  assert (Hall : forallb (fun e => string_in (snd e) table_states) reference_edges = true)
    by (vm_compute; reflexivity).
  intros Hdef. apply table_is_reference_graph in Hdef.
  rewrite forallb_forall in Hall. apply string_in_In. exact (Hall _ Hdef).
Qed.

(** [fire] in a state of the table returns, and the flow stays in the table. *)
Lemma fired_in_table event w :
  in_table (flowState (store w)) ->
  exists w',
    fired event w = Returns tt w'
    /\ in_table (flowState (store w'))
    /\ same_models (store w) (store w')
    /\ flowState (store w')
       = match defined_transition flowStateMachine (flowState (store w)) (event_name event) with
         | Some t => t
         | None => flowState (store w)
         end
    /\ trace w'
       = trace w ++ Fired (flowState (store w)) event
           :: match defined_transition flowStateMachine (flowState (store w))
                      (event_name event) with
              | Some _ => []
              | None => [invalidTransitionRecord (flowState (store w)) event]
              end.
Proof.
  intros Hin. unfold fired.
  destruct (defined_transition flowStateMachine (flowState (store w)) (event_name event))
    as [t|] eqn:Hdef.
  - eexists. split; [reflexivity|]. cbn.
    split; [exact (targets_in_table _ _ _ Hdef)|]. repeat split.
  - apply in_table_states in Hin as [def Hstate]. rewrite Hstate.
    eexists. split; [reflexivity|]. cbn. rewrite <- app_assoc.
    split; [apply in_table_states; eauto|]. repeat split.
Qed.

Lemma same_models_refl s : same_models s s.
Proof. repeat split. Qed.

Lemma same_models_trans s1 s2 s3 :
  same_models s1 s2 -> same_models s2 s3 -> same_models s1 s3.
Proof.
  intros [Ha [Hc He]] [Ha' [Hc' He']]. unfold same_models.
  rewrite Ha', Hc', He'. auto.
Qed.

(** X1. Whatever events are fired, one after the other, from a state of
    the table, no call throws, the flow state stays a state of the table
    and the view-models are not touched. *)
Theorem fire_all_stays_in_table :
  forall (events : list Event) (w : World),
    in_table (flowState (store w)) ->
    exists w',
      fire_all events w = Returns tt w'
      /\ in_table (flowState (store w'))
      /\ same_models (store w) (store w').
Proof.
  induction events as [|event rest IH]; intros w Hin; cbn [fire_all].
  - exists w. split; [reflexivity|]. split; [exact Hin | apply same_models_refl].
  - rewrite bind_fire.
    destruct (fired_in_table event w Hin) as [w1 [Hrun [Hin1 [Hsame1 _]]]].
    rewrite Hrun. destruct (IH w1 Hin1) as [w' [Hrest [Hin' Hsame']]].
    exists w'. split; [exact Hrest|]. split; [exact Hin'|].
    eapply same_models_trans; eassumption.
Qed.

Lemma fire_all_stays_in_table_witness :
  exists w',
    fire_all [SUBMIT_ADDRESS; EXIT; ERROR; SUBMIT_CONTACT; SUCCESS; SCHEDULE] initialWorld
    = Returns tt w'
    /\ in_table (flowState (store w'))
    /\ same_models (store initialWorld) (store w').
Proof.
  apply (fire_all_stays_in_table
           [SUBMIT_ADDRESS; EXIT; ERROR; SUBMIT_CONTACT; SUCCESS; SCHEDULE] initialWorld).
  left. reflexivity.
Defined.

Lemma fire_all_follow events : forall w t,
  follow (flowState (store w)) events = Some t ->
  fire_all events w
  = Returns tt {| store := match events with
                           | [] => store w
                           | _ => set_flowState t (store w)
                           end;
                  trace := trace w ++ firings (flowState (store w)) events |}.
Proof.
  induction events as [|event rest IH]; intros w t; cbn [follow fire_all firings].
  - intros _. rewrite app_nil_r. destruct w; reflexivity.
  - destruct (defined_transition flowStateMachine (flowState (store w)) (event_name event))
      as [t1|] eqn:Hdef; [|discriminate].
    intros Hrest. rewrite bind_fire. unfold fired. rewrite Hdef.
    cbn [record_effect store trace].
    rewrite (IH _ t) by exact Hrest. cbn [store trace flowState set_flowState].
    rewrite <- app_assoc. destruct rest; [|reflexivity].
    cbn in Hrest. injection Hrest as <-. reflexivity.
Qed.

(** X3. The table is strongly connected: from every state of the table at
    most three events lead back to [default], and every state is reached
    from [default] by at most four, all of them along entries of the
    table. *)
Theorem table_strongly_connected :
  forall s : string,
    in_table s ->
    (exists events, length events <= 3 /\ follow s events = Some "default")
    /\ (exists events, length events <= 4 /\ follow "default" events = Some s).
Proof.
  intros s Hin. unfold in_table, table_states in Hin. cbn [In] in Hin.
  repeat (destruct Hin as [<- | Hin]); [.. | contradiction].
  - split; [exists [] | exists []]; (split; [cbn; lia | vm_compute; reflexivity]).
  - split; [exists [SUCCESS; EXIT] | exists [SUBMIT_ADDRESS]];
      (split; [cbn; lia | vm_compute; reflexivity]).
  - split; [exists [SUBMIT_ADDRESS; SUCCESS; EXIT] | exists [SUBMIT_ADDRESS; ERROR]];
      (split; [cbn; lia | vm_compute; reflexivity]).
  - split; [exists [EXIT] | exists [START_MODAL_FLOW]];
      (split; [cbn; lia | vm_compute; reflexivity]).
  - split; [exists [EXIT] | exists [START_MODAL_FLOW; SUBMIT_ADDRESS]];
      (split; [cbn; lia | vm_compute; reflexivity]).
  - split; [exists [EXIT] | exists [START_MODAL_FLOW; SUBMIT_ADDRESS; ERROR]];
      (split; [cbn; lia | vm_compute; reflexivity]).
  - split; [exists [EXIT] | exists [SUBMIT_ADDRESS; SUCCESS]];
      (split; [cbn; lia | vm_compute; reflexivity]).
  - split; [exists [EXIT] | exists [SUBMIT_ADDRESS; SUCCESS; SUBMIT_CONTACT]];
      (split; [cbn; lia | vm_compute; reflexivity]).
  - split; [exists [EXIT] | exists [SUBMIT_ADDRESS; SUCCESS; SUBMIT_CONTACT; ERROR]];
      (split; [cbn; lia | vm_compute; reflexivity]).
  - split; [exists [EXIT] | exists [SUBMIT_ADDRESS; SKIP_CONTACT]];
      (split; [cbn; lia | vm_compute; reflexivity]).
  - split; [exists [EXIT] | exists [SUBMIT_ADDRESS; SKIP_CONTACT; SCHEDULE]];
      (split; [cbn; lia | vm_compute; reflexivity]).
  - split; [exists [EXIT] | exists [SUBMIT_ADDRESS; SKIP_CONTACT; REQUEST_COMMUNITY]];
      (split; [cbn; lia | vm_compute; reflexivity]).
Qed.

Lemma table_strongly_connected_witness :
  (exists events, length events <= 3 /\ follow "addressFormError" events = Some "default")
  /\ (exists events, length events <= 4 /\ follow "default" events = Some "addressFormError").
Proof.
  apply (table_strongly_connected "addressFormError").
  right. right. left. reflexivity.
Defined.

(** ** The modal helpers and the estimate view-model *)

Ltac each_table_state H :=
  unfold in_table, table_states in H; cbn [In] in H;
  repeat (destruct H as [<- | H]); [.. | contradiction].

(** X2. The modal is open exactly in the states that have an [EXIT]
    transition.  There [handleModalClose] of [index.js] takes the flow to
    [default]; in the other states of the table it changes nothing in the
    store and leaves an invalid-transition record before its own. *)
Theorem modal_open_iff_exit_defined :
  forall w : World,
    in_table (flowState (store w)) ->
    (isOpen (store w) = true <->
     defined_transition flowStateMachine (flowState (store w)) (event_name EXIT)
     = Some "default")
    /\ (isOpen (store w) = true -> handleModalClose w = Returns tt (exited w))
    /\ (isOpen (store w) = false ->
        handleModalClose w
        = Returns tt (refused EXIT (Tracked "Get Offer Modal Closed" []) w)).
Proof.
  intros [[a c e f] tr] Hin. cbn [store flowState] in Hin.
  unfold handleModalClose, exited, refused, isOpen. store_simpl.
  each_table_state Hin;
    (split; [split; intros H; first [vm_compute; reflexivity | vm_compute in H; discriminate H] |]);
    (split; intros H; first [discriminate H | idtac]);
    mstep; unfold trackEvent, emit; store_simpl; rewrite ?trace_delta; reflexivity.
Qed.

Lemma modal_open_iff_exit_defined_witness :
  (isOpen (store typingContactWorld) = true <->
   defined_transition flowStateMachine "contactForm" (event_name EXIT) = Some "default")
  /\ (isOpen (store typingContactWorld) = true ->
      handleModalClose typingContactWorld = Returns tt (exited typingContactWorld))
  /\ (isOpen (store typingContactWorld) = false ->
      handleModalClose typingContactWorld
      = Returns tt (refused EXIT (Tracked "Get Offer Modal Closed" []) typingContactWorld)).
Proof.
  apply (modal_open_iff_exit_defined typingContactWorld).
  vm_compute. do 6 right. left. reflexivity.
Defined.

(** X4. [handleModalFlowStart] opens the modal from [default] only: in any
    other state of the table the store stays as it is and an
    invalid-transition record precedes the "opened" record, which is
    tracked all the same.  Opening from [default] and closing again gives
    the store back unchanged. *)
Theorem handleModalFlowStart_only_from_default :
  forall w : World,
    in_table (flowState (store w)) ->
    (flowState (store w) = "default" ->
     handleModalFlowStart w
     = Returns tt (moved START_MODAL_FLOW "modalAddressForm"
                     (Tracked "Modal Get Offer Flow Opened" []) w)
     /\ exists w',
         open_then_close w = Returns tt w'
         /\ store w' = store w
         /\ trace w' = trace w ++ [Fired "default" START_MODAL_FLOW;
                                   Tracked "Modal Get Offer Flow Opened" [];
                                   Fired "modalAddressForm" EXIT;
                                   Tracked "Get Offer Modal Closed" []])
    /\ (flowState (store w) <> "default" ->
        handleModalFlowStart w
        = Returns tt (refused START_MODAL_FLOW
                        (Tracked "Modal Get Offer Flow Opened" []) w)).
Proof.
  intros [[a c e f] tr] Hin. cbn [store flowState] in Hin.
  unfold open_then_close, handleModalClose, handleModalFlowStart, moved, refused.
  store_simpl.
  each_table_state Hin;
    (split; intros H;
     [ first [discriminate H | idtac]
     | first [exfalso; apply H; reflexivity | idtac] ]).
  2-12: mstep; unfold trackEvent, emit; store_simpl; rewrite ?trace_delta; reflexivity.
  split.
  - mstep. unfold trackEvent, emit. store_simpl. rewrite ?trace_delta. reflexivity.
  - msteps. unfold trackEvent, emit. store_simpl. rewrite ?trace_delta.
    eexists. split; [reflexivity|]. split; reflexivity.
Qed.

Lemma handleModalFlowStart_only_from_default_witness :
  handleModalFlowStart initialWorld
  = Returns tt (moved START_MODAL_FLOW "modalAddressForm"
                  (Tracked "Modal Get Offer Flow Opened" []) initialWorld)
  /\ handleModalFlowStart typingContactWorld
     = Returns tt (refused START_MODAL_FLOW
                     (Tracked "Modal Get Offer Flow Opened" []) typingContactWorld).
Proof.
  split.
  - apply (handleModalFlowStart_only_from_default initialWorld).
    + left. reflexivity.
    + reflexivity.
  - apply (handleModalFlowStart_only_from_default typingContactWorld).
    + vm_compute. do 6 right. left. reflexivity.
    + discriminate.
Defined.

(** X5. The two buttons of the estimate results act in [estimateResults]
    only: there they take the flow to [scheduleConsultation] and
    [requestedCommunity]; in every other state of the table the store is
    left as it is and the click is tracked after an invalid-transition
    record. *)
Theorem estimate_buttons_only_in_estimateResults :
  forall w : World,
    in_table (flowState (store w)) ->
    (flowState (store w) = "estimateResults" ->
     handleScheduleConsultationClick w
     = Returns tt (moved SCHEDULE "scheduleConsultation"
                     (Tracked "Schedule Consultation Clicked" (flowProperties (store w)))
                     (record_effect Intercepted w))
     /\ handleRequestCommunityClick w
        = Returns tt (moved REQUEST_COMMUNITY "requestedCommunity"
                        (Tracked "Community Requested" (flowProperties (store w)))
                        (record_effect Intercepted w)))
    /\ (flowState (store w) <> "estimateResults" ->
        handleScheduleConsultationClick w
        = Returns tt (refused SCHEDULE
                        (Tracked "Schedule Consultation Clicked" (flowProperties (store w)))
                        (record_effect Intercepted w))
        /\ handleRequestCommunityClick w
           = Returns tt (refused REQUEST_COMMUNITY
                           (Tracked "Community Requested" (flowProperties (store w)))
                           (record_effect Intercepted w))).
Proof.
  intros [[a c e f] tr] Hin. cbn [store flowState] in Hin.
  unfold handleScheduleConsultationClick, handleRequestCommunityClick, moved, refused.
  store_simpl.
  each_table_state Hin;
    (split; intros H;
     [ first [discriminate H | idtac]
     | first [exfalso; apply H; reflexivity | idtac] ]);
    (split; msteps; unfold trackEvent, emit; store_simpl; rewrite ?trace_delta; reflexivity).
Qed.

Lemma estimate_buttons_only_in_estimateResults_witness :
  handleScheduleConsultationClick
    {| store := set_flowState "estimateResults" completedStore; trace := [] |}
  = Returns tt
      (moved SCHEDULE "scheduleConsultation"
         (Tracked "Schedule Consultation Clicked" (flowProperties completedStore))
         (record_effect Intercepted
            {| store := set_flowState "estimateResults" completedStore; trace := [] |}))
  /\ handleRequestCommunityClick {| store := completedStore; trace := [] |}
     = Returns tt
         (refused REQUEST_COMMUNITY
            (Tracked "Community Requested" (flowProperties completedStore))
            (record_effect Intercepted {| store := completedStore; trace := [] |})).
Proof.
  split.
  - apply (estimate_buttons_only_in_estimateResults
             {| store := set_flowState "estimateResults" completedStore; trace := [] |}).
    + vm_compute. do 9 right. left. reflexivity.
    + reflexivity.
  - apply (estimate_buttons_only_in_estimateResults
             {| store := completedStore; trace := [] |}).
    + left. reflexivity.
    + discriminate.
Defined.

(** ** The address input *)

Lemma handleInput_cleared net w :
  handleInput net w
  = try_catch
      (do s <- get;
       do fetched <- fetchAddressMatches net (inputValue (addressViewModel s));
       modify (set_address (with_matches fetched)))
      (do _ <- modify (set_address (with_address_errorMessage inputErrorMessage));
       fire ERROR)
      {| store := cleared (store w); trace := trace w |}.
Proof.
  destruct w as [s tr]. unfold handleInput, cleared. cbn [store trace].
  rewrite bind_get. cbn [store].
  destruct (isSelected (addressViewModel s)); cbn [when];
    [rewrite bind_modify | rewrite bind_ret]; cbn [store trace];
    rewrite bind_get; cbn [store];
    match goal with |- context [when (hasParcelDetails ?a)] =>
      destruct (hasParcelDetails a) end; cbn [when];
    [rewrite bind_modify | rewrite bind_ret | rewrite bind_modify | rewrite bind_ret];
    cbn [store trace]; rewrite bind_get; cbn [store];
    match goal with |- context [when (hasResults ?a)] =>
      destruct (hasResults a) end; cbn [when];
    [rewrite bind_modify | rewrite bind_ret | rewrite bind_modify | rewrite bind_ret
    | rewrite bind_modify | rewrite bind_ret | rewrite bind_modify | rewrite bind_ret];
    cbn [store trace]; rewrite bind_get; cbn [store];
    match goal with |- context [when (isSubmitted ?a)] =>
      destruct (isSubmitted a) end; cbn [when];
    first [rewrite bind_modify | rewrite bind_ret]; reflexivity.
Qed.

Lemma cleared_invalidated s : invalidated (cleared s).
Proof.
  unfold cleared, invalidated.
  destruct s as [a c e f]. cbn [addressViewModel contactViewModel estimateViewModel].
  destruct (isSelected a) eqn:H1; store_simpl;
    match goal with |- context [hasParcelDetails ?x] => destruct (hasParcelDetails x) eqn:H2 end;
    store_simpl; destruct (hasResults e) eqn:H3; store_simpl;
    destruct (isSubmitted c) eqn:H4; store_simpl;
    unfold isSelected, hasParcelDetails, hasResults in *; store_simpl;
    repeat match goal with H : _ = _ |- _ => progress store_simpl_in H end; auto.
Qed.

Lemma cleared_keeps s :
  flowState (cleared s) = flowState s
  /\ inputValue (addressViewModel (cleared s)) = inputValue (addressViewModel s)
  /\ matches (addressViewModel (cleared s)) = matches (addressViewModel s)
  /\ keyboardNavIndex (addressViewModel (cleared s)) = keyboardNavIndex (addressViewModel s).
Proof.
  unfold cleared. destruct s as [a c e f].
  cbn [addressViewModel contactViewModel estimateViewModel].
  destruct (isSelected a); store_simpl;
    match goal with |- context [hasParcelDetails ?x] => destruct (hasParcelDetails x) end;
    store_simpl; destruct (hasResults e); store_simpl;
    destruct (isSubmitted c); store_simpl; auto.
Qed.

Lemma ranked data :
  length (filterSortAndSliceAddressMatches data) <= 10
  /\ Forall well_formed_match (filterSortAndSliceAddressMatches data)
  /\ StronglySorted ranks_before (filterSortAndSliceAddressMatches data).
Proof.
  unfold filterSortAndSliceAddressMatches.
  split; [apply firstn_le_length | split].
  - apply List.Forall_forall. intros m Hm. apply firstn_incl in Hm.
    apply (Permutation_in m (Permutation_sym (js_sort_perm _ _))) in Hm.
    apply filter_In in Hm as [_ Hkept]. exact (keeps_match_well_formed m Hkept).
  - apply firstn_sorted.
    apply (StronglySorted_weaken (fun a b => (compareMatchesScores a b <= 0)%Z)).
    + intros a b. apply compareMatchesScores_before.
    + apply js_sort_sorted.
      * intros a b Hab. apply compareMatchesScores_before.
        unfold compareMatchesScores, js_gt, js_lt in Hab. unfold ranks_before.
        destruct (Qcompare (score a) (score b)) eqn:Hcmp; try lia.
        apply Qlt_alt in Hcmp. apply Qlt_le_weak. exact Hcmp.
      * intros a b c Hab Hbc. apply compareMatchesScores_before.
        apply compareMatchesScores_before in Hab, Hbc. unfold ranks_before in *.
        eapply Qle_trans; eassumption.
Qed.

(** X6. When the typeahead request succeeds, [handleInput] returns with
    the ranked matches on display (at most 10, all usable, best score
    first) and with everything an earlier address left behind cleared; the
    flow state, the input text and the keyboard index are as before, and
    the request is the only effect. *)
Theorem handleInput_shows_ranked_matches :
  forall (net : Network) (w : World) (data : list Match),
    typeahead_response net (inputValue (addressViewModel (store w))) = Some data ->
    exists w',
      handleInput net w = Returns tt w'
      /\ matches (addressViewModel (store w')) = filterSortAndSliceAddressMatches data
      /\ length (matches (addressViewModel (store w'))) <= 10
      /\ Forall well_formed_match (matches (addressViewModel (store w')))
      /\ StronglySorted ranks_before (matches (addressViewModel (store w')))
      /\ invalidated (store w')
      /\ flowState (store w') = flowState (store w)
      /\ inputValue (addressViewModel (store w')) = inputValue (addressViewModel (store w))
      /\ keyboardNavIndex (addressViewModel (store w'))
         = keyboardNavIndex (addressViewModel (store w))
      /\ trace w'
         = trace w ++ [RequestedAddressMatches (inputValue (addressViewModel (store w)))].
Proof.
  intros net w data Hresponse. rewrite handleInput_cleared.
  destruct (cleared_keeps (store w)) as [Hflow [Hinput [_ Hindex]]].
  pose proof (cleared_invalidated (store w)) as Hclear.
  unfold try_catch, fetchAddressMatches.
  rewrite bind_get. cbn [store]. rewrite bind_assoc, bind_emit. cbn [store trace].
  rewrite Hinput, Hresponse, bind_ret. unfold modify. cbn [store trace].
  eexists. split; [reflexivity|]. cbn [store trace].
  destruct (ranked data) as [Hlen [Hwf Hsorted]].
  destruct Hclear as [H1 [H2 [H3 H4]]].
  destruct (cleared (store w)) as [a c e f]. cbn in *.
  repeat split; auto.
Qed.

Lemma handleInput_shows_ranked_matches_witness :
  exists w',
    handleInput (answeringNetwork (List.rev fiveMatches)) initialWorld = Returns tt w'
    /\ matches (addressViewModel (store w'))
       = filterSortAndSliceAddressMatches (List.rev fiveMatches)
    /\ length (matches (addressViewModel (store w'))) <= 10
    /\ Forall well_formed_match (matches (addressViewModel (store w')))
    /\ StronglySorted ranks_before (matches (addressViewModel (store w')))
    /\ invalidated (store w')
    /\ flowState (store w') = flowState (store initialWorld)
    /\ inputValue (addressViewModel (store w'))
       = inputValue (addressViewModel (store initialWorld))
    /\ keyboardNavIndex (addressViewModel (store w'))
       = keyboardNavIndex (addressViewModel (store initialWorld))
    /\ trace w'
       = trace initialWorld
         ++ [RequestedAddressMatches (inputValue (addressViewModel (store initialWorld)))].
Proof.
  apply (handleInput_shows_ranked_matches
           (answeringNetwork (List.rev fiveMatches)) initialWorld (List.rev fiveMatches)).
  reflexivity.
Defined.

Lemma error_target_processing s :
  in_table s ->
  (In s processing_states ->
   defined_transition flowStateMachine s (event_name ERROR) = Some (error_target s)
   /\ error_target s <> s)
  /\ (~ In s processing_states ->
      defined_transition flowStateMachine s (event_name ERROR) = None
      /\ error_target s = s).
Proof.
  intros Hin. each_table_state Hin; split; intros H;
    first [ split; [vm_compute; reflexivity | vm_compute; discriminate]
          | split; vm_compute; reflexivity
          | exfalso; cbn in H; intuition discriminate
          | exfalso; apply H; cbn; auto ].
Qed.

(** X7. When the typeahead request fails in a state of the table,
    [handleInput] returns with the error message set, the matches as they
    were and [ERROR] fired.  The flow moves only from one of the three
    processing states, to its error state; in every other state, [default]
    among them, it stays where it is and the failure leaves an
    invalid-transition record. *)
Theorem handleInput_failure :
  forall (net : Network) (w : World),
    typeahead_response net (inputValue (addressViewModel (store w))) = None ->
    in_table (flowState (store w)) ->
    exists w',
      handleInput net w = Returns tt w'
      /\ address_errorMessage (addressViewModel (store w')) = inputErrorMessage
      /\ matches (addressViewModel (store w')) = matches (addressViewModel (store w))
      /\ invalidated (store w')
      /\ flowState (store w') = error_target (flowState (store w))
      /\ (In (flowState (store w)) processing_states ->
          flowState (store w') <> flowState (store w)
          /\ trace w'
             = trace w ++ [RequestedAddressMatches (inputValue (addressViewModel (store w)));
                           Fired (flowState (store w)) ERROR])
      /\ (~ In (flowState (store w)) processing_states ->
          flowState (store w') = flowState (store w)
          /\ trace w'
             = trace w ++ [RequestedAddressMatches (inputValue (addressViewModel (store w)));
                           Fired (flowState (store w)) ERROR;
                           invalidTransitionRecord (flowState (store w)) ERROR]).
Proof.
  intros net w Hresponse Hin. rewrite handleInput_cleared.
  destruct (cleared_keeps (store w)) as [Hflow [Hinput [Hmatches _]]].
  pose proof (cleared_invalidated (store w)) as Hclear.
  unfold try_catch, fetchAddressMatches.
  rewrite bind_get. cbn [store]. rewrite bind_assoc, bind_emit. cbn [store trace].
  rewrite Hinput, Hresponse, bind_throw, bind_modify, fire_fired.
  match goal with |- context [fired ERROR ?w0] =>
    destruct (fired_in_table ERROR w0) as [w' [Hrun [_ [Hsame [Hstate Htrace]]]]]
  end.
  { cbn [store flowState set_address]. rewrite Hflow. exact Hin. }
  cbn [store trace flowState set_address] in Hstate, Htrace, Hsame.
  rewrite Hflow in Hstate, Htrace. fold (error_target (flowState (store w))) in Hstate.
  exists w'. split; [exact Hrun|].
  destruct Hsame as [Haddr [Hcontact Hestimate]].
  cbn [addressViewModel contactViewModel estimateViewModel set_address] in Haddr, Hcontact, Hestimate.
  destruct Hclear as [H1 [H2 [H3 H4]]].
  destruct (error_target_processing _ Hin) as [Hproc Hother].
  split; [rewrite Haddr; reflexivity|].
  split; [rewrite Haddr; cbn; exact Hmatches|].
  split.
  { unfold invalidated. rewrite Haddr, Hcontact, Hestimate.
    unfold isSelected, hasParcelDetails in *. cbn. auto. }
  split; [exact Hstate|]. split.
  - intros Hp. destruct (Hproc Hp) as [Hdef Hneq]. rewrite Hdef in Htrace.
    split; [rewrite Hstate; exact Hneq|]. rewrite Htrace, <- app_assoc. reflexivity.
  - intros Hp. destruct (Hother Hp) as [Hdef Heq]. rewrite Hdef in Htrace.
    split; [rewrite Hstate; exact Heq|]. rewrite Htrace, <- app_assoc. reflexivity.
Qed.

Lemma handleInput_failure_witness :
  exists w',
    handleInput failingNetwork initialWorld = Returns tt w'
    /\ address_errorMessage (addressViewModel (store w')) = inputErrorMessage
    /\ flowState (store w') = "default"
    /\ trace w' = [RequestedAddressMatches ""; Fired "default" ERROR;
                   invalidTransitionRecord "default" ERROR].
Proof.
  destruct (handleInput_failure failingNetwork initialWorld) as [w' [Hrun [Hmsg [_ [_ [_ [_ Hstays]]]]]]].
  - reflexivity.
  - left. reflexivity.
  - exists w'. destruct Hstays as [Hflow Htrace].
    + cbn. intuition discriminate.
    + auto.
Defined.

(** ** Keys and selection *)

Lemma handleMatchSelection_selecting m w :
  handleMatchSelection (Some m) w
  = Returns tt {| store := selecting m (store w);
                  trace := trace w ++ [selectionRecord m] |}.
Proof.
  unfold handleMatchSelection. rewrite !bind_modify. unfold trackEvent, emit.
  destruct w as [[a c e f] tr]. reflexivity.
Qed.

Lemma handleKeydown_arrows w :
  showing (store w) ->
  let n := Z.of_nat (length (matches (addressViewModel (store w)))) in
  let i := keyboardNavIndex (addressViewModel (store w)) in
  handleKeydown "ArrowUp" w = Returns tt (navigated (index_up n i) w)
  /\ handleKeydown "ArrowDown" w = Returns tt (navigated (index_down n i) w)
  /\ handleKeydown "Enter" w
     = if (i =? -1)%Z then Returns tt (record_effect Intercepted w)
       else handleMatchSelection (matches_at (matches (addressViewModel (store w))) i)
              (record_effect Intercepted w).
Proof.
  intros [Hsel Hne] n i. pose proof (showing_intercepts w Hsel Hne) as Hshow.
  unfold handleKeydown. cbn [String.eqb Ascii.eqb Bool.eqb negb andb].
  rewrite !bind_get, Hshow, !bind_emit. fold i. fold n.
  split; [reflexivity | split; [reflexivity|]].
  destruct (i =? -1)%Z; reflexivity.
Qed.

Lemma navigated_showing v w : showing (store w) -> showing (store (navigated v w)).
Proof. intros H. destruct w as [[a c e f] tr]. exact H. Qed.

(** X8. Selecting a match the ranking keeps makes it the selected address:
    [isSelected] holds, the input shows its address and context, the list
    is emptied and the index reset.  From then on [handleKeydown] passes
    every key through. *)
Theorem selection_closes_the_list :
  forall (m : Match) (w : World),
    keeps_match m = true ->
    exists w',
      handleMatchSelection (Some m) w = Returns tt w'
      /\ isSelected (addressViewModel (store w')) = true
      /\ selectedMatch (addressViewModel (store w')) = Some m
      /\ (forall street place,
             address m = Some street -> context m = Some place ->
             inputValue (addressViewModel (store w'))
             = String.append street (String.append ", " place))
      /\ matches (addressViewModel (store w')) = []
      /\ keyboardNavIndex (addressViewModel (store w')) = (-1)%Z
      /\ forall key, handleKeydown key w' = Returns tt w'.
Proof.
  intros m w Hkeeps. rewrite handleMatchSelection_selecting.
  eexists. split; [reflexivity|].
  assert (Hsel : isSelected (addressViewModel (selecting m (store w))) = true).
  { unfold keeps_match in Hkeeps. apply andb_true_iff in Hkeeps as [Hk _].
    apply andb_true_iff in Hk as [Hk _]. destruct w as [[a c e f] tr]. exact Hk. }
  destruct w as [[a c e f] tr]. cbn [store].
  split; [exact Hsel|]. split; [reflexivity|]. split.
  - intros street place Hs Hp. cbn. rewrite Hs, Hp. reflexivity.
  - split; [reflexivity|]. split; [reflexivity|].
    intros key. apply handleKeydown_not_showing. left. exact Hsel.
Qed.

Lemma selection_closes_the_list_witness :
  exists w',
    handleMatchSelection (Some (sampleMatch "uuid-3" "123 Elm St" (7 # 1))) threeShownWorld
    = Returns tt w'
    /\ isSelected (addressViewModel (store w')) = true
    /\ inputValue (addressViewModel (store w')) = "123 Elm St, Sacramento, CA"
    /\ handleKeydown "ArrowDown" w' = Returns tt w'.
Proof.
  destruct (selection_closes_the_list (sampleMatch "uuid-3" "123 Elm St" (7 # 1))
              threeShownWorld) as [w' [Hrun [Hsel [_ [Hinput [_ [_ Hkeys]]]]]]].
  - reflexivity.
  - exists w'. split; [exact Hrun|]. split; [exact Hsel|].
    split; [exact (Hinput "123 Elm St" "Sacramento, CA" eq_refl eq_refl) | apply Hkeys].
Defined.

(** X9. While the list is on display and the index is [-1] or a position
    of the list, the two arrow keys keep it so and undo one another:
    [ArrowDown] then [ArrowUp], and [ArrowUp] then [ArrowDown], leave the
    store as it was. *)
Theorem arrow_keys_undo_one_another :
  forall w : World,
    showing (store w) ->
    index_in_range (store w) ->
    (exists w1, handleKeydown "ArrowDown" w = Returns tt w1 /\ index_in_range (store w1))
    /\ (exists w1, handleKeydown "ArrowUp" w = Returns tt w1 /\ index_in_range (store w1))
    /\ (exists w', press2 "ArrowDown" "ArrowUp" w = Returns tt w' /\ store w' = store w)
    /\ (exists w', press2 "ArrowUp" "ArrowDown" w = Returns tt w' /\ store w' = store w).
Proof.
  intros w Hshow Hrange.
  destruct (handleKeydown_arrows w Hshow) as [Hup [Hdown _]]. cbv zeta in Hup, Hdown.
  unfold press2. unfold bind. rewrite Hup, Hdown.
  destruct (handleKeydown_arrows _ (navigated_showing (index_up
              (Z.of_nat (length (matches (addressViewModel (store w)))))
              (keyboardNavIndex (addressViewModel (store w)))) w Hshow)) as [_ [Hdown' _]].
  destruct (handleKeydown_arrows _ (navigated_showing (index_down
              (Z.of_nat (length (matches (addressViewModel (store w)))))
              (keyboardNavIndex (addressViewModel (store w)))) w Hshow)) as [Hup' _].
  cbv zeta in Hup', Hdown'. rewrite Hup', Hdown'.
  unfold index_in_range in *.
  destruct w as [[a c e f] tr]. cbn [store navigated set_address addressViewModel
    with_keyboardNavIndex keyboardNavIndex matches] in *.
  set (n := Z.of_nat (length (matches a))) in *.
  set (i := keyboardNavIndex a) in *.
  assert (Hud : index_up n (index_down n i) = i).
  { unfold index_up, index_down.
    destruct (i >=? n - 1)%Z eqn:H1; rewrite Z.geb_leb in H1.
    - apply Z.leb_le in H1. cbn. lia.
    - apply Z.leb_gt in H1. destruct (i + 1 <=? -1)%Z eqn:H2; [apply Z.leb_le in H2|]; lia. }
  assert (Hdu : index_down n (index_up n i) = i).
  { unfold index_up, index_down.
    destruct (i <=? -1)%Z eqn:H1.
    - apply Z.leb_le in H1. rewrite Z.geb_leb, Z.leb_refl. lia.
    - apply Z.leb_gt in H1. rewrite Z.geb_leb.
      destruct (n - 1 <=? i - 1)%Z eqn:H2; [apply Z.leb_le in H2|]; lia. }
  repeat split.
  - eexists. split; [reflexivity|]. cbn. fold n i. unfold index_down.
    destruct (i >=? n - 1)%Z eqn:H1; rewrite Z.geb_leb in H1;
      [apply Z.leb_le in H1 | apply Z.leb_gt in H1]; lia.
  - eexists. split; [reflexivity|]. cbn. fold n i. unfold index_up.
    destruct (i <=? -1)%Z eqn:H1; [apply Z.leb_le in H1 | apply Z.leb_gt in H1]; lia.
  - eexists. split; [reflexivity|]. cbn. fold n i. rewrite Hud.
    subst i. destruct a; reflexivity.
  - eexists. split; [reflexivity|]. cbn. fold n i. rewrite Hdu.
    subst i. destruct a; reflexivity.
Qed.

Lemma arrow_keys_undo_one_another_witness :
  (exists w1, handleKeydown "ArrowDown" threeShownWorld = Returns tt w1
              /\ index_in_range (store w1))
  /\ (exists w1, handleKeydown "ArrowUp" threeShownWorld = Returns tt w1
                 /\ index_in_range (store w1))
  /\ (exists w', press2 "ArrowDown" "ArrowUp" threeShownWorld = Returns tt w'
                 /\ store w' = store threeShownWorld)
  /\ (exists w', press2 "ArrowUp" "ArrowDown" threeShownWorld = Returns tt w'
                 /\ store w' = store threeShownWorld).
Proof.
  apply (arrow_keys_undo_one_another threeShownWorld).
  - split; [reflexivity | discriminate].
  - vm_compute. split; [discriminate | reflexivity].
Defined.

Lemma nth_error_last {A} (l : list A) : forall x d,
  nth_error (x :: l) (length l) = Some (List.last (x :: l) d).
Proof.
  induction l as [|y l IH]; intros x d; [reflexivity|].
  cbn [length nth_error]. rewrite (IH y d). reflexivity.
Qed.

(** X10. With the list on display and nothing highlighted, [ArrowDown]
    then [Enter] selects the first match, and [ArrowUp] then [Enter] the
    last one. *)
Theorem arrow_then_enter_selects :
  forall (w : World) (first : Match) (rest : list Match),
    isSelected (addressViewModel (store w)) = false ->
    matches (addressViewModel (store w)) = first :: rest ->
    keyboardNavIndex (addressViewModel (store w)) = (-1)%Z ->
    press2 "ArrowDown" "Enter" w
    = Returns tt {| store := selecting first (store w);
                    trace := trace w ++ [Intercepted; Intercepted; selectionRecord first] |}
    /\ press2 "ArrowUp" "Enter" w
       = Returns tt {| store := selecting (List.last (first :: rest) first) (store w);
                       trace := trace w ++ [Intercepted; Intercepted;
                                            selectionRecord (List.last (first :: rest) first)] |}.
Proof.
  intros w first rest Hsel Hmatches Hindex.
  assert (Hshow : showing (store w)).
  { split; [exact Hsel | rewrite Hmatches; discriminate]. }
  destruct (handleKeydown_arrows w Hshow) as [Hup [Hdown _]]. cbv zeta in Hup, Hdown.
  rewrite Hindex, Hmatches in Hup, Hdown.
  unfold press2, bind. rewrite Hup, Hdown.
  destruct (handleKeydown_arrows _ (navigated_showing
              (index_up (Z.of_nat (length (first :: rest))) (-1)) w Hshow)) as [_ [_ Hlast]].
  destruct (handleKeydown_arrows _ (navigated_showing
              (index_down (Z.of_nat (length (first :: rest))) (-1)) w Hshow)) as [_ [_ Hfirst]].
  cbv zeta in Hlast, Hfirst. rewrite Hlast, Hfirst. clear Hlast Hfirst Hup Hdown.
  destruct w as [[a c e f] tr].
  cbn [store navigated set_address addressViewModel with_keyboardNavIndex
       keyboardNavIndex matches record_effect trace] in *.
  rewrite Hmatches.
  assert (Hd : index_down (Z.of_nat (length (first :: rest))) (-1) = 0%Z).
  { unfold index_down. rewrite Z.geb_leb.
    destruct (Z.of_nat (length (first :: rest)) - 1 <=? -1)%Z eqn:H;
      [apply Z.leb_le in H; cbn [length] in H; lia | reflexivity]. }
  assert (Hu : index_up (Z.of_nat (length (first :: rest))) (-1)
               = Z.of_nat (length rest)).
  { unfold index_up. change (-1 <=? -1)%Z with true. cbv iota. cbn [length]. lia. }
  rewrite Hd, Hu. split.
  - change (0 =? -1)%Z with false. unfold matches_at. change (0 <? 0)%Z with false.
    change (Z.to_nat 0) with 0%nat. cbv iota. cbn [nth_error].
    rewrite handleMatchSelection_selecting.
    cbn [store trace navigated record_effect set_address].
    rewrite ?trace_delta. cbn [app].
    reflexivity.
  - replace (Z.of_nat (length rest) =? -1)%Z with false by (symmetry; apply Z.eqb_neq; lia).
    unfold matches_at.
    replace (Z.of_nat (length rest) <? 0)%Z with false by (symmetry; apply Z.ltb_ge; lia).
    rewrite Nat2Z.id, (nth_error_last rest first first), handleMatchSelection_selecting.
    cbn [store trace navigated record_effect set_address].
    rewrite ?trace_delta. reflexivity.
Qed.

Lemma arrow_then_enter_selects_witness :
  press2 "ArrowDown" "Enter" threeShownWorld
  = Returns tt {| store := selecting (sampleMatch "uuid-1" "1 Elm St" (9 # 1))
                             (store threeShownWorld);
                  trace := [Intercepted; Intercepted;
                            selectionRecord (sampleMatch "uuid-1" "1 Elm St" (9 # 1))] |}
  /\ press2 "ArrowUp" "Enter" threeShownWorld
     = Returns tt {| store := selecting (sampleMatch "uuid-3" "123 Elm St" (7 # 1))
                                (store threeShownWorld);
                     trace := [Intercepted; Intercepted;
                               selectionRecord (sampleMatch "uuid-3" "123 Elm St" (7 # 1))] |}.
Proof.
  apply (arrow_then_enter_selects threeShownWorld
           (sampleMatch "uuid-1" "1 Elm St" (9 # 1))
           [sampleMatch "uuid-2" "12 Elm St" (8 # 1);
            sampleMatch "uuid-3" "123 Elm St" (7 # 1)]); reflexivity.
Defined.

(** ** No handler of the address form throws *)

Lemma returns_keeps {A} (c : M A) : returns_in_table c -> keeps_table c.
Proof. intros H w Hin. destruct (H w Hin) as [a [w' [-> Hin']]]. exact Hin'. Qed.

Lemma returns_ret {A} (a : A) : returns_in_table (ret a).
Proof. intros w Hin. exists a, w. split; [reflexivity | exact Hin]. Qed.

Lemma returns_get : returns_in_table get.
Proof. intros w Hin. exists (store w), w. split; [reflexivity | exact Hin]. Qed.

Lemma returns_emit e : returns_in_table (emit e).
Proof. intros w Hin. eexists _, _. split; [reflexivity | exact Hin]. Qed.

Lemma returns_trackEvent n p : returns_in_table (trackEvent n p).
Proof. apply returns_emit. Qed.

Lemma returns_modify f :
  (forall s, flowState (f s) = flowState s) -> returns_in_table (modify f).
Proof.
  intros Hf w Hin. eexists _, _. split; [reflexivity|]. cbn [store]. rewrite Hf. exact Hin.
Qed.

Lemma returns_fire event : returns_in_table (fire event).
Proof.
  intros w Hin. rewrite fire_fired.
  destruct (fired_in_table event w Hin) as [w' [Hrun [Hin' _]]]. eauto.
Qed.

Lemma keeps_throw {A} e : keeps_table (@throw A e).
Proof. intros w Hin. exact Hin. Qed.

Lemma returns_bind {A B} (c : M A) (k : A -> M B) :
  returns_in_table c -> (forall a, returns_in_table (k a)) -> returns_in_table (bind c k).
Proof.
  intros Hc Hk w Hin. destruct (Hc w Hin) as [a [w1 [Hrun Hin1]]].
  unfold bind. rewrite Hrun. exact (Hk a w1 Hin1).
Qed.

Lemma keeps_bind {A B} (c : M A) (k : A -> M B) :
  keeps_table c -> (forall a, keeps_table (k a)) -> keeps_table (bind c k).
Proof.
  intros Hc Hk w Hin. specialize (Hc w Hin). unfold bind.
  destruct (c w) as [a w1|e w1|e tr]; [exact (Hk a w1 Hc) | exact Hc | exact Hc].
Qed.

Lemma returns_try_catch body handler :
  keeps_table body -> returns_in_table handler -> returns_in_table (try_catch body handler).
Proof.
  intros Hbody Hhandler w Hin. specialize (Hbody w Hin). unfold try_catch.
  destruct (body w) as [[] w1|e w1|e tr]; [eauto | exact (Hhandler w1 Hbody) | contradiction].
Qed.

Lemma keeps_fetchParcelDetails net id : keeps_table (fetchParcelDetails net id).
Proof.
  unfold fetchParcelDetails. apply keeps_bind; [apply returns_keeps, returns_emit|].
  intros _. destruct (parcel_response net id) as [[|fields rest]|]; cbn [filterParcelDetails];
    first [apply keeps_throw | apply returns_keeps, returns_ret].
Qed.

Lemma keeps_fetchEstimateResults net payload :
  keeps_table (fetchEstimateResults net payload).
Proof.
  unfold fetchEstimateResults. apply keeps_bind; [apply returns_keeps, returns_emit|].
  intros _. destruct (estimate_response net payload);
    first [apply keeps_throw | apply returns_keeps, returns_ret].
Qed.

Lemma keeps_fetchAddressMatches net query : keeps_table (fetchAddressMatches net query).
Proof.
  unfold fetchAddressMatches. apply keeps_bind; [apply returns_keeps, returns_emit|].
  intros _. destruct (typeahead_response net query);
    first [apply keeps_throw | apply returns_keeps, returns_ret].
Qed.

Ltac table_safe :=
  repeat
    match goal with
    | |- returns_in_table (bind _ _) => apply returns_bind; [|intros ?]
    | |- returns_in_table (ret _) => apply returns_ret
    | |- returns_in_table get => apply returns_get
    | |- returns_in_table (emit _) => apply returns_emit
    | |- returns_in_table (trackEvent _ _) => apply returns_trackEvent
    | |- returns_in_table (modify _) => apply returns_modify; intros ?; reflexivity
    | |- returns_in_table (fire _) => apply returns_fire
    | |- returns_in_table (try_catch _ _) => apply returns_try_catch
    | |- returns_in_table (when ?b _) => destruct b; cbn [when]
    | |- returns_in_table (if ?b then _ else _) => destruct b
    | |- keeps_table (bind _ _) => apply keeps_bind; [|intros ?]
    | |- keeps_table (throw _) => apply keeps_throw
    | |- keeps_table (fetchParcelDetails _ _) => apply keeps_fetchParcelDetails
    | |- keeps_table (fetchEstimateResults _ _) => apply keeps_fetchEstimateResults
    | |- keeps_table (fetchAddressMatches _ _) => apply keeps_fetchAddressMatches
    | |- keeps_table (when ?b _) => destruct b; cbn [when]
    | |- keeps_table (if ?b then _ else _) => destruct b
    | |- keeps_table _ => apply returns_keeps
    end.

Lemma returns_handleInput net : returns_in_table (handleInput net).
Proof. unfold handleInput. table_safe. Qed.

Lemma returns_submitAddress net options : returns_in_table (submitAddress net options).
Proof. unfold submitAddress. table_safe. Qed.

Lemma returns_handleSubmit net options :
  returns_in_table (address_handleSubmit net options).
Proof.
  unfold address_handleSubmit. apply returns_bind; [apply returns_emit|].
  intros _. apply returns_submitAddress.
Qed.

(** [handleKeydown] leaves the flow state alone, and throws in one case. *)
Lemma handleKeydown_outcome key w :
  match handleKeydown key w with
  | Returns _ w' => flowState (store w') = flowState (store w)
  | Throws _ _ => False
  | Faults _ _ => key = "Enter" /\ enter_misses (store w)
  end.
Proof.
  unfold handleKeydown.
  destruct (String.eqb key "Enter") eqn:Henter;
    destruct (String.eqb key "ArrowUp") eqn:Hup;
    destruct (String.eqb key "ArrowDown") eqn:Hdown;
    cbn [negb andb]; try reflexivity;
    rewrite bind_get;
    (destruct (isSelected (addressViewModel (store w))) eqn:Hsel; cbn [orb];
     [reflexivity|]);
    (destruct (length (matches (addressViewModel (store w))) =? 0)%nat eqn:Hlen;
     [reflexivity|]);
    rewrite bind_emit;
    try (unfold modify; reflexivity).
  all: destruct (keyboardNavIndex (addressViewModel (store w)) =? -1)%Z eqn:Hindex;
    cbn [negb]; try (unfold modify, ret; reflexivity).
  all: destruct (matches_at (matches (addressViewModel (store w)))
                   (keyboardNavIndex (addressViewModel (store w)))) as [m|] eqn:Hat;
    [ rewrite handleMatchSelection_selecting; destruct w as [[a c e f] tr]; reflexivity
    | cbn [handleMatchSelection];
      split; [apply String.eqb_eq; exact Henter|];
      split; [split; [exact Hsel|]|split; [apply Z.eqb_neq; exact Hindex | exact Hat]];
      intros Hnil; rewrite Hnil in Hlen; discriminate Hlen ].
Qed.

Lemma handleKeydown_faults w :
  enter_misses (store w) -> faults (handleKeydown "Enter" w).
Proof.
  intros [Hshow [Hindex Hat]].
  destruct (handleKeydown_arrows w Hshow) as [_ [_ Henter]]. cbv zeta in Henter.
  rewrite Henter. apply Z.eqb_neq in Hindex. rewrite Hindex, Hat. exact I.
Qed.

Lemma call_outcome c w :
  in_table (flowState (store w)) ->
  match call c w with
  | Returns _ w' => in_table (flowState (store w'))
  | Throws _ _ => False
  | Faults _ _ => snd c = HandleKeydown "Enter" /\ enter_misses (store w)
  end.
Proof.
  intros Hin. destruct c as [net [|key|m|options|options]]; cbn [call fst snd].
  - destruct (returns_handleInput net w Hin) as [a [w' [-> Hin']]]. exact Hin'.
  - pose proof (handleKeydown_outcome key w) as Hkey.
    destruct (handleKeydown key w) as [a w'|e w'|e tr].
    + rewrite Hkey. exact Hin.
    + exact Hkey.
    + destruct Hkey as [-> Hmiss]. split; [reflexivity | exact Hmiss].
  - rewrite handleMatchSelection_selecting. destruct w as [[a c e f] tr]. exact Hin.
  - destruct (returns_handleSubmit net options w Hin) as [a [w' [-> Hin']]]. exact Hin'.
  - destruct (returns_submitAddress net options w Hin) as [a [w' [-> Hin']]]. exact Hin'.
Qed.

(** X11. The handlers of the address form throw in one case only.  From a
    state of the table, calls of [handleInput], [handleKeydown],
    [handleMatchSelection] (with a match), [handleSubmit] and
    [submitAddress], in any order and each on any network, return one
    after the other with the flow in a state of the table (every failed
    request ends in a [catch] block), unless one of them is an [Enter]
    that finds no match at the keyboard index; and [handleKeydown] throws
    exactly then: on [Enter], with the list on display and an index that
    is not [-1] and no position of the list. *)
Theorem address_calls_throw_only_at_Enter :
  forall (l : list (Network * AddressCall)) (w : World),
    in_table (flowState (store w)) ->
    match calls l w with
    | Returns _ w' => in_table (flowState (store w'))
    | Throws _ _ => False
    | Faults _ _ => exists net, In (net, HandleKeydown "Enter") l
    end
    /\ forall key,
         faults (handleKeydown key w) <-> key = "Enter" /\ enter_misses (store w).
Proof.
  intros l w Hin. split.
  - revert w Hin. induction l as [|c l IH]; intros w Hin; [exact Hin|].
    cbn [calls]. unfold bind.
    pose proof (call_outcome c w Hin) as Hcall.
    destruct (call c w) as [a w'|e w'|e tr].
    + specialize (IH w' Hcall).
      destruct (calls l w') as [a' w''|e' w''|e' tr']; [exact IH | exact IH |].
      destruct IH as [net Hnet]. exists net. right. exact Hnet.
    + exact Hcall.
    + destruct c as [net c]. destruct Hcall as [Hc _]. cbn [snd] in Hc. subst c.
      exists net. left. reflexivity.
  - intros key. split.
    + intros Hfaults. pose proof (handleKeydown_outcome key w) as Hkey.
      destruct (handleKeydown key w); [contradiction | contradiction | exact Hkey].
    + intros [-> Hmiss]. exact (handleKeydown_faults w Hmiss).
Qed.

Lemma address_calls_throw_only_at_Enter_witness :
  match calls [(failingNetwork, HandleInput);
               (failingNetwork, HandleKeydown "ArrowDown");
               (failingNetwork, SubmitAddress []);
               (answeringNetwork twoMatches, HandleSubmit [])] typingContactWorld with
  | Returns _ w' => in_table (flowState (store w'))
  | Throws _ _ => False
  | Faults _ _ =>
      exists net,
        In (net, HandleKeydown "Enter")
          [(failingNetwork, HandleInput);
           (failingNetwork, HandleKeydown "ArrowDown");
           (failingNetwork, SubmitAddress []);
           (answeringNetwork twoMatches, HandleSubmit [])]
  end
  /\ forall key,
       faults (handleKeydown key typingContactWorld)
       <-> key = "Enter" /\ enter_misses (store typingContactWorld).
Proof.
  apply (address_calls_throw_only_at_Enter
           [(failingNetwork, HandleInput);
            (failingNetwork, HandleKeydown "ArrowDown");
            (failingNetwork, SubmitAddress []);
            (answeringNetwork twoMatches, HandleSubmit [])] typingContactWorld).
  vm_compute. do 6 right. left. reflexivity.
Defined.

(** The exception happens: after the list shrank under a highlighted
    entry, [Enter] throws. *)
Example Enter_misses_at_stale_index :
  enter_misses (store staleIndexWorld)
  /\ faults (handleKeydown "Enter" staleIndexWorld).
Proof.
  assert (Hmiss : enter_misses (store staleIndexWorld)).
  { split; [split; [vm_compute; reflexivity | vm_compute; discriminate]|].
    split; [vm_compute; discriminate | vm_compute; reflexivity]. }
  split; [exact Hmiss | exact (handleKeydown_faults _ Hmiss)].
Qed.

(** ** What the ranking leaves out *)

Lemma StronglySorted_app_before {A} (R : A -> A -> Prop) (l1 l2 : list A) :
  StronglySorted R (l1 ++ l2) ->
  forall a b, In a l1 -> In b l2 -> R a b.
Proof.
  induction l1 as [|x l1 IH]; intros Hsorted a b Ha Hb; [contradiction|].
  cbn in Hsorted. apply StronglySorted_inv in Hsorted as [Hrest Hall].
  destruct Ha as [<- | Ha].
  - rewrite List.Forall_forall in Hall. apply Hall. apply in_or_app. right. exact Hb.
  - exact (IH Hrest a b Ha Hb).
Qed.

Lemma js_sort_ranked (l : list Match) :
  StronglySorted ranks_before (js_sort (fun a b => compareMatchesScores a b) l).
Proof.
  apply (StronglySorted_weaken (fun a b => (compareMatchesScores a b <= 0)%Z)).
  - intros a b. apply compareMatchesScores_before.
  - apply js_sort_sorted.
    + intros a b Hab. apply compareMatchesScores_before.
      unfold compareMatchesScores, js_gt, js_lt in Hab. unfold ranks_before.
      destruct (Qcompare (score a) (score b)) eqn:Hcmp; try lia.
      apply Qlt_alt in Hcmp. apply Qlt_le_weak. exact Hcmp.
    + intros a b c Hab Hbc. apply compareMatchesScores_before.
      apply compareMatchesScores_before in Hab, Hbc. unfold ranks_before in *.
      eapply Qle_trans; eassumption.
Qed.

(** X12. The slice loses nothing it need not lose: the entries on display
    together with the ones left out are exactly the usable entries of the
    response (each as often as the response has it), no entry left out has
    a higher score than one on display, nothing is left out when the
    response has at most 10 usable entries, and 10 are on display when it
    has at least 10. *)
Theorem filterSortAndSliceAddressMatches_best_ten :
  forall regridTypeaheadResponseData : list Match,
    let shown := filterSortAndSliceAddressMatches regridTypeaheadResponseData in
    exists dropped : list Match,
      Permutation (shown ++ dropped) (usable regridTypeaheadResponseData)
      /\ (forall a b, In a shown -> In b dropped -> ranks_before a b)
      /\ (length (usable regridTypeaheadResponseData) <= 10 -> dropped = [])
      /\ (10 <= length (usable regridTypeaheadResponseData) -> length shown = 10).
Proof.
  intros data shown. subst shown. unfold filterSortAndSliceAddressMatches, usable.
  set (sorted := js_sort (fun a b => compareMatchesScores a b) (List.filter keeps_match data)).
  assert (Hperm : Permutation (List.filter keeps_match data) sorted)
    by apply js_sort_perm.
  exists (skipn 10 sorted). split; [|split; [|split]].
  - rewrite firstn_skipn. symmetry. exact Hperm.
  - apply StronglySorted_app_before. rewrite firstn_skipn. apply js_sort_ranked.
  - intros Hfew. apply skipn_all2. rewrite <- (Permutation_length Hperm). exact Hfew.
  - intros Hmany. apply firstn_length_le. rewrite <- (Permutation_length Hperm). exact Hmany.
Qed.

Lemma scored_js_insert q x l :
  scored q (js_insert (fun a b => compareMatchesScores a b) x l) = scored q (x :: l).
Proof.
  induction l as [|y l IH]; [reflexivity|].
  cbn [js_insert]. destruct (compareMatchesScores x y <=? 0)%Z eqn:Hcmp; [reflexivity|].
  apply Z.leb_gt in Hcmp.
  assert (Hlt : (score x < score y)%Q).
  { unfold compareMatchesScores, js_gt, js_lt in Hcmp.
    destruct (Qcompare (score x) (score y)) eqn:Hc; try lia. apply Qlt_alt. exact Hc. }
  unfold scored in *. cbn [List.filter] in *. rewrite IH.
  destruct (Qeq_bool (score x) q) eqn:Hx; [|reflexivity].
  destruct (Qeq_bool (score y) q) eqn:Hy; [|reflexivity].
  apply Qeq_bool_iff in Hx, Hy. exfalso.
  apply (Qlt_irrefl q). rewrite <- Hx at 1. rewrite <- Hy. exact Hlt.
Qed.

Lemma scored_js_sort q l :
  scored q (js_sort (fun a b => compareMatchesScores a b) l) = scored q l.
Proof.
  induction l as [|x l IH]; [reflexivity|].
  cbn [js_sort]. rewrite scored_js_insert. unfold scored in *. cbn [List.filter].
  rewrite IH. reflexivity.
Qed.

(** X13. Ties keep the order of the response: for every score, the entries
    on display that have it are the first usable entries of the response
    that have it, in the order of the response. *)
Theorem filterSortAndSliceAddressMatches_stable :
  forall (regridTypeaheadResponseData : list Match) (q : Q),
    exists rest : list Match,
      scored q (usable regridTypeaheadResponseData)
      = scored q (filterSortAndSliceAddressMatches regridTypeaheadResponseData) ++ rest.
Proof.
  intros data q. unfold filterSortAndSliceAddressMatches, usable.
  set (sorted := js_sort (fun a b => compareMatchesScores a b) (List.filter keeps_match data)).
  exists (scored q (skipn 10 sorted)).
  rewrite <- (scored_js_sort q (List.filter keeps_match data)). fold sorted.
  rewrite <- (firstn_skipn 10 sorted) at 1. unfold scored. apply List.filter_app.
Qed.

(** ** Retrying an address submission *)

(** X14. When the parcel request of [submitAddress] is answered and the
    estimate request that follows fails, the parcel details fetched stay
    in the store, the estimate view-model is as before, the user-facing
    error message is set, [ERROR] is fired and the flow is in a state from
    which the address can be submitted again. *)
Theorem submitAddress_estimate_failure :
  forall (net : Network) (options : Options) (w : World)
         (fields : RegridFields) (rest : list RegridFields),
    submittable (flowState (store w)) ->
    hasParcelDetails (addressViewModel (store w)) = false ->
    hasResults (estimateViewModel (store w)) = false ->
    parcel_response net (selected_field ll_uuid (addressViewModel (store w)))
    = Some (fields :: rest) ->
    estimate_response net (payloadOf options fields w) = None ->
    fails_on_estimate net options fields w.
Proof.
  intros net options w fields rest Hsub Hp Hr Hparcel Hestimate.
  unfold fails_on_estimate, payloadOf in *.
  destruct w as [[a c e f] tr]. store_simpl_in Hsub. store_simpl_in Hp. store_simpl_in Hr.
  store_simpl_in Hparcel. store_simpl_in Hestimate. store_simpl.
  destruct Hsub as [-> | [-> | [-> | ->]]];
    enter_submitAddress;
    change (hasParcelDetails (with_address_errorMessage "" a)) with (hasParcelDetails a);
    rewrite Hp; cbn [andb negb when];
    rewrite bind_assoc; unfold fetchParcelDetails; rewrite bind_assoc; mstep;
    change (selected_field ll_uuid (with_address_errorMessage "" a))
      with (selected_field ll_uuid a);
    rewrite Hparcel; unfold filterParcelDetails; msteps;
    rewrite Hr; cbn [negb when];
    rewrite bind_assoc; unfold fetchEstimateResults; rewrite bind_assoc; mstep;
    match goal with
    | |- context [estimate_response net ?p] =>
        replace (estimate_response net p) with (@None EstimateResults)
          by (symmetry; exact Hestimate)
    end;
    msteps; finish_run;
    first [reflexivity | left; reflexivity | right; left; reflexivity
          | do 2 right; left; reflexivity | do 3 right; reflexivity].
Qed.

Lemma submitAddress_estimate_failure_witness :
  fails_on_estimate (estimateFailingNetwork sampleFields) [] sampleFields initialWorld.
Proof.
  apply (submitAddress_estimate_failure (estimateFailingNetwork sampleFields) []
           initialWorld sampleFields []).
  - left. reflexivity.
  - reflexivity.
  - reflexivity.
  - reflexivity.
  - reflexivity.
Defined.

Ltac finish_reusing :=
  unfold trackEvent, emit, ret; store_simpl; rewrite ?trace_delta; cbn [app];
  do 2 eexists; split; [reflexivity|];
  split; [first [reflexivity | symmetry; apply app_nil_r]|];
  split; [|reflexivity];
  let id := fresh "id" in
  let Hin := fresh "Hin" in
  intros id Hin; cbn [In] in Hin;
  repeat (destruct Hin as [Hin | Hin]; [discriminate Hin|]); exact Hin.

Ltac finish_debounced :=
  lazymatch goal with
  | |- exists w' delta, ret tt _ = _ /\ _ => finish_reusing
  end.

(** X15. Parcel details are fetched once: while the store holds parcel
    details with a jurisdiction and a parcel number, [submitAddress]
    returns without a parcel request and leaves the details as they are, in
    every state of the table and whatever the network answers. *)
Theorem submitAddress_reuses_parcel_details :
  forall (net : Network) (options : Options) (w : World),
    in_table (flowState (store w)) ->
    hasParcelDetails (addressViewModel (store w)) = true ->
    exists w' delta,
      submitAddress net options w = Returns tt w'
      /\ trace w' = trace w ++ delta
      /\ no_parcel_request delta
      /\ parcelDetails (addressViewModel (store w'))
         = parcelDetails (addressViewModel (store w)).
Proof.
  intros net options w Hin Hp. unfold no_parcel_request.
  destruct w as [[a c e f] tr]. store_simpl_in Hin. store_simpl_in Hp. store_simpl.
  each_table_state Hin;
    unfold submitAddress; mstep; cbn [String.eqb Ascii.eqb Bool.eqb orb];
    first
    [ finish_debounced
    | do 5 mstep; unfold try_catch; mstep;
      change (hasParcelDetails (with_address_errorMessage "" a)) with (hasParcelDetails a);
      rewrite Hp; cbn [andb negb when];
      destruct (hasResults e) eqn:Hr; cbn [andb negb when];
      [ destruct (isSubmitted c); msteps; rewrite ?Hr; cbn [negb when]; msteps;
        finish_reusing
      | msteps; rewrite ?Hr; cbn [negb when]; rewrite bind_assoc; unfold fetchEstimateResults; rewrite bind_assoc; mstep;
        match goal with
        | |- context [estimate_response net ?p] => destruct (estimate_response net p)
        end; msteps; finish_reusing ] ].
Qed.

Lemma submitAddress_reuses_parcel_details_witness :
  exists w' delta,
    submitAddress failingNetwork [] {| store := completedStore; trace := [] |}
    = Returns tt w'
    /\ trace w' = [] ++ delta
    /\ no_parcel_request delta
    /\ parcelDetails (addressViewModel (store w'))
       = parcelDetails (addressViewModel completedStore).
Proof.
  apply (submitAddress_reuses_parcel_details failingNetwork []
           {| store := completedStore; trace := [] |}).
  - left. reflexivity.
  - reflexivity.
Defined.

(** ** How a contact submission ends *)

Lemma submitContact_starts_waiting net options w payload t0 :
  contact_submittable (flowState (store w)) ->
  submitContact options w = Suspended payload t0 ->
  payload = createLeadPayload options (store w)
  /\ submission_outcome net payload w t0.
Proof.
  intros Hsub Hcall. destruct w as [[a c e f] tr]. store_simpl_in Hsub.
  revert Hcall. unfold submitContact, submitContact_prologue.
  destruct Hsub as [-> | ->];
    mstep; cbn [String.eqb Ascii.eqb Bool.eqb]; msteps; unfold ret;
    intros [= <- <-]; (split; [reflexivity|]);
    unfold submission_outcome, waiting; cbn;
    (repeat split; try reflexivity; discriminate).
Qed.

Lemma submission_outcome_step net payload w t t' :
  submission_outcome net payload w t ->
  step net payload t t' ->
  submission_outcome net payload w t'.
Proof.
  intros [Haddr [Hest [Hok [Hfail Hstate]]]] Hstep.
  destruct Hstep as [t d | t due Hdue Hle | t Hlead Hresponse | t Hlead Hresponse
                    | t Hresumed Hseq Hlead | t Hresumed Hlead].
  - (* time passes *)
    unfold submission_outcome, completed, waiting in *.
    cbn [elapse world lead resumed]. auto.
  - (* the timer fires *)
    unfold submission_outcome, completed, waiting, sequence_turn in *.
    destruct (steps_left t); cbn [world lead resumed display store];
      destruct (store (world t)) as [a c e f]; cbn in *; auto.
  - (* the lead request succeeds *)
    unfold submission_outcome, completed, waiting in *.
    cbn [settle_lead world lead resumed].
    repeat split; try assumption; [intros _; exact Hresponse | discriminate].
  - (* the lead request fails *)
    unfold submission_outcome, completed, waiting in *.
    cbn [settle_lead world lead resumed].
    repeat split; try assumption; [discriminate | intros _; exact Hresponse].
  - (* submitContact resumes in its try block *)
    rewrite Hresumed in Hstate. destruct Hstate as [Hflow [Hflag Hmessage]].
    specialize (Hok Hlead).
    unfold submission_outcome, completed. rewrite Hok.
    cbn [resume world lead resumed].
    destruct (world t) as [[a c e f] tr]. cbn in Haddr, Hest, Hflow, Hflag, Hmessage.
    subst f. unfold try_catch, submitContact_fulfilled. msteps.
    destruct (hasActiveJurisdiction e && hasEstimate e); cbn [when]; msteps;
      unfold trackEvent, emit; cbn;
      (repeat split; try assumption; try reflexivity; intros H; rewrite Hlead in H;
       discriminate H).
  - (* submitContact resumes in its catch block *)
    rewrite Hresumed in Hstate. destruct Hstate as [Hflow [Hflag Hmessage]].
    specialize (Hfail Hlead).
    unfold submission_outcome, completed. rewrite Hfail.
    cbn [resume world lead resumed].
    destruct (world t) as [[a c e f] tr]. cbn in Haddr, Hest, Hflow, Hflag, Hmessage.
    subst f. unfold submitContact_rejected. msteps.
    unfold trackEvent, emit; cbn.
    repeat split; try assumption; try reflexivity; intros H; rewrite Hlead in H;
      discriminate H.
Qed.

(** X16. A contact submission started in [contactForm] or
    [contactFormError], at every moment of every run of its own events
    (time passing, the timers, the lead response, the resumption; no other
    handler in between): the lead payload is made of the form as it was;
    the address and the estimate view-models are untouched; as long as
    [submitContact] has not
    resumed, the flow is in [contactFormProcessing] with no error message
    and the submitted flag as it was; once it has resumed, the flow is in
    [estimateResults] with the flag set when the lead request succeeded,
    and in [contactFormError] with the error message and the flag as it
    was when the request failed. *)
Theorem submitContact_outcome :
  forall (net : Network) (options : Options) (w : World)
         (payload : LeadPayload) (t0 t : Submission),
    contact_submittable (flowState (store w)) ->
    submitContact options w = Suspended payload t0 ->
    steps net payload t0 t ->
    payload = createLeadPayload options (store w)
    /\ addressViewModel (store (world t)) = addressViewModel (store w)
    /\ estimateViewModel (store (world t)) = estimateViewModel (store w)
    /\ (resumed t = false -> waiting w t)
    /\ (resumed t = true -> completed net payload w t).
Proof.
  intros net options w payload t0 t Hsub Hcall Hsteps.
  destruct (submitContact_starts_waiting net _ _ _ _ Hsub Hcall) as [Hpayload Hstart].
  split; [exact Hpayload|].
  assert (Hinv : submission_outcome net payload w t).
  { induction Hsteps as [|t1 t2 t3 Hsteps IH Hstep]; [exact Hstart|].
    exact (submission_outcome_step _ _ _ _ _ (IH Hcall Hstart) Hstep). }
  destruct Hinv as [Haddr [Hest [_ [_ Hstate]]]].
  split; [exact Haddr|]. split; [exact Hest|].
  split; intros Hresumed; rewrite Hresumed in Hstate; exact Hstate.
Qed.

Lemma submitContact_outcome_witness :
  exists payload t0 t,
    submitContact [] typingContactWorld = Suspended payload t0
    /\ schedule failingNetwork payload leadFails t0 = Some t
    /\ resumed t = true
    /\ lotAnalysisStep (contactViewModel (store (world t))) = "Checking zoning district..."
    /\ completed failingNetwork payload typingContactWorld t.
Proof.
  do 3 eexists.
  split; [vm_compute; reflexivity|].
  lazymatch goal with
  | |- schedule ?net ?payload ?l ?t0 = Some _ /\ _ =>
      split; [vm_compute; reflexivity|];
      split; [vm_compute; reflexivity|];
      split; [vm_compute; reflexivity|];
      lazymatch goal with
      | |- completed _ _ ?w ?t =>
          destruct (submitContact_outcome net [] w payload t0 t) as [_ [_ [_ [_ Hdone]]]];
          [ left; reflexivity
          | vm_compute; reflexivity
          | apply (schedule_steps net payload l); vm_compute; reflexivity
          | apply Hdone; vm_compute; reflexivity ]
      end
  end.
Defined.

(** ** The steps of the lot analysis *)

Lemma sequencing_start options w payload t0 :
  submitContact options w = Suspended payload t0 -> sequencing t0.
Proof.
  intros Hcall.
  destruct (submitContact_suspended _ _ _ _ Hcall)
    as [[Hseq [_ [_ [Hnow [Hdue [Hstep _]]]]]] [Hleft _]].
  exists ["Checking flood zones..."]. rewrite Hseq, Hleft, Hnow, Hstep.
  split.
  - split; [reflexivity|]. split; [discriminate|]. split; [reflexivity|].
    cbn [length]. lia.
  - exists analysisStepDelay. split; [exact Hdue|]. cbn [length]. lia.
Qed.

Lemma sequencing_step net payload w t t' :
  submission_outcome net payload w t ->
  sequencing t ->
  step net payload t t' ->
  sequencing t'.
Proof.
  intros [_ [_ [Hok [Hfail Hstate]]]] [shown [[Hsplit [Hshown [Hlast Htime]]] Htimer]] Hstep.
  destruct Hstep as [t d | t due Hdue Hle | t Hlead Hresponse | t Hlead Hresponse
                    | t Hresumed Hseq Hlead | t Hresumed Hlead].
  - (* time passes *)
    exists shown. cbn [elapse world now steps_left sequence timer_due].
    split; [|exact Htimer]. repeat split; try assumption. lia.
  - (* the timer fires *)
    destruct (sequence t) eqn:Hseq; [| |contradiction].
    + destruct Htimer as [due' [Hdue' Hbound]]. rewrite Hdue in Hdue'. injection Hdue' as <-.
      unfold sequence_turn. destruct (steps_left t) as [|next rest] eqn:Hleft.
      * exists shown. cbn [world now steps_left sequence timer_due].
        split; [|split; reflexivity]. repeat split; assumption.
      * exists (shown ++ [next]). cbn [world now steps_left sequence timer_due].
        rewrite Hseq. rewrite length_app. cbn [length].
        split.
        -- split; [rewrite <- app_assoc; exact Hsplit|].
           split; [intros Hnil; apply app_eq_nil in Hnil as [_ Hnil]; discriminate Hnil|].
           split; [rewrite last_last; destruct (store (world t)); reflexivity|].
           unfold analysisStepDelay in *. lia.
        -- eexists. split; [reflexivity|]. unfold analysisStepDelay in *. lia.
    + destruct Htimer as [Hnone _]. rewrite Hnone in Hdue. discriminate Hdue.
  - (* the lead request succeeds *)
    exists shown. cbn [settle_lead world now steps_left sequence timer_due].
    split; [|exact Htimer]. repeat split; assumption.
  - (* the lead request fails *)
    exists shown. cbn [settle_lead world now steps_left sequence timer_due].
    split; [|exact Htimer]. repeat split; assumption.
  - (* submitContact resumes in its try block *)
    rewrite Hresumed in Hstate. destruct Hstate as [Hflow _].
    exists shown. cbn [resume world now steps_left sequence timer_due].
    split; [|exact Htimer]. split; [exact Hsplit|]. split; [exact Hshown|].
    split; [|exact Htime]. rewrite <- Hlast.
    destruct (world t) as [[a c e f] tr]. cbn in Hflow. subst f.
    unfold try_catch, submitContact_fulfilled. msteps.
    destruct (hasActiveJurisdiction e && hasEstimate e); cbn [when]; msteps;
      unfold trackEvent, emit; reflexivity.
  - (* submitContact resumes in its catch block *)
    rewrite Hresumed in Hstate. destruct Hstate as [Hflow _].
    exists shown. cbn [resume world now steps_left sequence timer_due].
    split; [|exact Htimer]. split; [exact Hsplit|]. split; [exact Hshown|].
    split; [|exact Htime]. rewrite <- Hlast.
    destruct (world t) as [[a c e f] tr]. cbn in Hflow. subst f.
    unfold submitContact_rejected. msteps. unfold trackEvent, emit. reflexivity.
Qed.

Lemma submission_invariants net options w payload t0 t :
  contact_submittable (flowState (store w)) ->
  submitContact options w = Suspended payload t0 ->
  steps net payload t0 t ->
  submission_outcome net payload w t /\ sequencing t.
Proof.
  intros Hsub Hcall Hsteps.
  induction Hsteps as [|t1 t2 t3 Hsteps IH Hstep].
  - split; [exact (proj2 (submitContact_starts_waiting net _ _ _ _ Hsub Hcall))|].
    exact (sequencing_start _ _ _ _ Hcall).
  - destruct (IH Hcall) as [Hout Hseq].
    split; [exact (submission_outcome_step _ _ _ _ _ Hout Hstep)|].
    exact (sequencing_step _ _ _ _ _ Hout Hseq Hstep).
Qed.

Lemma steps_all_alone net payload r r' :
  steps_all net payload r r' ->
  earlier r = [] ->
  earlier r' = [] /\ steps net payload (current r) (current r').
Proof.
  intros Hsteps Hnone. induction Hsteps as [r|r1 r2 r3 Hsteps IH Hstep].
  - split; [exact Hnone | apply steps_refl].
  - destruct (IH Hnone) as [Hnone2 Hown].
    destruct Hstep as [t t' ls Hstep | t before l after next rest _ _ | t before l after _ _];
      cbn [current earlier] in *.
    + split; [exact Hnone2|]. eapply steps_step; eassumption.
    + destruct before; discriminate Hnone2.
    + destruct before; discriminate Hnone2.
Qed.

Lemma steps_all_current net payload ls t t' :
  steps net payload t t' ->
  steps_all net payload {| current := t; earlier := ls |} {| current := t'; earlier := ls |}.
Proof.
  induction 1 as [t|t1 t2 t3 Hsteps IH Hstep]; [apply steps_all_refl|].
  eapply steps_all_step; [exact IH | apply step_current; exact Hstep].
Qed.

(** X17. The steps of the lot analysis come in order and none is cut
    short, when no step sequence of an earlier submission is still
    running: at every moment of a contact submission started in
    [contactForm] or [contactFormError] with no earlier loop left, the
    steps displayed so far are the first ones of the list, the last of
    them is the one on display, also after [submitContact] has resumed,
    and the k-th step is not on display before (k-1) delays of 1500 ms
    have elapsed. *)
Theorem lot_analysis_steps_in_order :
  forall (net : Network) (options : Options) (w : World)
         (payload : LeadPayload) (t0 : Submission) (r : Resubmission),
    contact_submittable (flowState (store w)) ->
    submitContact options w = Suspended payload t0 ->
    steps_all net payload {| current := t0; earlier := [] |} r ->
    earlier r = [] /\ displayed_in_order (current r).
Proof.
  intros net options w payload t0 r Hsub Hcall Hsteps.
  destruct (steps_all_alone _ _ _ _ Hsteps eq_refl) as [Hnone Hown].
  split; [exact Hnone|]. cbn [current] in Hown.
  destruct (submission_invariants _ _ _ _ _ _ Hsub Hcall Hown) as [_ [shown [Horder _]]].
  exists shown. exact Horder.
Qed.

Lemma lot_analysis_steps_in_order_witness :
  exists payload t0 t,
    submitContact [] typingContactWorld = Suspended payload t0
    /\ schedule failingNetwork payload leadFails t0 = Some t
    /\ displayed_in_order t.
Proof.
  do 3 eexists.
  split; [vm_compute; reflexivity|].
  lazymatch goal with
  | |- schedule ?net ?payload ?l ?t0 = Some _ /\ _ =>
      split; [vm_compute; reflexivity|];
      lazymatch goal with
      | |- displayed_in_order ?t =>
          apply (lot_analysis_steps_in_order net [] typingContactWorld payload t0
                   {| current := t; earlier := [] |});
          [ left; reflexivity
          | vm_compute; reflexivity
          | apply steps_all_current, (schedule_steps net payload l); vm_compute; reflexivity ]
      end
  end.
Defined.

(** With a loop of an earlier submission left over, the order is lost: the
    form is submitted again 1000 ms after a failed submission, and 500 ms
    later the earlier loop displays its third step. *)
Example earlier_loop_breaks_the_order :
  exists payload t0 r,
    submitContact [] retryWorld = Suspended payload t0
    /\ steps_all failingNetwork payload {| current := t0; earlier := [leftoverLoop] |} r
    /\ now (current r) = 500
    /\ steps_left (current r) = tl analysisSteps
    /\ lotAnalysisStep (contactViewModel (store (world (current r))))
       = "Checking zoning district..."
    /\ ~ displayed_in_order (current r).
Proof.
  do 2 eexists.
  lazymatch goal with
  | |- exists r, submitContact ?o ?w = Suspended ?payload ?t0 /\ _ =>
      assert (Hcall : submitContact o w = Suspended payload t0) by (vm_compute; reflexivity)
  end.
  lazymatch type of Hcall with
  | _ = Suspended ?payload ?t0 =>
      exists {| current := shown_by_earlier "Checking zoning district..." (elapse 500 t0);
                earlier := [{| loop_left := ["Checking lot shape & size..."];
                               loop_due := 500 + analysisStepDelay |}] |};
      split; [exact Hcall|]; split;
      [ eapply steps_all_step;
        [ eapply steps_all_step; [apply steps_all_refl|];
          apply step_current, (step_elapse failingNetwork payload t0 500)
        | apply (step_earlier_timer failingNetwork payload (elapse 500 t0) [] leftoverLoop []
                   "Checking zoning district..." ["Checking lot shape & size..."]);
          [reflexivity | cbn; lia] ]
      | ]
  end.
  split; [reflexivity|]. split; [reflexivity|]. split; [reflexivity|].
  intros [shown [Hsplit [_ [Hlast _]]]].
  cbn [current shown_by_earlier elapse steps_left] in Hsplit.
  assert (Hlen : length shown = 1).
  { apply (f_equal (@length string)) in Hsplit. rewrite length_app in Hsplit.
    cbn in Hsplit. lia. }
  destruct shown as [|first [|second shown]]; try discriminate Hlen.
  cbn in Hsplit. injection Hsplit as <-. cbn in Hlast. discriminate Hlast.
Qed.

(** ** A submission can always complete *)

Lemma steps_trans net payload t1 t2 t3 :
  steps net payload t1 t2 -> steps net payload t2 t3 -> steps net payload t1 t3.
Proof.
  intros H12 H23. induction H23 as [|t2 t3 t4 H23 IH Hstep]; [exact H12|].
  eapply steps_step; [exact (IH H12) | exact Hstep].
Qed.

Lemma steps_one net payload t1 t2 :
  step net payload t1 t2 -> steps net payload t1 t2.
Proof. intros Hstep. eapply steps_step; [apply steps_refl | exact Hstep]. Qed.

(** Once its timer is set, the step sequence can run to its end. *)
Lemma sequence_can_finish net payload :
  forall n t due,
    length (steps_left t) = n ->
    timer_due t = Some due ->
    exists t',
      steps net payload t t'
      /\ sequence t' = Fulfilled
      /\ lead t' = lead t
      /\ resumed t' = resumed t.
Proof.
  induction n as [|n IH]; intros t due Hlen Hdue.
  - (* the last timer *)
    exists (sequence_turn (elapse due t)). split.
    + eapply steps_step; [apply steps_one, step_elapse|].
      apply (step_timer net payload (elapse due t) due); [exact Hdue|].
      cbn [elapse now]. lia.
    + unfold sequence_turn. cbn [elapse steps_left].
      destruct (steps_left t); [|discriminate Hlen]. auto.
  - destruct (steps_left t) as [|next rest] eqn:Hleft; [discriminate Hlen|].
    injection Hlen as Hlen.
    destruct (IH (sequence_turn (elapse due t)) (now t + due + analysisStepDelay))
      as [t' [Hsteps [Hseq [Hlead Hresumed]]]].
    + unfold sequence_turn. cbn [elapse steps_left]. rewrite Hleft. exact Hlen.
    + unfold sequence_turn. cbn [elapse steps_left]. rewrite Hleft. reflexivity.
    + exists t'. split; [|split; [exact Hseq|]].
      * eapply steps_trans; [|exact Hsteps].
        eapply steps_step; [apply steps_one, step_elapse|].
        apply (step_timer net payload (elapse due t) due); [exact Hdue|].
        cbn [elapse now]. lia.
      * revert Hlead Hresumed. unfold sequence_turn. cbn [elapse steps_left].
        rewrite Hleft. cbn [lead resumed]. auto.
Qed.

(** X18. A contact submission started in [contactForm] or
    [contactFormError] cannot get stuck in [contactFormProcessing]: from
    every moment at which [submitContact] is still waiting, the event
    loop has a run, in which the lead request settles and the timers
    fire, after which [submitContact] has resumed. *)
Theorem submitContact_can_always_complete :
  forall (net : Network) (options : Options) (w : World)
         (payload : LeadPayload) (t0 t : Submission),
    contact_submittable (flowState (store w)) ->
    submitContact options w = Suspended payload t0 ->
    steps net payload t0 t ->
    exists t', steps net payload t t' /\ resumed t' = true.
Proof.
  intros net options w payload t0 t Hsub Hcall Hsteps.
  destruct (submission_invariants _ _ _ _ _ _ Hsub Hcall Hsteps)
    as [_ [shown [_ Htimer]]].
  destruct (resumed t) eqn:Hresumed; [exists t; split; [apply steps_refl | exact Hresumed]|].
  (* the lead request settles *)
  assert (Hsettled : exists t1,
             steps net payload t t1 /\ lead t1 <> Pending
             /\ sequence t1 = sequence t /\ timer_due t1 = timer_due t
             /\ resumed t1 = false).
  { destruct (lead t) eqn:Hlead.
    - destruct (lead_response net payload) eqn:Hresponse.
      + exists (settle_lead Fulfilled t).
        split; [apply steps_one, step_lead_fulfilled; assumption|].
        cbn. repeat split; [discriminate | exact Hresumed].
      + exists (settle_lead Rejected t).
        split; [apply steps_one, step_lead_rejected; assumption|].
        cbn. repeat split; [discriminate | exact Hresumed].
    - exists t. split; [apply steps_refl|]. rewrite Hlead.
      repeat split; [discriminate | exact Hresumed].
    - exists t. split; [apply steps_refl|]. rewrite Hlead.
      repeat split; [discriminate | exact Hresumed]. }
  destruct Hsettled as [t1 [Hsteps1 [Hlead1 [Hseq1 [Hdue1 Hresumed1]]]]].
  destruct (lead t1) eqn:Hl; [contradiction| |].
  - (* fulfilled: the sequence runs to its end, then the try block *)
    assert (Hdone : exists t2,
               steps net payload t1 t2 /\ sequence t2 = Fulfilled
               /\ lead t2 = Fulfilled /\ resumed t2 = false).
    { destruct (sequence t) eqn:Hseq; [| |contradiction].
      - destruct Htimer as [due [Hdue _]]. rewrite <- Hdue1 in Hdue.
        destruct (sequence_can_finish net payload _ t1 due eq_refl Hdue)
          as [t2 [Hsteps2 [Hseq2 [Hlead2 Hresumed2]]]].
        exists t2. rewrite Hlead2, Hresumed2. auto.
      - exists t1. split; [apply steps_refl|]. auto. }
    destruct Hdone as [t2 [Hsteps2 [Hseq2 [Hlead2 Hresumed2]]]].
    exists (resume (try_catch submitContact_fulfilled submitContact_rejected) t2).
    split; [|reflexivity].
    eapply steps_trans; [exact Hsteps1|].
    eapply steps_step; [exact Hsteps2|]. apply step_resume_fulfilled; assumption.
  - (* rejected: the catch block *)
    exists (resume submitContact_rejected t1). split; [|reflexivity].
    eapply steps_step; [exact Hsteps1|]. apply step_resume_rejected; assumption.
Qed.

Lemma submitContact_can_always_complete_witness :
  exists payload t0 t,
    submitContact [] typingContactWorld = Suspended payload t0
    /\ schedule (answeringNetwork []) payload [Elapse 1500; TimerFires; Elapse 700] t0
       = Some t
    /\ resumed t = false
    /\ exists t', steps (answeringNetwork []) payload t t' /\ resumed t' = true.
Proof.
  do 3 eexists.
  split; [vm_compute; reflexivity|].
  lazymatch goal with
  | |- schedule ?net ?payload ?l ?t0 = Some _ /\ _ =>
      split; [vm_compute; reflexivity|];
      split; [vm_compute; reflexivity|];
      lazymatch goal with
      | |- exists t', steps _ _ ?t t' /\ _ =>
          apply (submitContact_can_always_complete net [] typingContactWorld payload t0 t);
          [ left; reflexivity
          | vm_compute; reflexivity
          | apply (schedule_steps net payload l); vm_compute; reflexivity ]
      end
  end.
Defined.

(** ** The personalization view-model *)

Lemma to_lower_char_idem c : to_lower_char (to_lower_char c) = to_lower_char c.
Proof. destruct c as [[] [] [] [] [] [] [] []]; vm_compute; reflexivity. Qed.

Lemma to_lower_char_space c : is_white_space (to_lower_char c) = is_white_space c.
Proof. destruct c as [[] [] [] [] [] [] [] []]; vm_compute; reflexivity. Qed.

Lemma toLowerCase_idem s : toLowerCase (toLowerCase s) = toLowerCase s.
Proof.
  induction s as [|c s IH]; [reflexivity|]. cbn [toLowerCase].
  rewrite to_lower_char_idem, IH. reflexivity.
Qed.

Lemma toLowerCase_trim_start s : toLowerCase (trim_start s) = trim_start (toLowerCase s).
Proof.
  induction s as [|c s IH]; [reflexivity|]. cbn [toLowerCase trim_start].
  rewrite to_lower_char_space. destruct (is_white_space c); [exact IH | reflexivity].
Qed.

Lemma toLowerCase_list s :
  list_ascii_of_string (toLowerCase s) = List.map to_lower_char (list_ascii_of_string s).
Proof. induction s as [|c s IH]; [reflexivity|]. cbn. rewrite IH. reflexivity. Qed.

Lemma toLowerCase_of_list l :
  toLowerCase (string_of_list_ascii l) = string_of_list_ascii (List.map to_lower_char l).
Proof. induction l as [|c l IH]; [reflexivity|]. cbn. rewrite IH. reflexivity. Qed.

Lemma toLowerCase_reverse s : toLowerCase (reverse s) = reverse (toLowerCase s).
Proof.
  unfold reverse. rewrite toLowerCase_of_list, toLowerCase_list, List.map_rev. reflexivity.
Qed.

Lemma toLowerCase_trim s : toLowerCase (trim s) = trim (toLowerCase s).
Proof.
  unfold trim.
  rewrite toLowerCase_reverse, toLowerCase_trim_start, toLowerCase_reverse,
    toLowerCase_trim_start.
  reflexivity.
Qed.

Lemma trim_start_clean s : clean_start (trim_start s).
Proof.
  induction s as [|c s IH]; [exact I|]. cbn [trim_start].
  destruct (is_white_space c) eqn:Hc; [exact IH | exact Hc].
Qed.

Lemma trim_start_id s : clean_start s -> trim_start s = s.
Proof. destruct s as [|c s]; [reflexivity|]. cbn. intros ->. reflexivity. Qed.

Lemma append_String c a b :
  String.append (String c a) b = String c (String.append a b).
Proof. reflexivity. Qed.

Lemma trim_start_suffix s : exists p, s = String.append p (trim_start s).
Proof.
  induction s as [|c s [p IH]]; [exists ""; reflexivity|]. cbn [trim_start].
  destruct (is_white_space c).
  - exists (String c p).
    rewrite append_String, <- IH. reflexivity.
  - exists "". reflexivity.
Qed.

Lemma reverse_involutive s : reverse (reverse s) = s.
Proof.
  unfold reverse.
  rewrite list_ascii_of_string_of_list_ascii, List.rev_involutive.
  apply string_of_list_ascii_of_string.
Qed.

Lemma list_ascii_of_append a b :
  list_ascii_of_string (String.append a b)
  = list_ascii_of_string a ++ list_ascii_of_string b.
Proof.
  induction a as [|c a IH]; [reflexivity|].
  rewrite append_String. cbn [list_ascii_of_string app]. rewrite IH. reflexivity.
Qed.

Lemma string_of_list_app l1 l2 :
  string_of_list_ascii (l1 ++ l2)
  = String.append (string_of_list_ascii l1) (string_of_list_ascii l2).
Proof.
  induction l1 as [|c l1 IH]; [reflexivity|].
  cbn [string_of_list_ascii app]. rewrite append_String, IH. reflexivity.
Qed.

Lemma reverse_append a b :
  reverse (String.append a b) = String.append (reverse b) (reverse a).
Proof.
  unfold reverse. rewrite list_ascii_of_append, List.rev_app_distr. apply string_of_list_app.
Qed.

(** [trim] leaves no white space at either end. *)
Lemma trim_clean s : clean_start (trim s) /\ clean_start (reverse (trim s)).
Proof.
  unfold trim. set (m := trim_start s).
  assert (Hm : clean_start m) by apply trim_start_clean.
  destruct (trim_start_suffix (reverse m)) as [p Hp].
  set (r := trim_start (reverse m)) in *.
  split; [|rewrite reverse_involutive; apply trim_start_clean].
  assert (Hsplit : m = String.append (reverse r) (reverse p)).
  { rewrite <- reverse_append, <- Hp. symmetry. apply reverse_involutive. }
  destruct (reverse r) as [|c x]; [exact I|].
  rewrite Hsplit in Hm. exact Hm.
Qed.

Lemma trim_idem s : trim (trim s) = trim s.
Proof.
  destruct (trim_clean s) as [Hstart Hend].
  unfold trim at 1. rewrite (trim_start_id _ Hstart), (trim_start_id _ Hend).
  apply reverse_involutive.
Qed.

(** Normalizing a city twice is normalizing it once. *)
Lemma normalize_idem s :
  trim (toLowerCase (trim (toLowerCase s))) = trim (toLowerCase s).
Proof. rewrite toLowerCase_trim, toLowerCase_idem. apply trim_idem. Qed.

Lemma getBcPhoneNumberForCity_local city :
  getBcPhoneNumberForCity city = Own (local_number city).
Proof.
  unfold local_number.
  destruct city as [| |s|q]; try reflexivity.
  unfold getBcPhoneNumberForCity, getMarketForCity.
  destruct (String.eqb s "") eqn:Hs; [reflexivity|].
  cbv zeta. rewrite normalize_idem.
  destruct (String.eqb (trim (toLowerCase s)) "") eqn:Hn.
  - apply String.eqb_eq in Hn. rewrite Hn. reflexivity.
  - destruct (includes sacramentoCities (trim (toLowerCase s))); reflexivity.
Qed.

(** X19. The phone number on display is the Sacramento number exactly
    when [getMarketForCity] finds the Sacramento market for the city of
    the visitor, and the default number otherwise, whatever [userGeo.city]
    is (a string of one-byte characters, [undefined], [null], a number):
    normalizing the city twice, once
    in [getBcPhoneNumberForCity] and once more in [getMarketForCity],
    changes nothing, and no property that the table of phone numbers
    inherits is ever read. *)
Theorem getBcPhoneNumberForCity_by_market :
  forall city : JsVal,
    bcPhoneNumber city
    = Own (match market city with
           | Some _ => "(916) 619-1442"
           | None => "(415) 941-5861"
           end)
    /\ (market city = None \/ market city = Some "sacramento").
Proof.
  intros city. split; [exact (getBcPhoneNumberForCity_local city)|].
  unfold market, getMarketForCity. destruct city as [| |s|q]; auto.
  destruct (String.eqb s ""); auto.
  cbv zeta. destruct (includes sacramentoCities (trim (toLowerCase s))); auto.
Qed.

(** X20. The link of the phone number can always be dialled: whatever
    [userGeo.city] is, [bcPhoneNumberHref] is [tel:+1] followed by ten
    digits, and [replace] is never called on anything but a string. *)
Theorem bcPhoneNumberHref_dials :
  forall city : JsVal,
    exists digits,
      bcPhoneNumberHref city = Some (String.append "tel:+1" digits)
      /\ String.length digits = 10
      /\ all_digits digits = true.
Proof.
  intros city. unfold bcPhoneNumberHref, bcPhoneNumber.
  rewrite getBcPhoneNumberForCity_local. unfold local_number.
  destruct (getMarketForCity city); eexists; (split; [reflexivity|]); split; reflexivity.
Qed.

Example personalization_samples :
  market (JString "  West SACRAMENTO ") = Some "sacramento"
  /\ bcPhoneNumberHref (JString "  West SACRAMENTO ") = Some "tel:+19166191442"
  /\ market (JString "Oakland") = None
  /\ bcPhoneNumberHref JUndefined = Some "tel:+14159415861"
  /\ getBcPhoneNumberForMarket (JString "Constructor") = Inherited "constructor".
Proof. repeat split; vm_compute; reflexivity. Qed.
